(** * An unbalanced binary search tree with parent links (package [bst])

    A shallow embedding of the Go package [bst] and the properties of its
    operations.  The type embedded is [BasicBST] in its complete state (the
    one with the [Height] field and the three-case [Delete]); the earlier
    state kept in basic.go differs in [Next] and [Delete] only and is in
    module [BasicGo].  [Viz] and the height bookkeeping ([height],
    [calcHeight], [imax]), which no other operation calls, come last,
    with [updateHeight] and [iabs] of the [AVL] type.

    Go pointers are addresses into an arena: the heap is a list of node
    records, the address of a node is its index, [nil] is [None], and
    [&BasicBST{...}] allocates at the end of the list.  A nil dereference,
    an out-of-range array index and a method call on a nil [KeyType]
    interface are run-time panics ([Panic]).  Recursion and loops that
    follow pointers take fuel; the exported operations supply one unit more
    than there are nodes in the heap, which is enough on every heap whose
    child links form a tree (section [Model] onwards). *)

From stdpp Require Import base tactics option list numbers sorting sets.
From stdpp Require Import strings pretty.
From Stdlib Require Import ZArith Lia.

(** ** Outcomes of a call *)

Inductive res (A : Type) : Type :=
| Ret (a : A)
| Panic
| OutOfFuel.
Arguments Ret {A} a.
Arguments Panic {A}.
Arguments OutOfFuel {A}.

#[global] Instance res_ret : MRet res := @Ret.
#[global] Instance res_bind : MBind res := λ A B f m,
  match m with
  | Ret a => f a
  | Panic => Panic
  | OutOfFuel => OutOfFuel
  end.

(** ** Keys *)

(** [KeyType] is the interface required from keys.  [String] is used by
    [Viz] only; it is the class [Stringer], declared with [Viz]. *)
Class KeyType (K : Type) := {
  Equal : K → K → bool;
  Less : K → K → bool;
}.

(** The key type of the test-suite: [type iKey int], compared with [==]
    and [<].  Keys are only compared, never computed with, so the width of
    [int] plays no role. *)
Definition iKey : Type := Z.
#[global] Instance iKey_KeyType : KeyType iKey := {|
  Equal := Z.eqb;
  Less := Z.ltb;
|}.

(** The laws of a strict total order, in the form the tree needs them. *)
Class StrictOrderKey (K : Type) `{KeyType K} := {
  Less_irrefl : ∀ a, Less a a = false;
  Less_trans : ∀ a b c, Less a b = true → Less b c = true → Less a c = true;
  Less_connex : ∀ a b, Less a b = false → Less b a = false → a = b;
}.

#[global] Instance iKey_StrictOrderKey : StrictOrderKey iKey.
Proof.
  split; simpl.
  - intros a. apply Z.ltb_irrefl.
  - intros a b c ?%Z.ltb_lt ?%Z.ltb_lt. apply Z.ltb_lt. lia.
  - intros a b ?%Z.ltb_ge ?%Z.ltb_ge. lia.
Qed.

(** ** Nodes and the heap *)

Definition addr : Type := nat.
Definition ptr : Type := option addr.

(** enums for the left and right sides of the tree *)
Definition lo : Z := 0%Z.
Definition hi : Z := 1%Z.

(** [ctx.Err()] of a cancelled context. *)
Inductive error : Type := Canceled.

Section BST.
Context {K V : Type} `{KeyType K}.
Local Open Scope Z_scope.

(** [Key] is an interface value and [Value] an [interface{}]: both are nil
    in a node made by [&BasicBST{}]. *)
Record BasicBST : Type := mkBasicBST {
  Key : option K;
  Value : option V;
  Parent : ptr;
  Child : ptr * ptr;  (* index is oneof {lo, hi} *)
  Height : Z;
}.

Abbreviation heap := (list BasicBST).

Definition setKeyValue (n : BasicBST) (k : option K) (v : option V) : BasicBST :=
  mkBasicBST k v (Parent n) (Child n) (Height n).
Definition setValue (n : BasicBST) (v : option V) : BasicBST :=
  mkBasicBST (Key n) v (Parent n) (Child n) (Height n).
Definition setChild (n : BasicBST) (c : ptr * ptr) : BasicBST :=
  mkBasicBST (Key n) (Value n) (Parent n) c (Height n).

(** [c[i]] and [c[i] = x] on the array [[2]*BasicBST]; an index outside
    [0..1] panics. *)
Definition getIdx (c : ptr * ptr) (i : Z) : res ptr :=
  if i =? lo then Ret c.1 else if i =? hi then Ret c.2 else Panic.
Definition setIdx (c : ptr * ptr) (i : Z) (x : ptr) : res (ptr * ptr) :=
  if i =? lo then Ret (x, c.2) else if i =? hi then Ret (c.1, x) else Panic.

(** Reading the node at an address, and dereferencing a pointer. *)
Definition load (h : heap) (a : addr) : res BasicBST :=
  match h !! a with
  | Some n => Ret n
  | None => Panic
  end.
Definition deref (h : heap) (p : ptr) : res BasicBST :=
  match p with
  | Some a => load h a
  | None => Panic
  end.

(** [a.Less(b)] on interface values.  A method call on a nil interface
    panics; with a nil argument [iKey.Less] panics too (its type assertion
    [b.(iKey)] fails), and this is taken for every key type. *)
Definition LessI (a b : option K) : res bool :=
  match a, b with
  | Some x, Some y => Ret (Less x y)
  | _, _ => Panic
  end.

(** The fuel that the exported operations run with. *)
Definition fuelOf (h : heap) : nat := S (length h).

(** [return n != nil && n.Parent == n] *)
Definition IsSentinel (h : heap) (n : ptr) : bool :=
  match n with
  | None => false
  | Some a =>
      match h !! a with
      | Some nd => bool_decide (Parent nd = Some a)
      | None => false
      end
  end.

(** [NewBasic] allocates a new tree: a sentinel that is its own parent. *)
Definition NewBasic (h : heap) : heap * addr :=
  (h ++ [mkBasicBST None None (Some (length h)) (None, None) 0], length h).

(** [Get] retrieves a pointer to the node for a given key. *)
Fixpoint Get_ (fuel : nat) (h : heap) (n : ptr) (k : K) : res ptr :=
  match fuel with
  | O => OutOfFuel
  | S fuel =>
      match n with
      | None => Ret None
      | Some a =>
          nd ← load h a;
          c ← (if IsSentinel h n then Ret true else LessI (Some k) (Key nd));
          if c : bool then Get_ fuel h (Child nd).1 k
          else
            c ← LessI (Key nd) (Some k);
            if c : bool then Get_ fuel h (Child nd).2 k
            else Ret n
      end
  end.
Definition Get (h : heap) (n : ptr) (k : K) : res ptr := Get_ (fuelOf h) h n k.

(** [Visit] visits the nodes in tree order.  The callback threads a state
    (what it has sent so far) and may return an error, which stops the
    traversal. *)
Fixpoint Visit_ {S : Type} (fuel : nat) (h : heap) (n : ptr)
    (f : addr → S → res (S * option error)) (st : S) : res (S * option error) :=
  match fuel with
  | O => OutOfFuel
  | Datatypes.S fuel =>
      match n with
      | None => Ret (st, None)
      | Some a =>
          nd ← load h a;
          if IsSentinel h n then Visit_ fuel h (Child nd).1 f st
          else
            r1 ← match (Child nd).1 with
                 | Some _ => Visit_ fuel h (Child nd).1 f st
                 | None => Ret (st, None)
                 end;
            match r1.2 with
            | Some e => Ret r1
            | None =>
                r2 ← f a r1.1;
                match r2.2 with
                | Some e => Ret r2
                | None =>
                    match (Child nd).2 with
                    | Some _ => Visit_ fuel h (Child nd).2 f r2.1
                    | None => Ret (r2.1, None)
                    end
                end
            end
      end
  end.
Definition Visit {S : Type} (h : heap) (n : ptr)
    (f : addr → S → res (S * option error)) (st : S) : res (S * option error) :=
  Visit_ (fuelOf h) h n f st.

(** A [select] between a send on an unbuffered channel and [<-ctx.Done()].
    The channel is the list of elements handed to the consumer so far;
    [done i] tells whether the [select] reached after [i] hand-offs takes
    the [ctx.Done()] branch. *)
Definition selectSend {A : Type} (done : nat → bool) (c : list A) (x : A)
    : list A * option error :=
  if done (length c) then (c, Some Canceled) else (c ++ [x], None).

(** [Keys] streams the keys from low to high; the result is what the
    consumer receives until the channel is closed. *)
Definition Keys (h : heap) (n : ptr) (done : nat → bool) : res (list (option K)) :=
  r ← Visit h n (λ a c, nd ← load h a; Ret (selectSend done c (Key nd))) [];
  Ret r.1.

(** [Check] streams the nodes violating the BST condition. *)
Definition badNode (h : heap) (a : addr) : res bool :=
  nd ← load h a;
  badLo ← match (Child nd).1 with
          | Some l => ln ← load h l; b ← LessI (Key ln) (Key nd); Ret (negb b)
          | None => Ret false
          end;
  badHi ← match (Child nd).2 with
          | Some r => rn ← load h r; b ← LessI (Key nd) (Key rn); Ret (negb b)
          | None => Ret false
          end;
  Ret (badLo || badHi).
Definition Check (h : heap) (n : ptr) (done : nat → bool) : res (list addr) :=
  r ← Visit h n (λ a c, b ← badNode h a;
                       if b : bool then Ret (selectSend done c a) else Ret (c, None)) [];
  Ret r.1.

(** [Insert] inserts a key, value pair. *)
Definition newNode (k : K) (v : V) (parent : addr) : BasicBST :=
  mkBasicBST (Some k) (Some v) (Some parent) (None, None) 0.
Fixpoint Insert_ (fuel : nat) (h : heap) (n : ptr) (k : K) (v : V) : res heap :=
  match fuel with
  | O => OutOfFuel
  | S fuel =>
      match n with
      | None => Panic
      | Some a =>
          nd ← load h a;
          c ← (if IsSentinel h n then Ret true else LessI (Some k) (Key nd));
          if c : bool then
            match (Child nd).1 with
            | None =>
                Ret (<[a := setChild nd (Some (length h), (Child nd).2)]> h
                       ++ [newNode k v a])
            | Some _ => Insert_ fuel h (Child nd).1 k v
            end
          else
            c ← LessI (Key nd) (Some k);
            if c : bool then
              match (Child nd).2 with
              | None =>
                  Ret (<[a := setChild nd ((Child nd).1, Some (length h))]> h
                         ++ [newNode k v a])
              | Some _ => Insert_ fuel h (Child nd).2 k v
              end
            else Ret (<[a := setValue nd (Some v)]> h)
      end
  end.
Definition Insert (h : heap) (n : ptr) (k : K) (v : V) : res heap :=
  Insert_ (fuelOf h) h n k v.

(** [which] returns the node's index from its parent. *)
Definition which (h : heap) (n : ptr) : res Z :=
  nd ← deref h n;
  p ← deref h (Parent nd);
  if bool_decide (n = (Child p).1) then Ret lo
  else if bool_decide (n = (Child p).2) then Ret hi
  else Ret (-1).

(** [opposite] reverses a direction. *)
Definition opposite (d : Z) : Z := (d + 1) `mod` 2.

(** [for cur.Child[r] != nil { cur = cur.Child[r] }] *)
Fixpoint descend (fuel : nat) (h : heap) (cur : ptr) (r : Z) : res ptr :=
  match fuel with
  | O => OutOfFuel
  | S fuel =>
      nd ← deref h cur;
      c ← getIdx (Child nd) r;
      match c with
      | Some _ => descend fuel h c r
      | None => Ret cur
      end
  end.

(** [for cur.which() == d { cur = cur.Parent }] *)
Fixpoint climb (fuel : nat) (h : heap) (cur : ptr) (d : Z) : res ptr :=
  match fuel with
  | O => OutOfFuel
  | S fuel =>
      w ← which h cur;
      if w =? d then
        nd ← deref h cur;
        climb fuel h (Parent nd) d
      else Ret cur
  end.

(** [next] returns the next tree node in the given direction. *)
Definition next (h : heap) (n : ptr) (d : Z) : res ptr :=
  let r := opposite d in
  nd ← deref h n;
  c ← getIdx (Child nd) d;
  match c with
  | Some _ => descend (fuelOf h) h c r
  | None =>
      cur ← climb (fuelOf h) h n d;
      cn ← deref h cur;
      if IsSentinel h (Parent cn) then Ret None else Ret (Parent cn)
  end.

(** [Next] returns the next node, [Prev] the previous node. *)
Definition Next (h : heap) (n : ptr) : res ptr := next h n hi.
Definition Prev (h : heap) (n : ptr) : res ptr := next h n lo.

(** [n.Parent.Child[n.which()] = c] *)
Definition relink (h : heap) (n : ptr) (c : ptr) : res heap :=
  nd ← deref h n;
  w ← which h n;
  match Parent nd with
  | None => Panic
  | Some pa =>
      p ← load h pa;
      ch ← setIdx (Child p) w c;
      Ret (<[pa := setChild p ch]> h)
  end.

(** [Delete] removes a node from the tree. *)
Fixpoint Delete_ (fuel : nat) (h : heap) (n : ptr) : res heap :=
  match fuel with
  | O => OutOfFuel
  | S fuel =>
      if IsSentinel h n then Ret h
      else
        match n with
        | None => Ret h
        | Some a =>
            nd ← load h a;
            match (Child nd).2, (Child nd).1 with
            | None, _ => relink h n (Child nd).1
            | Some _, None => relink h n (Child nd).2
            | Some _, Some _ =>
                cur ← descend fuel h (Child nd).2 lo;
                cn ← deref h cur;
                Delete_ fuel (<[a := setKeyValue nd (Key cn) (Value cn)]> h) cur
            end
        end
  end.
Definition Delete (h : heap) (n : ptr) : res heap := Delete_ (fuelOf h) h n.

(** A fresh tree, and a run of [Insert] calls on the tree held by the
    sentinel [s]. *)
Definition fresh : heap * addr := NewBasic [].

Fixpoint Inserts (h : heap) (s : addr) (kvs : list (K * V)) : res heap :=
  match kvs with
  | [] => Ret h
  | kv :: kvs => h' ← Insert h (Some s) kv.1 kv.2; Inserts h' s kvs
  end.

Definition build (kvs : list (K * V)) : res (heap * addr) :=
  h ← Inserts fresh.1 fresh.2 kvs; Ret (h, fresh.2).

End BST.

Arguments BasicBST : clear implicits.
Abbreviation heap K V := (list (BasicBST K V)).
Arguments IsSentinel {K V} h n : simpl never.
Arguments load {K V} h a : simpl never.

(** * The tree that a heap holds *)

(** The shape below a pointer is described by a pure tree whose nodes
    carry their address; [tinsert], [tget] follow [Insert] and [Get] on
    that description. *)

Section Model.
Context {K V : Type} `{KeyType K}.

Inductive tree : Type :=
| Leaf
| Node (l : tree) (a : addr) (k : K) (v : V) (r : tree).

Fixpoint addrs (t : tree) : list addr :=
  match t with
  | Leaf => []
  | Node l a _ _ r => addrs l ++ a :: addrs r
  end.

Fixpoint keys (t : tree) : list K :=
  match t with
  | Leaf => []
  | Node l _ k _ r => keys l ++ k :: keys r
  end.

Fixpoint height (t : tree) : nat :=
  match t with
  | Leaf => 0
  | Node l _ _ _ r => S (height l `max` height r)
  end.

Definition root (t : tree) : ptr :=
  match t with
  | Leaf => None
  | Node _ a _ _ _ => Some a
  end.

Fixpoint tinsert (t : tree) (k : K) (v : V) (new : addr) : tree :=
  match t with
  | Leaf => Node Leaf new k v Leaf
  | Node l a x w r =>
      if Less k x then Node (tinsert l k v new) a x w r
      else if Less x k then Node l a x w (tinsert r k v new)
      else Node l a x v r
  end.

Fixpoint tget (t : tree) (k : K) : option (addr * V) :=
  match t with
  | Leaf => None
  | Node l a x w r =>
      if Less k x then tget l k
      else if Less x k then tget r k
      else Some (a, w)
  end.

(** [repr h par p t]: the pointer [p] leads to the tree [t] in [h], whose
    root has parent pointer [par]. *)
Fixpoint repr (h : heap K V) (par : addr) (p : ptr) (t : tree) : Prop :=
  match t with
  | Leaf => p = None
  | Node l a k v r =>
      p = Some a ∧
      ∃ nd, h !! a = Some nd ∧ Key nd = Some k ∧ Value nd = Some v ∧
            Parent nd = Some par ∧
            repr h a (Child nd).1 l ∧ repr h a (Child nd).2 r
  end.

(** [wf h s t]: [s] is a sentinel of [h] with an unset key and an empty
    [hi] slot, whose [lo] slot holds [t], every node of which sits at an
    address of its own.  (The last conjunct follows from the others; it is
    kept at hand for the fuel bounds.) *)
Definition wf (h : heap K V) (s : addr) (t : tree) : Prop :=
  ∃ sn, h !! s = Some sn ∧ Parent sn = Some s ∧ Key sn = None ∧
        (Child sn).2 = None ∧
        repr h s (Child sn).1 t ∧ NoDup (s :: addrs t) ∧
        length (addrs t) < length h.

Lemma repr_root (h : heap K V) par p t : repr h par p t → p = root t.
Proof. destruct t; simpl; [done | by intros [-> _]]. Qed.

Lemma repr_lt (h : heap K V) par p t a : repr h par p t → a ∈ addrs t → a < length h.
Proof.
  revert par p. induction t as [|l IHl b k v r IHr]; simpl; intros par p.
  - intros _ []%elem_of_nil.
  - intros (-> & nd & Hb & _ & _ & _ & Hl & Hr).
    rewrite elem_of_app, elem_of_cons. intros [?|[->|?]]; eauto.
    by eapply lookup_lt_Some.
Qed.

Lemma repr_frame (h h' : heap K V) par p t :
  (∀ a, a ∈ addrs t → h' !! a = h !! a) → repr h par p t → repr h' par p t.
Proof.
  revert par p. induction t as [|l IHl b k v r IHr]; simpl; intros par p Hfr; [done|].
  intros (-> & nd & Hb & Hk & Hv & Hp & Hl & Hr). split; [done|].
  exists nd. rewrite Hfr by set_solver. repeat split; try done.
  - apply IHl; [|done]. intros; apply Hfr; set_solver.
  - apply IHr; [|done]. intros; apply Hfr; set_solver.
Qed.

Lemma height_le_size t : height t ≤ length (addrs t).
Proof.
  induction t as [|l IHl b k v r IHr]; simpl; [done|].
  rewrite length_app; simpl. lia.
Qed.

Lemma NoDup_node par l a r :
  NoDup (par :: addrs l ++ a :: addrs r) →
  NoDup (a :: addrs l) ∧ NoDup (a :: addrs r) ∧ par ≠ a ∧
  (∀ x, x ∈ addrs l → x ∉ addrs r).
Proof.
  intros Hnd. rewrite NoDup_cons, NoDup_app, NoDup_cons in Hnd.
  destruct Hnd as (Hpar & Hl & Hd & Ha & Hr). split; [|split; [|split]].
  - apply NoDup_cons; split; [|done]. intros ?. eapply Hd; [done|]. by left.
  - by apply NoDup_cons_2.
  - intros ->. apply Hpar. rewrite elem_of_app, elem_of_cons. auto.
  - intros x Hx ?. eapply Hd; [done|]. by right.
Qed.

Lemma not_sentinel (h : heap K V) par a nd :
  h !! a = Some nd → Parent nd = Some par → par ≠ a → IsSentinel h (Some a) = false.
Proof.
  intros Ha Hp Hne. unfold IsSentinel. rewrite Ha, Hp.
  apply bool_decide_eq_false. congruence.
Qed.

Lemma is_sentinel (h : heap K V) s sn :
  h !! s = Some sn → Parent sn = Some s → IsSentinel h (Some s) = true.
Proof.
  intros Hs Hp. unfold IsSentinel. rewrite Hs, Hp. by apply bool_decide_eq_true.
Qed.

Lemma bind_Ret {A B : Type} (a : A) (f : A → res B) : (Ret a ≫= f) = f a.
Proof. reflexivity. Qed.

Lemma load_Some (h : heap K V) a nd : h !! a = Some nd → load h a = Ret nd.
Proof. intros Ha. unfold load. by rewrite Ha. Qed.

(** ** [Get] follows [tget] *)

Lemma Get_repr t k : ∀ fuel (h : heap K V) par p,
  repr h par p t → NoDup (par :: addrs t) → height t < fuel →
  Get_ fuel h p k = Ret (fst <$> tget t k).
Proof.
  induction t as [|l IHl a x w r IHr]; intros fuel h par p Hrep Hnd Hfuel;
    (destruct fuel as [|fuel]; [lia|]); simpl in *.
  - by subst.
  - destruct Hrep as (-> & nd & Ha & Hk & Hv & Hp & Hl & Hr).
    apply NoDup_node in Hnd as (Hndl & Hndr & Hne & _).
    unfold load at 1. rewrite Ha. simpl.
    erewrite not_sentinel by done. rewrite Hk. simpl.
    destruct (Less k x); simpl.
    + eapply IHl; eauto; lia.
    + destruct (Less x k); simpl; [|done]. eapply IHr; eauto; lia.
Qed.

Lemma Get_wf (h : heap K V) s t k :
  wf h s t → Get h (Some s) k = Ret (fst <$> tget t k).
Proof.
  intros (sn & Hs & Hp & _ & Hhi & Hrep & Hnd & Hlen).
  unfold Get, fuelOf. simpl. unfold load at 1. rewrite Hs. simpl.
  erewrite is_sentinel by done. simpl.
  eapply Get_repr; eauto. pose proof (height_le_size t). lia.
Qed.

(** ** [Insert] follows [tinsert] *)

Lemma lookup_alloc_old (h : heap K V) a n m x :
  x < length h → x ≠ a → (<[a := n]> h ++ [m]) !! x = h !! x.
Proof.
  intros Hx Hne. rewrite lookup_app_l by (by rewrite length_insert).
  by apply list_lookup_insert_ne.
Qed.

Lemma lookup_alloc_upd (h : heap K V) a n m :
  a < length h → (<[a := n]> h ++ [m]) !! a = Some n.
Proof.
  intros Ha. rewrite lookup_app_l by (by rewrite length_insert).
  by apply list_lookup_insert_eq.
Qed.

Lemma lookup_alloc_new (h : heap K V) a n m :
  (<[a := n]> h ++ [m]) !! length h = Some m.
Proof.
  rewrite lookup_app_r by (by rewrite length_insert).
  by rewrite length_insert, Nat.sub_diag.
Qed.

Lemma Insert_repr t k v : ∀ fuel (h : heap K V) par a,
  repr h par (Some a) t → NoDup (par :: addrs t) → height t ≤ fuel →
  ∃ h', Insert_ fuel h (Some a) k v = Ret h' ∧
        repr h' par (Some a) (tinsert t k v (length h)) ∧
        (∀ x, x ∉ addrs t → x < length h → h' !! x = h !! x) ∧
        length h' = (if tget t k is Some _ then length h else S (length h)).
Proof.
  induction t as [|l IHl b x w r IHr]; intros fuel h par a Hrep Hnd Hfuel;
    [done|]; (destruct fuel as [|fuel]; [simpl in Hfuel; lia|]).
  simpl in Hrep, Hnd, Hfuel. destruct Hrep as (Heq & nd & Ha & Hk & Hv & Hp & Hl & Hr).
  symmetry in Heq; simplify_eq.
  pose proof (lookup_lt_Some _ _ _ Ha) as Halt.
  apply NoDup_node in Hnd as (Hndl & Hndr & Hne & Hdisj).
  apply NoDup_cons in Hndl as Hal. destruct Hal as [Hal _].
  apply NoDup_cons in Hndr as Har. destruct Har as [Har _].
  simpl. unfold load at 1. rewrite Ha. simpl.
  erewrite not_sentinel by done. rewrite Hk. simpl.
  destruct (Less k x) eqn:Hkx; simpl.
  - destruct l as [|ll la lx lw lr].
    + simpl in Hl. rewrite Hl. eexists. split; [done|]. simpl. split; [|split].
      * split; [done|]. eexists. rewrite lookup_alloc_upd by done. simpl.
        do 4 (split; [done|]). split.
        -- split; [done|]. eexists. rewrite lookup_alloc_new. by simpl.
        -- eapply repr_frame; [|done]. intros y Hy. apply lookup_alloc_old.
           ++ eapply (repr_lt _ _ _ r); [exact Hr|done].
           ++ intros ->. done.
      * intros y Hy Hylt. apply lookup_alloc_old; [done|].
        intros ->. apply Hy. by left.
      * by rewrite length_app, length_insert; simpl; lia.
    + pose proof Hl as Hl0. simpl in Hl. destruct Hl as (Hc & _). rewrite Hc.
      rewrite Hc in Hl0.
      destruct (IHl fuel h a la Hl0 Hndl) as (h' & Hins & Hrep' & Hfr & Hlen); [lia|].
      exists h'. split; [done|]. simpl. split; [|split; [|done]].
      * split; [done|]. exists nd. rewrite Hfr by done.
        do 4 (split; [done|]). rewrite Hc. split; [done|].
        eapply repr_frame; [|done]. intros y Hy. apply Hfr.
        -- intros ?. by eapply Hdisj.
        -- eapply (repr_lt _ _ _ r); [exact Hr|done].
      * intros y Hy Hylt. apply Hfr; [|done]. intros ?. apply Hy.
        apply elem_of_app. by left.
  - destruct (Less x k) eqn:Hxk; simpl.
    + destruct r as [|rl ra rx rw rr].
      * simpl in Hr. rewrite Hr. eexists. split; [done|]. simpl. split; [|split].
        -- split; [done|]. eexists. rewrite lookup_alloc_upd by done. simpl.
           do 4 (split; [done|]). split.
           ++ eapply repr_frame; [|done]. intros y Hy. apply lookup_alloc_old.
              ** eapply (repr_lt _ _ _ l); [exact Hl|done].
              ** intros ->. done.
           ++ split; [done|]. eexists. rewrite lookup_alloc_new. by simpl.
        -- intros y Hy Hylt. apply lookup_alloc_old; [done|].
           intros ->. apply Hy. apply elem_of_app. right. by left.
        -- by rewrite length_app, length_insert; simpl; lia.
      * pose proof Hr as Hr0. simpl in Hr. destruct Hr as (Hc & _). rewrite Hc.
        rewrite Hc in Hr0.
        destruct (IHr fuel h a ra Hr0 Hndr) as (h' & Hins & Hrep' & Hfr & Hlen); [lia|].
        exists h'. split; [done|]. simpl. split; [|split; [|done]].
        -- split; [done|]. exists nd. rewrite Hfr by done.
           do 4 (split; [done|]). rewrite Hc. split; [|done].
           eapply repr_frame; [|done]. intros y Hy. apply Hfr.
           ++ intros ?. by eapply Hdisj.
           ++ eapply (repr_lt _ _ _ l); [exact Hl|done].
        -- intros y Hy Hylt. apply Hfr; [|done]. intros ?. apply Hy.
           apply elem_of_app. right. by right.
    + eexists. split; [done|]. simpl. split; [|split].
      * split; [done|]. eexists. rewrite list_lookup_insert_eq by done. simpl.
        do 4 (split; [done|]). split.
        -- eapply repr_frame; [|done]. intros y Hy.
           apply list_lookup_insert_ne. intros ->. done.
        -- eapply repr_frame; [|done]. intros y Hy.
           apply list_lookup_insert_ne. intros ->. done.
      * intros y Hy Hylt. apply list_lookup_insert_ne.
        intros ->. apply Hy. apply elem_of_app. right. by left.
      * by rewrite length_insert.
Qed.

Lemma addrs_tinsert t k v new :
  addrs (tinsert t k v new) ≡ₚ
    if tget t k is Some _ then addrs t else new :: addrs t.
Proof.
  induction t as [|l IHl a x w r IHr]; simpl; [done|].
  destruct (Less k x); simpl.
  - rewrite IHl. by destruct (tget l k).
  - destruct (Less x k); simpl; [|done].
    rewrite IHr. destruct (tget r k); [done|].
    rewrite <-!Permutation_middle. apply perm_swap.
Qed.

Lemma Insert_wf (h : heap K V) s t k v :
  wf h s t →
  ∃ h', Insert h (Some s) k v = Ret h' ∧ wf h' s (tinsert t k v (length h)) ∧
        length h' = (if tget t k is Some _ then length h else S (length h)).
Proof.
  intros (sn & Hs & Hp & Hkey & Hhi & Hrep & Hnd & Hlen).
  pose proof (lookup_lt_Some _ _ _ Hs) as Hslt.
  assert (Hfresh : length h ∉ s :: addrs t).
  { rewrite elem_of_cons. intros [?|Hin]; [lia|].
    apply (repr_lt _ _ _ _ _ Hrep) in Hin. lia. }
  assert (Hnd' : NoDup (s :: addrs (tinsert t k v (length h)))).
  { destruct (tget t k) eqn:Hget.
    - eapply NoDup_Permutation_proper; [|exact Hnd].
      constructor. rewrite addrs_tinsert. by rewrite Hget.
    - eapply NoDup_Permutation_proper; [|apply NoDup_cons_2; [exact Hfresh|exact Hnd]].
      rewrite addrs_tinsert, Hget. apply perm_swap. }
  unfold Insert, fuelOf. simpl. unfold load at 1. rewrite Hs. simpl.
  erewrite is_sentinel by done. simpl.
  destruct t as [|l a x w r].
  - simpl in Hrep. rewrite Hrep. eexists. split; [done|]. split.
    + eexists. rewrite lookup_alloc_upd by done. simpl.
      do 4 (split; [done|]). split; [|split; [done|]].
      * split; [done|]. eexists. rewrite lookup_alloc_new. by simpl.
      * rewrite length_app, length_insert; simpl; lia.
    + rewrite length_app, length_insert; simpl; lia.
  - pose proof Hrep as Hrep0. simpl in Hrep. destruct Hrep as (Hc & _).
    rewrite Hc in Hrep0 |- *.
    destruct (Insert_repr _ k v (length h) h s a Hrep0 Hnd) as (h' & Hins & Hrep' & Hfr & Hl).
    { pose proof (height_le_size (Node l a x w r)). lia. }
    exists h'. split; [done|]. split.
    + exists sn. rewrite Hfr; [|by apply NoDup_cons in Hnd as [? _]|done].
      do 4 (split; [done|]). rewrite Hc. split; [done|]. split; [done|].
      rewrite addrs_tinsert, Hl. destruct (tget _ k); cbn [length]; lia.
    + done.
Qed.

Lemma wf_fresh : wf (fresh (K:=K) (V:=V)).1 (fresh (K:=K) (V:=V)).2 Leaf.
Proof.
  eexists. simpl. split; [done|]. simpl. repeat split; try done.
  - apply NoDup_singleton.
  - lia.
Qed.

(** The tree held after a run of [Insert] calls; [n] is the length of the
    heap, that is the next address to be allocated. *)
Fixpoint tinserts (t : tree) (n : nat) (kvs : list (K * V)) : tree :=
  match kvs with
  | [] => t
  | kv :: kvs =>
      tinserts (tinsert t kv.1 kv.2 n)
               (if tget t kv.1 is Some _ then n else S n) kvs
  end.

Lemma Inserts_wf kvs : ∀ (h : heap K V) s t,
  wf h s t →
  ∃ h', Inserts h s kvs = Ret h' ∧ wf h' s (tinserts t (length h) kvs).
Proof.
  induction kvs as [|[k v] kvs IH]; intros h s t Hwf; simpl.
  - by exists h.
  - destruct (Insert_wf h s t k v Hwf) as (h1 & -> & Hwf1 & Hlen). simpl.
    rewrite <-Hlen. by apply IH.
Qed.

Lemma build_wf kvs :
  ∃ (h : heap K V) s, build kvs = Ret (h, s) ∧ wf h s (tinserts Leaf 1 kvs).
Proof.
  destruct (Inserts_wf kvs _ _ _ wf_fresh) as (h & Hh & Hwf).
  exists h, 0. unfold build. by rewrite Hh.
Qed.

(** ** [Visit] walks the addresses in order *)

Fixpoint visitAll {S : Type} (f : addr → S → res (S * option error))
    (l : list addr) (st : S) : res (S * option error) :=
  match l with
  | [] => Ret (st, None)
  | a :: l =>
      r ← f a st;
      match r.2 with
      | Some _ => Ret r
      | None => visitAll f l r.1
      end
  end.

Lemma visitAll_app {S : Type} (f : addr → S → res (S * option error)) l1 l2 st :
  visitAll f (l1 ++ l2) st =
    r ← visitAll f l1 st;
    match r.2 with
    | Some _ => Ret r
    | None => visitAll f l2 r.1
    end.
Proof.
  revert st. induction l1 as [|a l1 IH]; intros st; simpl; [done|].
  destruct (f a st) as [[st1 [e|]]| |]; simpl; [done| |done|done]. apply IH.
Qed.

Lemma Visit_repr {S : Type} (f : addr → S → res (S * option error)) t :
  ∀ fuel (h : heap K V) par p st,
  repr h par p t → NoDup (par :: addrs t) → height t < fuel →
  Visit_ fuel h p f st = visitAll f (addrs t) st.
Proof.
  induction t as [|l IHl a x w r IHr]; intros fuel h par p st Hrep Hnd Hfuel;
    (destruct fuel as [|fuel]; [lia|]); simpl in *.
  - by subst.
  - destruct Hrep as (-> & nd & Ha & Hk & Hv & Hp & Hl & Hr).
    apply NoDup_node in Hnd as (Hndl & Hndr & Hne & _).
    unfold load at 1. rewrite Ha. simpl.
    erewrite not_sentinel by done.
    rewrite visitAll_app. simpl.
    assert (Hlo : match (Child nd).1 with
                  | Some _ => Visit_ fuel h (Child nd).1 f st
                  | None => Ret (st, None)
                  end = visitAll f (addrs l) st).
    { destruct l; simpl in Hl.
      - by rewrite Hl.
      - destruct Hl as [Hc Hl']. rewrite Hc, <-Hc.
        eapply IHl; [by split|done|lia]. }
    rewrite Hlo.
    destruct (visitAll f (addrs l) st) as [[st1 [e|]]| |]; simpl; try done.
    destruct (f a st1) as [[st2 [e|]]| |]; simpl; try done.
    destruct r; simpl in Hr.
    + by rewrite Hr.
    + destruct Hr as [Hc Hr']. rewrite Hc, <-Hc.
      eapply IHr; [by split|done|lia].
Qed.

Lemma Visit_wf {S : Type} (f : addr → S → res (S * option error))
    (h : heap K V) s t st :
  wf h s t → Visit h (Some s) f st = visitAll f (addrs t) st.
Proof.
  intros (sn & Hs & Hp & _ & Hhi & Hrep & Hnd & Hlen).
  unfold Visit, fuelOf. simpl. unfold load at 1. rewrite Hs. simpl.
  erewrite is_sentinel by done.
  eapply Visit_repr; eauto. pose proof (height_le_size t). lia.
Qed.

(** The nodes of a represented tree, with their keys and values. *)
Lemma repr_nodes (h : heap K V) par p t :
  repr h par p t →
  Forall2 (λ a k, ∃ nd, h !! a = Some nd ∧ Key nd = Some k) (addrs t) (keys t).
Proof.
  revert par p. induction t as [|l IHl a x w r IHr]; intros par p; simpl.
  - constructor.
  - intros (-> & nd & Ha & Hk & Hv & Hp & Hl & Hr).
    apply Forall2_app; [by eapply IHl|]. constructor; [by eauto|by eapply IHr].
Qed.

Lemma visitAll_keys (h : heap K V) l ks c :
  Forall2 (λ a k, ∃ nd, h !! a = Some nd ∧ Key nd = Some k) l ks →
  visitAll (λ a c, nd ← load h a; Ret (selectSend (λ _, false) c (Key nd))) l c
  = Ret (c ++ (Some <$> ks), None).
Proof.
  intros Hall. revert c. induction Hall as [|a k l ks (nd & Ha & Hk) _ IH]; intros c; simpl.
  - by rewrite app_nil_r.
  - unfold load. rewrite Ha. simpl. rewrite IH, Hk. by rewrite <-app_assoc.
Qed.

Lemma Keys_wf (h : heap K V) s t :
  wf h s t → Keys h (Some s) (λ _, false) = Ret (Some <$> keys t).
Proof.
  intros Hwf. unfold Keys. rewrite (Visit_wf _ _ _ _ _ Hwf).
  destruct Hwf as (sn & Hs & Hp & _ & Hhi & Hrep & Hnd & Hlen).
  by erewrite visitAll_keys by (by eapply repr_nodes).
Qed.

(** When the [select] reached after [i] hand-offs takes the [ctx.Done()]
    branch, the traversal stops there: the stream is the first [i] keys. *)
Lemma visitAll_keys_cancel (h : heap K V) done i xs ks c :
  Forall2 (λ a k, ∃ nd, h !! a = Some nd ∧ Key nd = Some k) xs ks →
  (∀ j, j < i → done j = false) → done i = true → length c ≤ i →
  i < length c + length ks →
  visitAll (λ a c, nd ← load h a; Ret (selectSend done c (Key nd))) xs c
  = Ret (c ++ (Some <$> take (i - length c) ks), Some Canceled).
Proof.
  intros Hall Hbefore Hat. revert c.
  induction Hall as [|a k xs ks (nd & Ha & Hk) _ IH]; intros c Hle Hlt; simpl in *.
  - lia.
  - rewrite (load_Some _ _ _ Ha), bind_Ret, Hk. unfold selectSend.
    destruct (decide (length c = i)) as [->|Hne].
    + rewrite Hat. simpl. rewrite Nat.sub_diag. simpl. by rewrite app_nil_r.
    + rewrite Hbefore by lia. simpl.
      rewrite IH by (rewrite length_app; simpl; lia).
      rewrite length_app. simpl.
      replace (i - length c) with (S (i - (length c + 1))) by lia.
      simpl. by rewrite <-app_assoc.
Qed.

Lemma Keys_cancel (h : heap K V) s t done i :
  wf h s t → (∀ j, j < i → done j = false) → done i = true →
  i < length (keys t) →
  Keys h (Some s) done = Ret (Some <$> take i (keys t)).
Proof.
  intros Hwf Hbefore Hat Hlt. unfold Keys. rewrite (Visit_wf _ _ _ _ _ Hwf).
  destruct Hwf as (sn & Hs & Hp & _ & Hhi & Hrep & Hnd & Hlen).
  erewrite visitAll_keys_cancel; eauto using repr_nodes; simpl; [|lia..].
  by rewrite Nat.sub_0_r.
Qed.

End Model.

(** * Search-tree facts on the tree description *)

Section Ordered.
Context {K V : Type} `{StrictOrderKey K}.
Implicit Types t l r : tree (K:=K) (V:=V).

Definition lt (a b : K) : Prop := Less a b = true.

Fixpoint bst (t : tree (K:=K) (V:=V)) : Prop :=
  match t with
  | Leaf => True
  | Node l _ k _ r =>
      bst l ∧ bst r ∧ (∀ x, x ∈ keys l → lt x k) ∧ (∀ x, x ∈ keys r → lt k x)
  end.

Lemma addrs_keys_length t : length (addrs t) = length (keys t).
Proof.
  induction t as [|l IHl a x w r IHr]; simpl; [done|].
  rewrite !length_app. simpl. lia.
Qed.

(** What [tget] finds sits at some position of the in-order walk and
    carries the key that was asked for. *)
Lemma tget_Some t k a v :
  tget t k = Some (a, v) →
  ∃ i, addrs t !! i = Some a ∧ keys t !! i = Some k.
Proof.
  induction t as [|l IHl b x w r IHr]; simpl; [done|].
  pose proof (addrs_keys_length l) as Hlen.
  destruct (Less k x) eqn:Hkx.
  - intros (i & Hi & Hi')%IHl. exists i.
    split; by apply lookup_app_l_Some.
  - destruct (Less x k) eqn:Hxk.
    + intros (i & Hi & Hi')%IHr. exists (length (addrs l) + S i). split.
      * rewrite lookup_app_r by lia.
        by replace (length (addrs l) + S i - length (addrs l)) with (S i) by lia.
      * rewrite lookup_app_r by lia.
        by replace (length (addrs l) + S i - length (keys l)) with (S i) by lia.
    + intros [= <- <-]. exists (length (addrs l)). split.
      * by rewrite lookup_app_r, Nat.sub_diag by lia.
      * rewrite lookup_app_r by lia.
        replace (length (addrs l) - length (keys l)) with 0 by lia.
        simpl. f_equal. symmetry. by apply Less_connex.
Qed.

Lemma tget_Some_key t k a v : tget t k = Some (a, v) → k ∈ keys t.
Proof.
  intros (i & _ & Hi)%tget_Some. by eapply list_elem_of_lookup_2.
Qed.

Lemma keys_tinsert t k v new :
  keys (tinsert t k v new) ≡ₚ
    if tget t k is Some _ then keys t else k :: keys t.
Proof.
  induction t as [|l IHl a x w r IHr]; simpl; [done|].
  destruct (Less k x); simpl.
  - rewrite IHl. by destruct (tget l k).
  - destruct (Less x k); simpl; [|done].
    rewrite IHr. destruct (tget r k); [done|].
    rewrite <-!Permutation_middle. apply perm_swap.
Qed.

Lemma elem_of_keys_tinsert t k v new x :
  x ∈ keys (tinsert t k v new) ↔ x = k ∨ x ∈ keys t.
Proof.
  rewrite keys_tinsert. destruct (tget t k) as [[a w]|] eqn:Hget.
  - apply tget_Some_key in Hget. split; [by right|]. by intros [->|?].
  - apply elem_of_cons.
Qed.

Lemma bst_tinsert t k v new : bst t → bst (tinsert t k v new).
Proof.
  induction t as [|l IHl a x w r IHr]; simpl.
  - intros _. repeat split; by intros ? ?%elem_of_nil.
  - intros (Hl & Hr & Hlt & Hgt).
    destruct (Less k x) eqn:Hkx; simpl.
    + repeat split; auto.
      intros y [->|?]%elem_of_keys_tinsert; [done|by apply Hlt].
    + destruct (Less x k) eqn:Hxk; simpl; [|done].
      repeat split; auto.
      intros y [->|?]%elem_of_keys_tinsert; [done|by apply Hgt].
Qed.

Lemma tget_tinsert_eq t k v new :
  ∃ a, tget (tinsert t k v new) k = Some (a, v).
Proof.
  induction t as [|l IHl a x w r IHr]; simpl.
  - rewrite Less_irrefl. by eexists.
  - destruct (Less k x) eqn:Hkx; simpl; [by rewrite Hkx|].
    destruct (Less x k) eqn:Hxk; simpl; rewrite Hkx, Hxk; [done|]. by eexists.
Qed.

Lemma tget_tinsert_ne t k v new k' :
  k' ≠ k → tget (tinsert t k v new) k' = tget t k'.
Proof.
  intros Hne. induction t as [|l IHl a x w r IHr]; simpl.
  - destruct (Less k' k) eqn:E1; [done|].
    destruct (Less k k') eqn:E2; [done|].
    destruct Hne. by apply Less_connex.
  - destruct (Less k x) eqn:Hkx; simpl.
    + by destruct (Less k' x), (Less x k').
    + destruct (Less x k) eqn:Hxk; simpl.
      * by destruct (Less k' x), (Less x k').
      * destruct (Less k' x) eqn:E1; [done|].
        destruct (Less x k') eqn:E2; [done|].
        destruct Hne. transitivity x; [|symmetry]; by apply Less_connex.
Qed.

Lemma tinserts_app t n kvs1 kvs2 :
  ∃ t1 n1, tinserts t n (kvs1 ++ kvs2) = tinserts t1 n1 kvs2 ∧
           t1 = tinserts t n kvs1.
Proof.
  revert t n. induction kvs1 as [|[k v] kvs1 IH]; intros t n; simpl.
  - by exists t, n.
  - apply IH.
Qed.

Lemma tget_tinserts_notin t n kvs k :
  k ∉ kvs.*1 → tget (tinserts t n kvs) k = tget t k.
Proof.
  revert t n. induction kvs as [|[k' v'] kvs IH]; intros t n; simpl; [done|].
  rewrite not_elem_of_cons. intros [Hne Hnotin].
  rewrite IH by done. by apply tget_tinsert_ne.
Qed.

Lemma bst_tinserts t n kvs : bst t → bst (tinserts t n kvs).
Proof.
  revert t n. induction kvs as [|[k v] kvs IH]; intros t n Hbst; simpl; [done|].
  by apply IH, bst_tinsert.
Qed.

Lemma elem_of_keys_tinserts t n kvs x :
  x ∈ keys (tinserts t n kvs) ↔ x ∈ keys t ∨ x ∈ kvs.*1.
Proof.
  revert t n. induction kvs as [|[k v] kvs IH]; intros t n; simpl.
  - rewrite elem_of_nil. tauto.
  - rewrite IH, elem_of_keys_tinsert, elem_of_cons. tauto.
Qed.

(** The in-order walk of a search tree is strictly increasing. *)
Lemma bst_sorted t : bst t → StronglySorted lt (keys t).
Proof.
  induction t as [|l IHl a x w r IHr]; simpl; [constructor|].
  intros (Hl & Hr & Hlt & Hgt).
  apply StronglySorted_app_2; [|by auto|].
  - intros x1 x2 Hx1 [->|Hx2]%elem_of_cons; [by apply Hlt|].
    eapply Less_trans; [by apply Hlt|by apply Hgt].
  - constructor; [by auto|]. by apply Forall_forall.
Qed.

Lemma sorted_NoDup (l : list K) : StronglySorted lt l → NoDup l.
Proof.
  induction 1 as [|x l _ IH Hx]; constructor; [|done].
  intros Hin. rewrite Forall_forall in Hx. specialize (Hx _ Hin).
  unfold lt in Hx. by rewrite Less_irrefl in Hx.
Qed.

End Ordered.

(** * Navigation by parent links *)

Section Navigation.
Context {K V : Type} `{KeyType K}.
Implicit Types t l r : tree (K:=K) (V:=V).
Implicit Types h : heap K V.

(** Length of the [hi] spine below the root. *)
Fixpoint rdepth t : nat :=
  match t with
  | Leaf => 0
  | Node _ _ _ _ Leaf => 0
  | Node _ _ _ _ r => S (rdepth r)
  end.

Lemma rdepth_lt_height l a k v r : rdepth (Node l a k v r) < height (Node l a k v r).
Proof.
  revert l a k v. induction r as [|rl _ ra rk rv rr IH]; intros l a k v; [simpl; lia|].
  specialize (IH rl ra rk rv). change (rdepth (Node l a k v (Node rl ra rk rv rr)))
    with (S (rdepth (Node rl ra rk rv rr))).
  change (height (Node l a k v (Node rl ra rk rv rr)))
    with (S (height l `max` height (Node rl ra rk rv rr))). lia.
Qed.

Lemma root_elem_of t a : root t = Some a → a ∈ addrs t.
Proof.
  destruct t; simpl; [done|]. intros [= ->]. apply elem_of_app. right. by left.
Qed.

Lemma which_lo h nd a c nc :
  h !! a = Some nd → (Child nd).1 = Some c →
  h !! c = Some nc → Parent nc = Some a →
  which h (Some c) = Ret lo.
Proof.
  intros Ha Hc Hnc Hp. unfold which. simpl. unfold load. rewrite Hnc. simpl.
  rewrite Hp. simpl. unfold load. rewrite Ha. simpl.
  by rewrite bool_decide_eq_true_2.
Qed.

Lemma which_hi h nd a c nc :
  h !! a = Some nd → (Child nd).1 ≠ Some c → (Child nd).2 = Some c →
  h !! c = Some nc → Parent nc = Some a →
  which h (Some c) = Ret hi.
Proof.
  intros Ha Hne Hc Hnc Hp. unfold which. simpl. unfold load. rewrite Hnc. simpl.
  rewrite Hp. simpl. unfold load. rewrite Ha. simpl.
  rewrite bool_decide_eq_false_2 by done.
  by rewrite bool_decide_eq_true_2.
Qed.

(** The [lo]-ward descent ends on the first node of the in-order walk. *)
Lemma descend_lo t : ∀ fuel h par a,
  repr h par (Some a) t → height t ≤ fuel →
  descend fuel h (Some a) lo = Ret (addrs t !! 0).
Proof.
  induction t as [|l IHl b x w r _]; intros fuel h par a Hrep Hfuel; [done|].
  destruct fuel as [|fuel]; [simpl in Hfuel; lia|].
  simpl in Hrep, Hfuel. destruct Hrep as (Heq & nd & Ha & Hk & Hv & Hp & Hl & Hr).
  symmetry in Heq; simplify_eq.
  simpl. unfold load. rewrite Ha. simpl.
  destruct l as [|ll la lx lw lr].
  - simpl in Hl. by rewrite Hl.
  - pose proof Hl as Hl0. simpl in Hl. destruct Hl as (Hc & _).
    rewrite Hc in Hl0 |- *.
    erewrite IHl; [|done|lia]. f_equal.
    simpl. destruct (addrs ll); done.
Qed.

(** From the last node of the in-order walk of a subtree, the climb along
    [hi] links comes back to the root of the subtree. *)
Lemma climb_last t : ∀ h par a,
  repr h par (Some a) t → NoDup (par :: addrs t) →
  ∃ b nb, last (addrs t) = Some b ∧ h !! b = Some nb ∧ (Child nb).2 = None ∧
          ∀ fuel, climb (rdepth t + fuel) h (Some b) hi = climb fuel h (Some a) hi.
Proof.
  induction t as [|l _ c x w r IHr]; intros h par a Hrep Hnd; [done|].
  simpl in Hrep, Hnd. destruct Hrep as (Heq & nd & Ha & Hk & Hv & Hp & Hl & Hr).
  symmetry in Heq; simplify_eq.
  apply NoDup_node in Hnd as (Hndl & Hndr & Hne & Hdisj).
  destruct r as [|rl ra rx rw rr].
  - simpl in Hr. exists a, nd. simpl. by rewrite last_snoc.
  - pose proof Hr as Hr0. simpl in Hr.
    destruct Hr as (Hc & nr & Hra & _ & _ & Hpr & _). rewrite Hc in Hr0.
    destruct (IHr h a ra Hr0 Hndr) as (b & nb & Hlast & Hb & Hbhi & Hclimb).
    exists b, nb. split; [|split; [done|split; [done|]]].
    + change (addrs (Node l a x w (Node rl ra rx rw rr)))
        with (addrs l ++ a :: addrs (Node rl ra rx rw rr)).
      rewrite last_app, last_cons, Hlast. done.
    + intros fuel.
      change (rdepth (Node l a x w (Node rl ra rx rw rr)))
        with (S (rdepth (Node rl ra rx rw rr))).
      replace (S (rdepth (Node rl ra rx rw rr)) + fuel)
        with (rdepth (Node rl ra rx rw rr) + S fuel) by lia.
      rewrite Hclimb. simpl.
      assert (Hw : which h (Some ra) = Ret hi).
      { apply (which_hi h nd a ra nr); try done. intros Hlo. apply (Hdisj ra).
        - apply root_elem_of. rewrite <-Hlo. symmetry. by eapply repr_root.
        - apply elem_of_app. right. by left. }
      rewrite Hw. simpl. unfold load. by rewrite Hra; simpl; rewrite Hpr.
Qed.

Lemma opposite_hi : opposite hi = lo.
Proof. reflexivity. Qed.

Lemma getIdx_hi (c : ptr * ptr) : getIdx c hi = Ret c.2.
Proof. reflexivity. Qed.

Lemma getIdx_lo (c : ptr * ptr) : getIdx c lo = Ret c.1.
Proof. reflexivity. Qed.

Lemma next_eq h a nd d :
  h !! a = Some nd →
  next h (Some a) d =
    c ← getIdx (Child nd) d;
    match c with
    | Some _ => descend (fuelOf h) h c (opposite d)
    | None =>
        cur ← climb (fuelOf h) h (Some a) d;
        cn ← deref h cur;
        if IsSentinel h (Parent cn) then Ret None else Ret (Parent cn)
    end.
Proof. intros Ha. unfold next, deref. by rewrite (load_Some _ _ _ Ha). Qed.

Lemma climb_S fuel h cur d :
  climb (S fuel) h cur d =
    w ← which h cur;
    if (w =? d)%Z then nd ← deref h cur; climb fuel h (Parent nd) d
    else Ret cur.
Proof. reflexivity. Qed.

(** How [Next] reaches its result: below a [hi] child by the [lo]-ward
    descent, and without one by the climb along parent links, which stops
    on a node that is the [lo] child of its parent, the result being that
    parent unless it is the sentinel. *)
Definition NextBy h (a : addr) : Prop :=
  ∃ na, h !! a = Some na ∧
    match (Child na).2 with
    | Some c => Next h (Some a) = descend (fuelOf h) h (Some c) lo
    | None =>
        ∃ cur ncur,
          climb (fuelOf h) h (Some a) hi = Ret (Some cur) ∧
          which h (Some cur) = Ret lo ∧ h !! cur = Some ncur ∧
          Next h (Some a) =
            Ret (if IsSentinel h (Parent ncur) then None else Parent ncur)
    end.

Lemma NextBy_hi h a na c :
  h !! a = Some na → (Child na).2 = Some c → NextBy h a.
Proof.
  intros Ha Hc. exists na. split; [done|]. rewrite Hc.
  unfold Next. rewrite (next_eq h _ na) by done.
  by rewrite getIdx_hi, bind_Ret, Hc, opposite_hi.
Qed.

Lemma NextBy_climb h a na cur ncur :
  h !! a = Some na → (Child na).2 = None →
  climb (fuelOf h) h (Some a) hi = Ret (Some cur) →
  which h (Some cur) = Ret lo → h !! cur = Some ncur →
  NextBy h a ∧
  Next h (Some a) = Ret (if IsSentinel h (Parent ncur) then None else Parent ncur).
Proof.
  intros Ha Hc Hclimb Hw Hcur.
  assert (Next h (Some a) =
          Ret (if IsSentinel h (Parent ncur) then None else Parent ncur)) as HN.
  { unfold Next. rewrite (next_eq h _ na) by done.
    rewrite getIdx_hi, bind_Ret, Hc, Hclimb, bind_Ret.
    unfold deref. rewrite (load_Some _ _ _ Hcur), bind_Ret.
    by destruct (IsSentinel h (Parent ncur)). }
  split; [|done]. exists na. split; [done|]. rewrite Hc. by exists cur, ncur.
Qed.

(** [Next] on a node that is not the last of the in-order walk returns the
    node that follows it. *)
Lemma Next_succ t : ∀ h par p,
  repr h par p t → NoDup (par :: addrs t) → height t ≤ length h →
  ∀ i b c, addrs t !! i = Some b → addrs t !! S i = Some c →
  Next h (Some b) = Ret (Some c) ∧ NextBy h b.
Proof.
  induction t as [|l IHl a x w r IHr]; intros h par p Hrep Hnd Hfuel i b c Hb Hc;
    [done|].
  pose proof Hnd as Hnd0.
  simpl in Hrep, Hnd, Hfuel, Hb, Hc.
  destruct Hrep as (-> & nd & Ha & Hk & Hv & Hp & Hl & Hr).
  apply NoDup_node in Hnd as (Hndl & Hndr & Hne & Hdisj).
  destruct (decide (S i < length (addrs l))) as [Hlt|Hge];
    [|destruct (decide (S i = length (addrs l))) as [Heq|Hne'];
      [|destruct (decide (i = length (addrs l))) as [Heq|Hgt]]].
  - rewrite lookup_app_l in Hb, Hc by lia.
    eapply (IHl h a); eauto. lia.
  - (* [b] is the last node of [l], its successor is [a] *)
    rewrite lookup_app_l in Hb by lia.
    rewrite lookup_app_r, Heq, Nat.sub_diag in Hc by lia. simpl in Hc. simplify_eq.
    destruct l as [|ll la lx lw lr]; [done|].
    pose proof Hl as Hl0. simpl in Hl.
    destruct Hl as (Hcl & nl & Hla & _ & _ & Hpl & _). rewrite Hcl in Hl0.
    destruct (climb_last _ h c la Hl0 Hndl) as (b' & nb & Hlast & Hnb & Hbhi & Hclimb).
    rewrite last_lookup, <-Heq in Hlast. simpl in Hlast, Hb.
    rewrite Hb in Hlast. symmetry in Hlast. simplify_eq.
    pose proof (rdepth_lt_height ll la lx lw lr) as Hrd.
    destruct (NextBy_climb h b nb la nl) as [HBy HN]; try done.
    { replace (fuelOf h) with
        (rdepth (Node ll la lx lw lr) + S (length h - rdepth (Node ll la lx lw lr)))
        by (unfold fuelOf; lia).
      rewrite Hclimb, climb_S, (which_lo h nd c la nl), bind_Ret by done.
      by change (lo =? hi)%Z with false. }
    { by apply (which_lo h nd c la nl). }
    split; [|done]. rewrite HN, Hpl. by erewrite not_sentinel by done.
  - (* [b] is [a], its successor is the first node of [r] *)
    subst i.
    rewrite lookup_app_r, Nat.sub_diag in Hb by lia. simpl in Hb. simplify_eq.
    rewrite lookup_app_r in Hc by lia.
    replace (S (length (addrs l)) - length (addrs l)) with 1 in Hc by lia.
    simpl in Hc.
    destruct r as [|rl ra rx rw rr]; [done|].
    pose proof Hr as Hr0. simpl in Hr. destruct Hr as (Hcr & _). rewrite Hcr in Hr0.
    split; [|by eapply NextBy_hi].
    unfold Next. rewrite (next_eq h _ nd) by done.
    rewrite getIdx_hi, bind_Ret, Hcr, opposite_hi.
    erewrite descend_lo; [|done|unfold fuelOf; lia]. by rewrite Hc.
  - rewrite lookup_app_r in Hb, Hc by lia.
    replace (S i - length (addrs l)) with (S (i - length (addrs l))) in Hc by lia.
    destruct (i - length (addrs l)) as [|j] eqn:Hj; [lia|].
    simpl in Hb, Hc.
    eapply (IHr h); eauto. lia.
Qed.

Lemma Next_wf_succ h s t i b c :
  wf h s t → addrs t !! i = Some b → addrs t !! S i = Some c →
  Next h (Some b) = Ret (Some c) ∧ NextBy h b.
Proof.
  intros (sn & Hs & Hp & _ & Hhi & Hrep & Hnd & Hlen).
  eapply Next_succ; eauto. pose proof (height_le_size t). lia.
Qed.

(** [Next] on the last node of the in-order walk returns nil. *)
Lemma Next_wf_last h s t b :
  wf h s t → last (addrs t) = Some b →
  Next h (Some b) = Ret None ∧ NextBy h b.
Proof.
  intros (sn & Hs & Hp & _ & Hhi & Hrep & Hnd & Hlen) Hlast.
  destruct t as [|l a x w r]; [done|].
  pose proof Hrep as Hrep0. simpl in Hrep.
  destruct Hrep as (Hc & nd & Ha & _ & _ & Hpa & _). rewrite Hc in Hrep0.
  destruct (climb_last _ h s a Hrep0 Hnd) as (b' & nb & Hlast' & Hnb & Hbhi & Hclimb).
  rewrite Hlast in Hlast'. simplify_eq.
  pose proof (rdepth_lt_height l a x w r) as Hrd.
  pose proof (height_le_size (Node l a x w r)).
  destruct (NextBy_climb h b' nb a nd) as [HBy HN]; try done.
  { replace (fuelOf h) with
      (rdepth (Node l a x w r) + S (length h - rdepth (Node l a x w r)))
      by (unfold fuelOf; lia).
    rewrite Hclimb, climb_S, (which_lo h sn s a nd), bind_Ret by done.
    by change (lo =? hi)%Z with false. }
  { by apply (which_lo h sn s a nd). }
  split; [|done]. rewrite HN, Hpa. by erewrite is_sentinel by done.
Qed.

End Navigation.

(** * Trees built by a run of [Insert] calls *)

Section Built.
Context {K V : Type} `{StrictOrderKey K}.
Implicit Types t l r : tree (K:=K) (V:=V).
Implicit Types h : heap K V.

Lemma tget_repr h par p t k a v :
  repr h par p t → tget t k = Some (a, v) →
  ∃ nd, h !! a = Some nd ∧ Key nd = Some k ∧ Value nd = Some v.
Proof.
  revert par p. induction t as [|l IHl b x w r IHr]; intros par p; simpl; [done|].
  intros (-> & nd & Hb & Hk & Hv & Hp & Hl & Hr).
  destruct (Less k x) eqn:Hkx; [by eauto|].
  destruct (Less x k) eqn:Hxk; [by eauto|].
  intros [= <- <-]. exists nd. repeat split; try done.
  rewrite Hk. f_equal. by apply Less_connex.
Qed.

Lemma tget_tinserts_last t n kvs1 k v kvs2 :
  k ∉ kvs2.*1 →
  ∃ a, tget (tinserts t n (kvs1 ++ (k, v) :: kvs2)) k = Some (a, v).
Proof.
  intros Hnotin.
  destruct (tinserts_app t n kvs1 ((k, v) :: kvs2)) as (t1 & n1 & -> & _).
  simpl. rewrite tget_tinserts_notin by done. apply tget_tinsert_eq.
Qed.

Lemma bst_asym (a b : K) : lt a b → Less b a = false.
Proof.
  intros Hab. destruct (Less b a) eqn:Hba; [|done].
  pose proof (Less_trans _ _ _ Hab Hba) as Haa. by rewrite Less_irrefl in Haa.
Qed.

Lemma tget_elem_of t k : bst t → k ∈ keys t → is_Some (tget t k).
Proof.
  induction t as [|l IHl a x w r IHr]; simpl; [by intros _ ?%elem_of_nil|].
  intros (Hl & Hr & Hlt & Hgt). rewrite elem_of_app, elem_of_cons.
  intros [Hin|[->|Hin]].
  - rewrite (Hlt _ Hin). auto.
  - rewrite Less_irrefl. by eexists.
  - rewrite (bst_asym _ _ (Hgt _ Hin)), (Hgt _ Hin). auto.
Qed.

(** The keys of a built tree, in order: no key twice, and exactly the keys
    that were inserted. *)
Lemma keys_built kvs :
  let ks := keys (tinserts (V:=V) Leaf 1 kvs) in
  StronglySorted lt ks ∧ NoDup ks ∧ ∀ k, k ∈ ks ↔ k ∈ kvs.*1.
Proof.
  simpl. assert (bst (tinserts (V:=V) Leaf 1 kvs)) as Hbst
    by (by apply bst_tinserts).
  split; [by apply bst_sorted|]. split; [by apply sorted_NoDup, bst_sorted|].
  intros k. rewrite elem_of_keys_tinserts. simpl. rewrite elem_of_nil. tauto.
Qed.

End Built.

(** With [iKey] keys, a tree built from the keys [0..63] in any order holds
    them in order. *)
Lemma seqZ_sorted (n : nat) (m : Z) : StronglySorted (lt (K:=iKey)) (seqZ m (Z.of_nat n)).
Proof.
  revert m. induction n as [|n IH]; intros m.
  - rewrite seqZ_nil by lia. constructor.
  - rewrite seqZ_cons by lia.
    replace (Z.pred (Z.of_nat (S n))) with (Z.of_nat n) by lia.
    constructor; [apply IH|]. apply Forall_forall. intros x Hx.
    apply elem_of_seqZ in Hx. unfold lt. simpl. apply Z.ltb_lt. lia.
Qed.

Lemma keys_built_seqZ {V : Type} (kvs : list (iKey * V)) :
  kvs.*1 ≡ₚ seqZ 0 64 → keys (tinserts Leaf 1 kvs) = seqZ 0 64.
Proof.
  intros Hperm. destruct (keys_built kvs) as (Hsorted & Hnd & Hin).
  apply (StronglySorted_unique_strong lt); [|done|apply (seqZ_sorted 64)|].
  - intros x1 x2 _ _ H12 H21. apply bst_asym in H12. unfold lt in H21. congruence.
  - apply NoDup_Permutation; [done|apply NoDup_seqZ|].
    intros k. by rewrite Hin, Hperm.
Qed.

(** * Every node of the tree and its parent *)

Section Links.
Context {K V : Type} `{KeyType K}.
Implicit Types t l r : tree (K:=K) (V:=V).
Implicit Types h : heap K V.

(** [p] occupies exactly one of the two child slots of [np]. *)
Definition slot (np : BasicBST K V) (p : ptr) : Prop :=
  ((Child np).1 = p ∧ (Child np).2 ≠ p) ∨ ((Child np).1 ≠ p ∧ (Child np).2 = p).

Fixpoint subtree (s t : tree (K:=K) (V:=V)) : Prop :=
  s = t ∨
  match t with
  | Leaf => False
  | Node l _ _ _ r => subtree s l ∨ subtree s r
  end.

Lemma subtree_refl t : subtree t t.
Proof. destruct t; by left. Qed.

Lemma slot_children l a k v r h par nd :
  h !! a = Some nd → repr h a (Child nd).1 l → repr h a (Child nd).2 r →
  NoDup (par :: addrs (Node l a k v r)) →
  (∀ c, root l = Some c → slot nd (Some c)) ∧
  (∀ c, root r = Some c → slot nd (Some c)).
Proof.
  intros Ha Hl%repr_root Hr%repr_root Hnd. simpl in Hnd.
  apply NoDup_node in Hnd as (_ & _ & _ & Hdisj).
  split; intros c Hc.
  - left. split; [congruence|]. rewrite Hr. intros Hrc.
    apply (Hdisj c); by apply root_elem_of.
  - right. split; [|congruence]. rewrite Hl. intros Hlc.
    apply (Hdisj c); by apply root_elem_of.
Qed.

(** Each node of a represented tree is the root of a represented subtree,
    below a parent that holds it in exactly one slot and to which its
    parent pointer leads. *)
Lemma repr_elem t : ∀ h par p np c,
  repr h par p t → NoDup (par :: addrs t) →
  h !! par = Some np → slot np p → c ∈ addrs t →
  ∃ pc npc l k v r,
    h !! pc = Some npc ∧ slot npc (Some c) ∧
    repr h pc (Some c) (Node l c k v r) ∧
    NoDup (pc :: addrs (Node l c k v r)) ∧
    subtree (Node l c k v r) t.
Proof.
  induction t as [|l IHl a x w r IHr]; intros h par p np c Hrep Hnd Hpar Hslot Hin;
    [by apply elem_of_nil in Hin|].
  pose proof Hrep as Hrep0. pose proof Hnd as Hnd0.
  simpl in Hrep, Hnd, Hin. destruct Hrep as (-> & nd & Ha & Hk & Hv & Hp & Hl & Hr).
  destruct (slot_children l a x w r h par nd Ha Hl Hr Hnd0) as [Hsl Hsr].
  apply NoDup_node in Hnd as (Hndl & Hndr & Hne & Hdisj).
  apply elem_of_app in Hin as [Hin|[->|Hin]%elem_of_cons].
  - destruct l as [|ll la lx lw lr]; [by apply elem_of_nil in Hin|].
    destruct (IHl h a (Child nd).1 nd c Hl Hndl Ha) as
      (pc & npc & l' & k' & v' & r' & ? & ? & ? & ? & ?); [|done|].
    { rewrite (repr_root _ _ _ _ Hl). by apply Hsl. }
    exists pc, npc, l', k', v', r'. do 4 (split; [done|]). right. by left.
  - exists par, np, l, x, w, r. do 4 (split; [done|]). by left.
  - destruct r as [|rl ra rx rw rr]; [by apply elem_of_nil in Hin|].
    destruct (IHr h a (Child nd).2 nd c Hr Hndr Ha) as
      (pc & npc & l' & k' & v' & r' & ? & ? & ? & ? & ?); [|done|].
    { rewrite (repr_root _ _ _ _ Hr). by apply Hsr. }
    exists pc, npc, l', k', v', r'. do 4 (split; [done|]). right. by right.
Qed.

Lemma wf_elem h s t c :
  wf h s t → c ∈ addrs t →
  ∃ pc npc l k v r,
    h !! pc = Some npc ∧ slot npc (Some c) ∧
    repr h pc (Some c) (Node l c k v r) ∧
    NoDup (pc :: addrs (Node l c k v r)) ∧
    subtree (Node l c k v r) t.
Proof.
  intros (sn & Hs & Hp & _ & Hhi & Hrep & Hnd & Hlen) Hin.
  eapply repr_elem; eauto.
  destruct t; [by apply elem_of_nil in Hin|].
  simpl in Hrep. destruct Hrep as [Hc _]. left. split; [done|]. by rewrite Hhi, Hc.
Qed.

End Links.

(** * The checker *)

Section Checker.
Context {K V : Type} `{KeyType K}.
Implicit Types t l r : tree (K:=K) (V:=V).
Implicit Types h : heap K V.

(** The nodes that [Visit] passes, in order: the non-sentinel nodes of the
    tree below [n]. *)
Definition visited h (n : ptr) : res (list addr) :=
  r ← Visit h n (λ a c, Ret (c ++ [a], None)) [];
  Ret r.1.

(** The violation that the specification describes: the [lo] child of the
    node exists and its key is not strictly less than the key of the node,
    or the [hi] child exists and its key is not strictly greater. *)
Definition childKey h (a : addr) (side : ptr * ptr → ptr) : option K :=
  nd ← h !! a; c ← side (Child nd); cn ← h !! c; Key cn.
Definition violates h (a : addr) : bool :=
  match h !! a ≫= Key with
  | None => false
  | Some k =>
      (if childKey h a fst is Some kl then negb (Less kl k) else false)
      || (if childKey h a snd is Some kh then negb (Less k kh) else false)
  end.

Lemma badNode_repr h par c l k v r :
  repr h par (Some c) (Node l c k v r) → badNode h c = Ret (violates h c).
Proof.
  simpl. intros (_ & nd & Hc & Hk & _ & _ & Hl & Hr).
  unfold badNode, violates, childKey. rewrite (load_Some _ _ _ Hc), bind_Ret.
  rewrite Hc. simpl. rewrite Hk.
  destruct l as [|ll la lx lw lr]; simpl in Hl.
  - rewrite Hl. simpl. destruct r as [|rl ra rx rw rr]; simpl in Hr.
    + by rewrite Hr.
    + destruct Hr as (Hcr & nr & Hra & Hkr & _). rewrite Hcr.
      rewrite (load_Some _ _ _ Hra). simpl. by rewrite Hra; simpl; rewrite Hkr.
  - destruct Hl as (Hcl & nl & Hla & Hkl & _). rewrite Hcl.
    rewrite (load_Some _ _ _ Hla). simpl. rewrite Hla; simpl; rewrite Hkl. simpl.
    destruct r as [|rl ra rx rw rr]; simpl in Hr.
    + rewrite Hr. simpl. by rewrite orb_false_r.
    + destruct Hr as (Hcr & nr & Hra & Hkr & _). rewrite Hcr.
      rewrite (load_Some _ _ _ Hra). simpl. by rewrite Hra; simpl; rewrite Hkr.
Qed.

Lemma visitAll_check h (xs : list addr) c :
  (∀ a, a ∈ xs → badNode h a = Ret (violates h a)) →
  visitAll (λ a c, b ← badNode h a;
                   if b : bool then Ret (selectSend (λ _, false) c a)
                   else Ret (c, None)) xs c
  = Ret (c ++ filter (λ a, violates h a) xs, None).
Proof.
  revert c. induction xs as [|a xs IH]; intros c Hbad; simpl.
  - by rewrite app_nil_r.
  - rewrite Hbad by (by left). rewrite bind_Ret.
    destruct (violates h a) eqn:Hv; simpl.
    + rewrite IH by (intros; apply Hbad; by right).
      rewrite filter_cons_True by (by rewrite Hv). by rewrite <-app_assoc.
    + rewrite IH by (intros; apply Hbad; by right).
      by rewrite filter_cons_False by (rewrite Hv; exact id).
Qed.

Lemma visitAll_collect (xs c : list addr) :
  visitAll (λ a c, Ret (c ++ [a], None)) xs c = Ret (c ++ xs, None).
Proof.
  revert c. induction xs as [|a xs IH]; intros c; simpl.
  - by rewrite app_nil_r.
  - by rewrite IH, <-app_assoc.
Qed.

Lemma filter_none {A : Type} (f : A → bool) (xs : list A) :
  (∀ a, a ∈ xs → f a = false) → filter (λ a, f a) xs = [].
Proof.
  induction xs as [|a xs IH]; intros Hf; [done|].
  rewrite filter_cons_False by (rewrite Hf by (by left); exact id).
  apply IH. intros; apply Hf; by right.
Qed.

Lemma visited_wf h s t : wf h s t → visited h (Some s) = Ret (addrs t).
Proof.
  intros Hwf. unfold visited.
  by rewrite (Visit_wf _ _ _ _ _ Hwf), visitAll_collect.
Qed.

Lemma Check_wf h s t :
  wf h s t →
  Check h (Some s) (λ _, false) = Ret (filter (λ a, violates h a) (addrs t)).
Proof.
  intros Hwf. unfold Check. rewrite (Visit_wf _ _ _ _ _ Hwf).
  rewrite visitAll_check; [done|].
  intros a Ha.
  destruct (wf_elem _ _ _ _ Hwf Ha) as (pc & npc & l & k & v & r & _ & _ & Hrep & _).
  by eapply badNode_repr.
Qed.

End Checker.

Section CheckerOrdered.
Context {K V : Type} `{StrictOrderKey K}.
Implicit Types t l r : tree (K:=K) (V:=V).
Implicit Types h : heap K V.

Lemma bst_subtree t' t : subtree t' t → bst t → bst t'.
Proof.
  induction t as [|l IHl a x w r IHr]; simpl.
  - by intros [->|[]].
  - intros [->|[Hs|Hs]] (Hl & Hr & Hlt & Hgt); [done|by auto..].
Qed.

Lemma root_key_elem_of t a h par p nd k :
  repr h par p t → root t = Some a → h !! a = Some nd → Key nd = Some k →
  k ∈ keys t.
Proof.
  destruct t as [|l b x w r]; simpl; [done|].
  intros (_ & nd' & Hb & Hk & _) [= ->] Ha Hk'.
  rewrite Ha in Hb. simplify_eq.
  apply elem_of_app. right. by left.
Qed.

Lemma violates_bst h par c l k v r :
  repr h par (Some c) (Node l c k v r) → bst (Node l c k v r) →
  violates h c = false.
Proof.
  simpl. intros (_ & nd & Hc & Hk & _ & _ & Hl & Hr) (_ & _ & Hlt & Hgt).
  unfold violates, childKey. rewrite Hc. simpl. rewrite Hk.
  apply orb_false_iff. split.
  - destruct (Child nd).1 as [la|] eqn:Hcl; simpl; [|done].
    destruct (h !! la) as [nl|] eqn:Hla; simpl; [|done].
    destruct (Key nl) as [kl|] eqn:Hkl; [|done].
    rewrite (Hlt kl); [done|].
    eapply root_key_elem_of; eauto. symmetry. by eapply repr_root.
  - destruct (Child nd).2 as [ra|] eqn:Hcr; simpl; [|done].
    destruct (h !! ra) as [nr|] eqn:Hra; simpl; [|done].
    destruct (Key nr) as [kr|] eqn:Hkr; [|done].
    rewrite (Hgt kr); [done|].
    eapply root_key_elem_of; eauto. symmetry. by eapply repr_root.
Qed.

(** No node of a search tree is a violation. *)
Lemma Check_bst h s t :
  wf h s t → bst t → Check h (Some s) (λ _, false) = Ret [].
Proof.
  intros Hwf Hbst. rewrite (Check_wf _ _ _ Hwf). f_equal.
  apply filter_none. intros a Ha.
  destruct (wf_elem _ _ _ _ Hwf Ha) as (pc & npc & l & k & v & r & _ & _ & Hrep & _ & Hsub).
  eapply violates_bst; [done|]. by eapply bst_subtree.
Qed.

End CheckerOrdered.

(** * Deletion *)

Section Deletion.
Context {K V : Type} `{KeyType K}.
Implicit Types t l r : tree (K:=K) (V:=V).
Implicit Types h : heap K V.

Lemma Delete_eq fuel h a nd :
  IsSentinel h (Some a) = false → h !! a = Some nd →
  Delete_ (S fuel) h (Some a) =
    match (Child nd).2, (Child nd).1 with
    | None, _ => relink h (Some a) (Child nd).1
    | Some _, None => relink h (Some a) (Child nd).2
    | Some _, Some _ =>
        cur ← descend fuel h (Child nd).2 lo;
        cn ← deref h cur;
        Delete_ fuel (<[a := setKeyValue nd (Key cn) (Value cn)]> h) cur
    end.
Proof.
  intros Hs Ha. simpl. rewrite Hs. by rewrite (load_Some _ _ _ Ha).
Qed.

(** A node that sits in one slot of its parent is unlinked by [relink]:
    the slot takes the new pointer, the other slot is left as it is. *)
Lemma relink_linked h c nc pc npc x :
  h !! c = Some nc → Parent nc = Some pc → h !! pc = Some npc →
  slot npc (Some c) →
  ∃ o, o ≠ Some c ∧
    (relink h (Some c) x = Ret (<[pc := setChild npc (x, o)]> h) ∨
     relink h (Some c) x = Ret (<[pc := setChild npc (o, x)]> h)).
Proof.
  intros Hc Hp Hpc Hslot. unfold relink, which, deref.
  rewrite (load_Some _ _ _ Hc), !bind_Ret, Hp. simpl.
  rewrite (load_Some _ _ _ Hpc), !bind_Ret.
  destruct Hslot as [[Hlo Hhi]|[Hlo Hhi]].
  - rewrite bool_decide_eq_true_2 by done. rewrite bind_Ret.
    exists (Child npc).2. split; [done|]. by left.
  - rewrite bool_decide_eq_false_2 by done.
    rewrite bool_decide_eq_true_2 by done. rewrite bind_Ret.
    exists (Child npc).1. split; [done|]. by right.
Qed.

(** A node that sits in no slot of the node its parent pointer leads to
    makes [relink] index the child array at -1. *)
Lemma relink_stale h c nc pc npc x :
  h !! c = Some nc → Parent nc = Some pc → h !! pc = Some npc →
  (Child npc).1 ≠ Some c → (Child npc).2 ≠ Some c →
  which h (Some c) = Ret (-1)%Z ∧ relink h (Some c) x = Panic.
Proof.
  intros Hc Hp Hpc Hlo Hhi.
  assert (which h (Some c) = Ret (-1)%Z) as Hw.
  { unfold which, deref. rewrite (load_Some _ _ _ Hc), !bind_Ret, Hp.
    rewrite (load_Some _ _ _ Hpc), !bind_Ret.
    by rewrite !bool_decide_eq_false_2 by done. }
  split; [done|]. unfold relink, deref.
  rewrite (load_Some _ _ _ Hc), !bind_Ret, Hw, bind_Ret, Hp.
  by rewrite (load_Some _ _ _ Hpc), !bind_Ret.
Qed.

(** The [lo]-ward descent ends on a node of the subtree without [lo]
    child. *)
Lemma descend_lo_node t : ∀ fuel h par a,
  repr h par (Some a) t → height t ≤ fuel →
  ∃ c nc, descend fuel h (Some a) lo = Ret (Some c) ∧ c ∈ addrs t ∧
          h !! c = Some nc ∧ (Child nc).1 = None.
Proof.
  induction t as [|l IHl b x w r _]; intros fuel h par a Hrep Hfuel; [done|].
  destruct fuel as [|fuel]; [simpl in Hfuel; lia|].
  simpl in Hrep, Hfuel. destruct Hrep as (Heq & nd & Ha & Hk & Hv & Hp & Hl & Hr).
  symmetry in Heq; simplify_eq.
  simpl. rewrite (load_Some _ _ _ Ha), bind_Ret.
  destruct l as [|ll la lx lw lr].
  - simpl in Hl. rewrite Hl. exists a, nd. repeat split; try done. by left.
  - pose proof Hl as Hl0. simpl in Hl. destruct Hl as (Hc & _).
    rewrite Hc in Hl0 |- *.
    destruct (IHl fuel h a la Hl0) as (c & nc & Hd & Hin & Hnc & Hlo); [lia|].
    exists c, nc. repeat split; try done. apply elem_of_app. by left.
Qed.

Lemma subtree_height t' t : subtree t' t → height t' ≤ height t.
Proof.
  induction t as [|l IHl a x w r IHr]; simpl.
  - by intros [->|[]].
  - intros [->|[Hs|Hs]]; [done| |].
    + specialize (IHl Hs). lia.
    + specialize (IHr Hs). lia.
Qed.

Lemma root_not_self t a : a ∉ addrs t → root t ≠ Some a.
Proof. intros Hnotin Hroot. by apply Hnotin, root_elem_of. Qed.

(** Deleting a node with at most one child unlinks it; the same call on
    the unlinked node then panics. *)
Lemma Delete_twice h s t a na :
  wf h s t → a ∈ addrs t → h !! a = Some na →
  (Child na).1 = None ∨ (Child na).2 = None →
  ∃ h', Delete h (Some a) = Ret h' ∧ which h' (Some a) = Ret (-1)%Z ∧
        Delete h' (Some a) = Panic.
Proof.
  intros Hwf Hin Ha Hchild.
  destruct (wf_elem _ _ _ _ Hwf Hin)
    as (pc & npc & l & k & v & r & Hpc & Hslot & Hrep & Hnd & _).
  simpl in Hrep. destruct Hrep as (_ & nd & Ha' & _ & _ & Hp & Hl & Hr).
  rewrite Ha in Ha'. symmetry in Ha'. simplify_eq.
  simpl in Hnd. apply NoDup_node in Hnd as (Hndl & Hndr & Hne & _).
  apply NoDup_cons in Hndl as [Hal _]. apply NoDup_cons in Hndr as [Har _].
  apply repr_root in Hl, Hr.
  pose proof (root_not_self _ _ Hal) as Hlo. pose proof (root_not_self _ _ Har) as Hhi.
  rewrite <-Hl in Hlo. rewrite <-Hr in Hhi.
  pose proof (not_sentinel h pc a na Ha Hp Hne) as Hsent.
  pose proof (lookup_lt_Some _ _ _ Hpc) as Hpclt.
  (* the pointer that takes the place of the node *)
  assert (∃ x, x ≠ Some a ∧ ∀ fuel h1, IsSentinel h1 (Some a) = false →
            h1 !! a = Some na →
            Delete_ (S fuel) h1 (Some a) = relink h1 (Some a) x) as (x & Hx & Hdel).
  { destruct (Child na).2 as [c2|] eqn:E2.
    - destruct Hchild as [E1|?]; [|done]. exists (Some c2). split; [done|].
      intros fuel h1 Hs1 Ha1. by rewrite (Delete_eq fuel h1 a na Hs1 Ha1), E2, E1.
    - exists (Child na).1. split; [done|].
      intros fuel h1 Hs1 Ha1. by rewrite (Delete_eq fuel h1 a na Hs1 Ha1), E2. }
  destruct (relink_linked h a na pc npc x Ha Hp Hpc Hslot) as (o & Ho & Hrel).
  assert (∃ ch, relink h (Some a) x = Ret (<[pc := setChild npc ch]> h) ∧
                ch.1 ≠ Some a ∧ ch.2 ≠ Some a) as (ch & Hrel' & Hch1 & Hch2).
  { destruct Hrel as [Hrel|Hrel]; eexists; (split; [exact Hrel|]); by simpl. }
  exists (<[pc := setChild npc ch]> h).
  assert (<[pc := setChild npc ch]> h !! a = Some na) as Ha1
    by (by rewrite list_lookup_insert_ne).
  assert (<[pc := setChild npc ch]> h !! pc = Some (setChild npc ch)) as Hpc1
    by (by rewrite list_lookup_insert_eq).
  pose proof (not_sentinel _ pc a na Ha1 Hp Hne) as Hsent1.
  destruct (relink_stale _ a na pc _ x Ha1 Hp Hpc1 Hch1 Hch2) as [Hw Hpanic].
  split; [|split; [done|]].
  - unfold Delete, fuelOf. by rewrite Hdel.
  - unfold Delete, fuelOf. by rewrite Hdel.
Qed.

(** [Delete] on a node of the tree returns. *)
Lemma Delete_linked h s t a :
  wf h s t → a ∈ addrs t → ∃ h', Delete h (Some a) = Ret h'.
Proof.
  intros Hwf Hin.
  destruct (wf_elem _ _ _ _ Hwf Hin)
    as (pc & npc & l & k & v & r & Hpc & Hslot & Hrep & Hnd & Hsub).
  pose proof Hrep as Hrep0. pose proof Hnd as Hnd0.
  simpl in Hrep. destruct Hrep as (_ & na & Ha & _ & _ & Hp & Hl & Hr).
  destruct (Child na).1 as [c1|] eqn:E1;
    [|destruct (Delete_twice h s t a na) as (h' & ? & _); eauto].
  destruct (Child na).2 as [c2|] eqn:E2;
    [|destruct (Delete_twice h s t a na) as (h' & ? & _); eauto].
  simpl in Hnd. apply NoDup_node in Hnd as (Hndl & Hndr & Hne & _).
  pose proof (not_sentinel h pc a na Ha Hp Hne) as Hsent.
  destruct (slot_children l a k v r h pc na Ha) as [_ Hsr];
    [by rewrite E1|by rewrite E2|done|].
  assert (Hheight : height r < length h).
  { destruct Hwf as (sn & _ & _ & _ & _ & _ & _ & Hlen).
    pose proof (subtree_height _ _ Hsub). pose proof (height_le_size t).
    simpl in *. lia. }
  destruct (descend_lo_node r (length h) h a c2 Hr) as (c & nc & Hd & Hc & Hnc & Hlo);
    [lia|].
  destruct (repr_elem r h a (Some c2) na c Hr Hndr Ha)
    as (pc0 & npc0 & l0 & k0 & v0 & r0 & Hpc0 & Hslot0 & Hrep1 & Hnd1 & _); [|done|].
  { apply Hsr. symmetry. by eapply repr_root. }
  simpl in Hrep1. destruct Hrep1 as (_ & nc' & Hnc' & _ & _ & Hp0 & _).
  rewrite Hnc in Hnc'. symmetry in Hnc'. simplify_eq.
  apply NoDup_cons in Hnd1 as [Hne0 _].
  assert (pc0 ≠ c) as Hne1.
  { intros ->. apply Hne0. simpl. apply elem_of_app. right. by left. }
  assert (c ≠ a) as Hca.
  { intros ->. by apply NoDup_cons in Hndr as [? _]. }
  unfold Delete, fuelOf. rewrite (Delete_eq _ h a na Hsent Ha), E1, E2.
  rewrite Hd, bind_Ret. unfold deref. rewrite (load_Some _ _ _ Hnc), bind_Ret.
  set (h1 := <[a := setKeyValue na (Key nc) (Value nc)]> h).
  assert (h1 !! c = Some nc) as Hc1
    by (unfold h1; by rewrite list_lookup_insert_ne).
  assert (∃ npc1, h1 !! pc0 = Some npc1 ∧ slot npc1 (Some c)) as (npc1 & Hpc1 & Hslot1).
  { destruct (decide (pc0 = a)) as [->|Hne2].
    - exists (setKeyValue na (Key nc) (Value nc)). split.
      + unfold h1. apply list_lookup_insert_eq. by eapply lookup_lt_Some.
      + rewrite Ha in Hpc0. by simplify_eq.
    - exists npc0. split; [|done]. unfold h1. by rewrite list_lookup_insert_ne. }
  pose proof (not_sentinel h1 pc0 c nc Hc1 Hp0 Hne1) as Hsent1.
  destruct (length h) as [|n] eqn:Hlen; [lia|].
  rewrite (Delete_eq _ h1 c nc Hsent1 Hc1), Hlo.
  destruct (Child nc).2 as [c3|].
  - destruct (relink_linked h1 c nc pc0 npc1 (Some c3) Hc1 Hp0 Hpc1 Hslot1)
      as (o & _ & [->| ->]); by eexists.
  - destruct (relink_linked h1 c nc pc0 npc1 None Hc1 Hp0 Hpc1 Hslot1)
      as (o & _ & [->| ->]); by eexists.
Qed.

End Deletion.

(** * The variant of basic.go *)

(** basic.go holds an earlier state of the same type: no [Height] field,
    [Next] written out for the [hi] direction, and a [Delete] whose default
    branch is still to be written.  [Get], [Visit], [Keys], [Check] and
    [Insert] are the same text. *)
Module BasicGo.
Section BasicGo.
Context {K V : Type} `{KeyType K}.
Implicit Types h : heap K V.

Definition Next h (n : ptr) : res ptr :=
  nd ← deref h n;
  match (Child nd).2 with
  | Some _ => descend (fuelOf h) h (Child nd).2 lo
  | None =>
      cur ← climb (fuelOf h) h n hi;
      cn ← deref h cur;
      if IsSentinel h (Parent cn) then Ret None else Ret (Parent cn)
  end.

Definition Delete h (n : ptr) : res (heap K V) :=
  if IsSentinel h n then Ret h
  else
    match n with
    | None => Ret h
    | Some _ => Ret h (* TODO *)
    end.

End BasicGo.
End BasicGo.

(** X19.  [Next] of basic.go, written out for the [hi] direction, returns on
    every heap and for every pointer what [Next] by way of [next] returns
    (or panics or runs out of fuel where that does). *)
Lemma BasicGo_Next_eq {K V : Type} `{KeyType K} (h : heap K V) n :
  BasicGo.Next h n = Next h n.
Proof.
  unfold BasicGo.Next, Next, next. by destruct (deref h n) as [nd| |].
Qed.

(** With the [Delete] of basic.go the node of key 3 stays in the tree. *)
Lemma BasicGo_Delete_todo {K V : Type} `{KeyType K} (h : heap K V) n :
  BasicGo.Delete h n = Ret h.
Proof. unfold BasicGo.Delete. by destruct (IsSentinel h n), n. Qed.

(** * Sample trees and the link invariant *)

(** The tree of [TestBasicInsertAndVisit]. *)
Definition kvs7 : list (iKey * Z) :=
  (λ k, (k, - k)%Z) <$> [3; 1; 5; 0; 2; 4; 6]%Z.

(** The 64 keys of [TestRandomInsert] in descending order, each with value
    [-k]. *)
Definition descending64 : list (iKey * Z) :=
  (λ k, (k, - k)%Z) <$> reverse (seqZ 0 64).

Lemma descending64_perm : descending64.*1 ≡ₚ seqZ 0 64.
Proof.
  replace (descending64.*1) with (reverse (seqZ 0 64)) by (by vm_compute).
  apply reverse_Permutation.
Qed.

(** A heap whose tree is out of order: the node of key 5 has a [lo] child
    of key 7. *)
Definition crooked : heap iKey Z :=
  [ mkBasicBST None None (Some 0) (Some 1, None) 0;
    mkBasicBST (Some 5%Z) (Some 0%Z) (Some 0) (Some 2, None) 0;
    mkBasicBST (Some 7%Z) (Some 0%Z) (Some 1) (None, None) 0 ].

Lemma crooked_wf : wf crooked 0 (Node (Node Leaf 2 7%Z 0%Z Leaf) 1 5%Z 0%Z Leaf).
Proof.
  eexists. split; [reflexivity|]. do 3 (split; [reflexivity|]). split; [|split].
  - simpl. split; [done|]. eexists. split; [reflexivity|].
    do 3 (split; [reflexivity|]). split; [|done].
    split; [done|]. eexists. split; [reflexivity|]. done.
  - apply (bool_decide_unpack _). by vm_compute.
  - simpl. lia.
Qed.

(** What [Get] returns, on any heap: nil, or a node that is not a sentinel
    and whose key is neither less nor greater than the key asked for. *)
Lemma Get_result {K V : Type} `{KeyType K} fuel (h : heap K V) n k r :
  Get_ fuel h n k = Ret r →
  match r with
  | None => True
  | Some a =>
      IsSentinel h (Some a) = false ∧
      ∃ nd x, h !! a = Some nd ∧ Key nd = Some x ∧
              Less k x = false ∧ Less x k = false
  end.
Proof.
  revert n. induction fuel as [|fuel IH]; intros n; simpl; [done|].
  destruct n as [a|]; [|by intros [= <-]].
  unfold load. destruct (h !! a) as [nd|] eqn:Ha; simpl; [|done].
  destruct (IsSentinel h (Some a)) eqn:Hs; simpl; [by apply IH|].
  destruct (Key nd) as [x|] eqn:Hk; simpl; [|done].
  destruct (Less k x) eqn:Hkx; simpl; [by apply IH|].
  destruct (Less x k) eqn:Hxk; simpl; [by apply IH|].
  intros [= <-]. split; [done|]. by exists nd, x.
Qed.

(** The linkage invariant at a node: each non-nil child of the node has
    the node as its parent. *)
Definition childLinked {K V : Type} (h : heap K V) (a : addr) (c : ptr) : bool :=
  match c with
  | None => true
  | Some c =>
      match h !! c with
      | Some cn => bool_decide (Parent cn = Some a)
      | None => false
      end
  end.
Definition linkedAt {K V : Type} (h : heap K V) (a : addr) : bool :=
  match h !! a with
  | Some nd => childLinked h a (Child nd).1 && childLinked h a (Child nd).2
  | None => false
  end.

(** The invariant holds in the tree of the sentinel [s] when it holds at
    [s] and at every node that [Visit] passes. *)
Definition linked {K V : Type} `{KeyType K} (h : heap K V) (s : addr) : Prop :=
  linkedAt h s = true ∧
  ∃ ns, visited h (Some s) = Ret ns ∧ ∀ a, a ∈ ns → linkedAt h a = true.

Lemma childLinked_repr {K V : Type} `{KeyType K} (h : heap K V) a p t :
  repr h a p t → childLinked h a p = true.
Proof.
  destruct t; simpl; [by intros ->|].
  intros (-> & nd & Hnd & _ & _ & Hp & _). simpl. rewrite Hnd.
  by apply bool_decide_eq_true.
Qed.

(** [Insert] keeps the links: they hold in every heap that holds a tree,
    so after any run of [Insert] calls on a fresh tree. *)
Lemma wf_linked {K V : Type} `{KeyType K} (h : heap K V) s t :
  wf h s t → linked h s.
Proof.
  intros Hwf. split.
  - destruct Hwf as (sn & Hs & _ & _ & Hhi & Hrep & _).
    unfold linkedAt. rewrite Hs, Hhi, (childLinked_repr _ _ _ _ Hrep). done.
  - exists (addrs t). split; [by apply visited_wf|]. intros a Ha.
    destruct (wf_elem _ _ _ _ Hwf Ha) as (pc & npc & l & k & v & r & _ & _ & Hrep & _).
    simpl in Hrep. destruct Hrep as (_ & nd & Hnd & _ & _ & _ & Hl & Hr).
    unfold linkedAt. rewrite Hnd.
    by rewrite (childLinked_repr _ _ _ _ Hl), (childLinked_repr _ _ _ _ Hr).
Qed.

(** * Properties of the operations *)

(** C4.  After any run of [Insert] calls on a fresh tree, [Get k] returns a
    node with key [k] holding the value of the last insertion of [k]; it
    returns nil for a key that was never inserted (so for every key when
    nothing was inserted); and the tree holds each inserted key in exactly
    one node: the key stream has no key twice and has exactly the inserted
    keys. *)
Theorem Insert_Get_round_trip {K V : Type} `{StrictOrderKey K} (kvs : list (K * V)) :
  ∃ (h : heap K V) s, build kvs = Ret (h, s) ∧
    (∀ kvs1 k v kvs2, kvs = kvs1 ++ (k, v) :: kvs2 → k ∉ kvs2.*1 →
       ∃ a nd, Get h (Some s) k = Ret (Some a) ∧ h !! a = Some nd ∧
               Key nd = Some k ∧ Value nd = Some v) ∧
    (∀ k, k ∉ kvs.*1 → Get h (Some s) k = Ret None) ∧
    (∃ ks, Keys h (Some s) (λ _, false) = Ret (Some <$> ks) ∧
           NoDup ks ∧ ∀ k, k ∈ ks ↔ k ∈ kvs.*1).
Proof.
  destruct (build_wf kvs) as (h & s & Hbuild & Hwf).
  exists h, s. split; [done|]. split; [|split].
  - intros kvs1 k v kvs2 -> Hnotin.
    destruct (tget_tinserts_last (V:=V) Leaf 1 kvs1 k v kvs2 Hnotin) as [a Hget].
    pose proof Hwf as (sn & _ & _ & _ & _ & Hrep & _).
    destruct (tget_repr _ _ _ _ _ _ _ Hrep Hget) as (nd & Ha & Hk & Hv).
    exists a, nd. by rewrite (Get_wf _ _ _ _ Hwf), Hget.
  - intros k Hnotin.
    by rewrite (Get_wf _ _ _ _ Hwf), tget_tinserts_notin.
  - exists (keys (tinserts Leaf 1 kvs)). split; [by apply Keys_wf|].
    by destruct (keys_built kvs) as (_ & ? & ?).
Qed.

Lemma Insert_Get_round_trip_witness :
  ∃ (h : heap iKey Z) s a nd,
    build [(1, 10); (2, 20); (1, 30)]%Z = Ret (h, s) ∧
    Get h (Some s) 1%Z = Ret (Some a) ∧ h !! a = Some nd ∧
    Key nd = Some 1%Z ∧ Value nd = Some 30%Z ∧
    Get h (Some s) 7%Z = Ret None.
Proof.
  destruct (Insert_Get_round_trip (K:=iKey) [(1, 10); (2, 20); (1, 30)]%Z)
    as (h & s & Hbuild & Hlast & Habsent & _).
  destruct (Hlast [(1, 10); (2, 20)]%Z 1%Z 30%Z [] eq_refl) as (a & nd & ? & ? & ? & ?).
  { apply not_elem_of_nil. }
  exists h, s, a, nd. repeat split; try done.
  apply Habsent. simpl. rewrite !not_elem_of_cons. repeat split; try done.
  apply not_elem_of_nil.
Defined.

(** C6.  After inserting the keys [0..63] in any order into a fresh tree,
    the key stream, run to its end without cancellation, yields
    0, 1, ..., 63: ascending, each key once. *)
Theorem Keys_in_order {V : Type} (kvs : list (iKey * V)) :
  kvs.*1 ≡ₚ seqZ 0 64 →
  ∃ (h : heap iKey V) s, build kvs = Ret (h, s) ∧
    Keys h (Some s) (λ _, false) = Ret (Some <$> seqZ 0 64).
Proof.
  intros Hperm. destruct (build_wf kvs) as (h & s & Hbuild & Hwf).
  exists h, s. split; [done|].
  by rewrite (Keys_wf _ _ _ Hwf), keys_built_seqZ.
Qed.

Lemma Keys_in_order_witness :
  descending64.*1 ≡ₚ seqZ 0 64 ∧
  ∃ (h : heap iKey Z) s, build descending64 = Ret (h, s) ∧
    Keys h (Some s) (λ _, false) = Ret (Some <$> seqZ 0 64).
Proof.
  split; [exact descending64_perm|].
  exact (Keys_in_order descending64 descending64_perm).
Defined.

(** C5.  After inserting the keys [0..63] in any order, [Next] on the node
    of key [i] returns the node of key [i+1] for [i < 63] and nil for
    [i = 63]; it reaches its result from the node alone ([NextBy]): by the
    [lo]-ward descent below the [hi] child when there is one, and otherwise
    by climbing parent links up to a node that is a [lo] child. *)
Theorem Next_successor_chain {V : Type} (kvs : list (iKey * V)) :
  kvs.*1 ≡ₚ seqZ 0 64 →
  ∃ (h : heap iKey V) s, build kvs = Ret (h, s) ∧
    (∀ i, (0 ≤ i < 63)%Z →
       ∃ a b nb, Get h (Some s) i = Ret (Some a) ∧
                 Next h (Some a) = Ret (Some b) ∧ NextBy h a ∧
                 Get h (Some s) (i + 1)%Z = Ret (Some b) ∧
                 h !! b = Some nb ∧ Key nb = Some (i + 1)%Z) ∧
    (∃ a, Get h (Some s) 63%Z = Ret (Some a) ∧
          Next h (Some a) = Ret None ∧ NextBy h a).
Proof.
  intros Hperm. destruct (build_wf kvs) as (h & s & Hbuild & Hwf).
  exists h, s. split; [done|].
  set (t := tinserts Leaf 1 kvs) in *.
  assert (Hkeys : keys t = seqZ 0 64) by (by apply keys_built_seqZ).
  assert (Hbst : bst t) by (by apply bst_tinserts).
  assert (Hlen : length (addrs t) = 64).
  { by rewrite addrs_keys_length, Hkeys. }
  assert (Hpos : ∀ i, (0 ≤ i < 64)%Z →
            ∃ a v, tget t i = Some (a, v) ∧ addrs t !! Z.to_nat i = Some a).
  { intros i Hi. destruct (tget_elem_of t i Hbst) as [[a v] Hget].
    { rewrite Hkeys. apply elem_of_seqZ. lia. }
    exists a, v. split; [done|].
    destruct (tget_Some _ _ _ _ Hget) as (j & Hj & Hj').
    rewrite Hkeys in Hj'. apply lookup_seqZ in Hj' as [-> _].
    by replace (Z.to_nat (0 + Z.of_nat j)) with j by lia. }
  split.
  - intros i Hi.
    destruct (Hpos i) as (a & v & Hget & Ha); [lia|].
    destruct (Hpos (i + 1)%Z) as (b & w & Hget' & Hb); [lia|].
    replace (Z.to_nat (i + 1)) with (S (Z.to_nat i)) in Hb by lia.
    destruct (Next_wf_succ _ _ _ _ _ _ Hwf Ha Hb) as [HN HBy].
    pose proof Hwf as (sn & _ & _ & _ & _ & Hrep & _).
    destruct (tget_repr _ _ _ _ _ _ _ Hrep Hget') as (nb & Hnb & Hk & _).
    exists a, b, nb. rewrite !(Get_wf _ _ _ _ Hwf), Hget, Hget'. done.
  - destruct (Hpos 63%Z) as (a & v & Hget & Ha); [lia|].
    assert (Hlast : last (addrs t) = Some a).
    { rewrite last_lookup, Hlen. exact Ha. }
    destruct (Next_wf_last _ _ _ _ Hwf Hlast) as [HN HBy].
    exists a. by rewrite (Get_wf _ _ _ _ Hwf), Hget.
Qed.

Lemma Next_successor_chain_witness :
  descending64.*1 ≡ₚ seqZ 0 64 ∧
  ∃ (h : heap iKey Z) s a b, build descending64 = Ret (h, s) ∧
    Get h (Some s) 10%Z = Ret (Some a) ∧ Next h (Some a) = Ret (Some b) ∧
    Get h (Some s) 11%Z = Ret (Some b).
Proof.
  split; [exact descending64_perm|].
  destruct (Next_successor_chain descending64 descending64_perm)
    as (h & s & Hbuild & Hchain & _).
  destruct (Hchain 10%Z) as (a & b & nb & Ha & HN & _ & Hb & _); [lia|].
  exists h, s, a, b. exact (conj Hbuild (conj Ha (conj HN Hb))).
Defined.

(** C7.  On a heap that holds a tree, [Check] (run to its end) emits, in
    visiting order, exactly the nodes passed by [Visit] (none of them a
    sentinel) that are violations in the sense of [violates]; and after
    inserting the keys [0..63] in any order into a fresh tree it emits
    nothing. *)
Theorem Check_emits_violations {K V : Type} `{KeyType K} :
  (∀ (h : heap K V) s t, wf h s t →
     ∃ ns, visited h (Some s) = Ret ns ∧
           (∀ a, a ∈ ns → IsSentinel h (Some a) = false) ∧
           Check h (Some s) (λ _, false) = Ret (filter (λ a, violates h a) ns)) ∧
  (∀ kvs : list (iKey * V), kvs.*1 ≡ₚ seqZ 0 64 →
     ∃ (h : heap iKey V) s, build kvs = Ret (h, s) ∧
       Check h (Some s) (λ _, false) = Ret []).
Proof.
  split.
  - intros h s t Hwf. exists (addrs t).
    split; [by apply visited_wf|]. split; [|by apply Check_wf].
    intros a Ha.
    destruct (wf_elem _ _ _ _ Hwf Ha)
      as (pc & npc & l & k & v & r & _ & _ & Hrep & Hnd & _).
    simpl in Hrep. destruct Hrep as (_ & nd & Hnd' & _ & _ & Hp & _).
    apply (not_sentinel h pc a nd Hnd' Hp).
    apply NoDup_cons in Hnd as [Hnotin _]. intros ->. apply Hnotin.
    simpl. apply elem_of_app. right. by left.
  - intros kvs _. destruct (build_wf kvs) as (h & s & Hbuild & Hwf).
    exists h, s. split; [done|].
    apply (Check_bst _ _ _ Hwf). by apply bst_tinserts.
Qed.

Lemma Check_emits_violations_witness :
  Check crooked (Some 0) (λ _, false) = Ret [1] ∧
  descending64.*1 ≡ₚ seqZ 0 64 ∧
  ∃ (h : heap iKey Z) s, build descending64 = Ret (h, s) ∧
    Check h (Some s) (λ _, false) = Ret [].
Proof.
  destruct (Check_emits_violations (K:=iKey) (V:=Z)) as [Hexact Hnone].
  split; [|split; [exact descending64_perm|exact (Hnone _ descending64_perm)]].
  destruct (Hexact crooked 0 _ crooked_wf) as (ns & Hns & _ & Hc).
  etrans; [exact Hc|].
  assert (ns = [2; 1]) as -> by (vm_compute in Hns; congruence).
  reflexivity.
Defined.

(** C10.  On a heap that holds a tree, [Get] from the sentinel returns, and
    what it returns is nil or a node other than the sentinel whose key
    compares equal to the key asked for.  At the sentinel the lookup goes
    to the [lo] slot without a comparison, whatever the fuel, so [Less] is
    not called on the unset key of the sentinel (such a call is a panic in
    this model, and [Get] returns). *)
Theorem Get_never_sentinel {K V : Type} `{KeyType K} (h : heap K V) s t k :
  wf h s t →
  ∃ sn r, h !! s = Some sn ∧ Key sn = None ∧
    (∀ fuel, Get_ (S fuel) h (Some s) k = Get_ fuel h (Child sn).1 k) ∧
    Get h (Some s) k = Ret r ∧
    match r with
    | None => True
    | Some a =>
        a ≠ s ∧ IsSentinel h (Some a) = false ∧
        ∃ nd x, h !! a = Some nd ∧ Key nd = Some x ∧
                Less k x = false ∧ Less x k = false
    end.
Proof.
  intros Hwf. pose proof Hwf as (sn & Hs & Hp & Hkey & _).
  pose proof (is_sentinel _ _ _ Hs Hp) as Hsent.
  exists sn, (fst <$> tget t k). do 2 (split; [done|]). split; [|split].
  - intros fuel. simpl. by rewrite (load_Some _ _ _ Hs), bind_Ret, Hsent.
  - by apply Get_wf.
  - pose proof (Get_result _ _ _ _ _ (Get_wf _ _ _ k Hwf)) as Hres.
    destruct (fst <$> tget t k) as [a|]; [|done].
    destruct Hres as [Hns Hnode]. split; [|done]. intros ->. congruence.
Qed.

Lemma Get_never_sentinel_witness :
  ∃ a, Get crooked (Some 0) 5%Z = Ret (Some a) ∧ a ≠ 0 ∧
       IsSentinel crooked (Some a) = false.
Proof.
  destruct (Get_never_sentinel crooked 0 _ 5%Z crooked_wf)
    as (sn & r & _ & _ & _ & Hget & Hr).
  destruct r as [a|]; [|by vm_compute in Hget].
  destruct Hr as (Hne & Hns & _). by exists a.
Defined.

(** C8.  [Delete] on nil or on a sentinel returns and leaves the heap as it
    is. *)
Theorem Delete_sentinel_or_nil {K V : Type} `{KeyType K} (h : heap K V) n :
  n = None ∨ IsSentinel h n = true → Delete h n = Ret h.
Proof.
  intros [->|Hs]; unfold Delete, fuelOf; simpl.
  - done.
  - by rewrite Hs.
Qed.

Lemma Delete_sentinel_or_nil_witness :
  IsSentinel crooked (Some 0) = true ∧
  Delete crooked (Some 0) = Ret crooked ∧ Delete crooked None = Ret crooked.
Proof.
  split; [reflexivity|]. split.
  - apply Delete_sentinel_or_nil. right. reflexivity.
  - apply Delete_sentinel_or_nil. by left.
Defined.


(** C1 fails on [Delete].  Insert 2 then 1 and delete the node of key 2,
    which has a [lo] child: the links hold before the call; after it the
    [lo] slot of the sentinel holds the node of key 1, whose parent pointer
    still leads to the deleted node.  [Next] on the node of key 1 then
    returns the deleted node, and [Delete] on it leaves it in the tree. *)
Theorem Delete_breaks_links :
  ∃ (h : heap iKey Z) s d h' sn c cn,
    build [(2, -2); (1, -1)]%Z = Ret (h, s) ∧ linked h s ∧
    Get h (Some s) 2%Z = Ret (Some d) ∧ Delete h (Some d) = Ret h' ∧
    h' !! s = Some sn ∧ (Child sn).1 = Some c ∧ h' !! c = Some cn ∧
    Parent cn = Some d ∧ d ≠ s ∧ ¬ linked h' s ∧
    Get h' (Some s) 1%Z = Ret (Some c) ∧ Next h' (Some c) = Ret (Some d) ∧
    ∃ h'', Delete h' (Some c) = Ret h'' ∧ Get h'' (Some s) 1%Z = Ret (Some c).
Proof.
  eexists _, _, _, _, _, _, _. split; [by vm_compute|]. split.
  { split; [by vm_compute|]. eexists. split; [by vm_compute|].
    intros a Ha. repeat (apply elem_of_cons in Ha as [->|Ha]; [by vm_compute|]).
    by apply elem_of_nil in Ha. }
  do 6 (split; [by vm_compute|]). split; [done|]. split.
  { intros [Hs _]. by vm_compute in Hs. }
  do 2 (split; [by vm_compute|]).
  eexists. split; by vm_compute.
Qed.

(** C2 as stated fails.  Insert key 1 and delete its node: the node is
    detached ([Get 1] returns nil).  The second [Delete] on the same handle
    is not a no-op: [which] returns -1 and the call panics. *)
Lemma Delete_twice_panics :
  ∃ (h : heap iKey Z) s d h',
    build [(1, -1)]%Z = Ret (h, s) ∧ Get h (Some s) 1%Z = Ret (Some d) ∧
    Delete h (Some d) = Ret h' ∧ Get h' (Some s) 1%Z = Ret None ∧
    which h' (Some d) = Ret (-1)%Z ∧
    Delete h' (Some d) = Panic ∧ Delete h' (Some d) ≠ Ret h'.
Proof.
  eexists _, _, _, _. do 6 (split; [by vm_compute|]). by vm_compute.
Qed.

(** C2, amended.  On a heap that holds a tree with consistent links (as
    after any run of [Insert] calls), [Delete] on a node of the tree
    returns.  When the node has at most one child the call detaches it, and
    a second [Delete] on the same handle panics: [which] returns -1, which
    [Delete] uses as the index of the child slot. *)
Theorem Delete_once_then_stale {K V : Type} `{KeyType K} (h : heap K V) s t ns a :
  wf h s t → visited h (Some s) = Ret ns → a ∈ ns →
  (∃ h', Delete h (Some a) = Ret h') ∧
  (∀ na, h !! a = Some na → (Child na).1 = None ∨ (Child na).2 = None →
     ∃ h', Delete h (Some a) = Ret h' ∧ which h' (Some a) = Ret (-1)%Z ∧
           Delete h' (Some a) = Panic).
Proof.
  intros Hwf Hns Ha. rewrite (visited_wf _ _ _ Hwf) in Hns. simplify_eq.
  split; [by eapply Delete_linked|].
  intros na Hna Hchild. by eapply Delete_twice.
Qed.

Lemma Delete_once_then_stale_witness :
  visited crooked (Some 0) = Ret [2; 1] ∧
  ∃ h', Delete crooked (Some 2) = Ret h' ∧ Delete h' (Some 2) = Panic.
Proof.
  split; [reflexivity|].
  destruct (Delete_once_then_stale crooked 0 _ [2; 1] 2 crooked_wf eq_refl)
    as [_ Hstale].
  { by left. }
  destruct (Hstale _ eq_refl) as (h' & Hd & _ & Hp).
  { by left. }
  by exists h'.
Defined.

(** * Further properties of [Insert], [Keys] and [Check] *)

(** X1.  After any run of [Insert] calls on a fresh tree, for any strictly
    ordered key type, the key stream is strictly ascending and holds
    exactly the inserted keys. *)
Theorem Keys_ascending {K V : Type} `{StrictOrderKey K} (kvs : list (K * V)) :
  ∃ (h : heap K V) s ks, build kvs = Ret (h, s) ∧
    Keys h (Some s) (λ _, false) = Ret (Some <$> ks) ∧
    StronglySorted lt ks ∧ ∀ k, k ∈ ks ↔ k ∈ kvs.*1.
Proof.
  destruct (build_wf kvs) as (h & s & Hbuild & Hwf).
  exists h, s, (keys (tinserts Leaf 1 kvs)). split; [done|].
  split; [by apply Keys_wf|]. by destruct (keys_built kvs) as (? & _ & ?).
Qed.

Lemma Keys_ascending_witness :
  ∃ (h : heap iKey Z) s,
    build [(2, 20); (3, 30); (1, 10); (2, 21)]%Z = Ret (h, s) ∧
    Keys h (Some s) (λ _, false) = Ret [Some 1; Some 2; Some 3]%Z.
Proof.
  destruct (Keys_ascending (K:=iKey) [(2, 20); (3, 30); (1, 10); (2, 21)]%Z)
    as (h & s & ks & Hbuild & Hkeys & _).
  exists h, s. split; [exact Hbuild|].
  vm_compute in Hbuild. injection Hbuild as <- <-. reflexivity.
Defined.

(** X2.  After any run of [Insert] calls on a fresh tree, [Check] emits
    nothing. *)
Theorem Check_after_inserts {K V : Type} `{StrictOrderKey K} (kvs : list (K * V)) :
  ∃ (h : heap K V) s, build kvs = Ret (h, s) ∧
    Check h (Some s) (λ _, false) = Ret [].
Proof.
  destruct (build_wf kvs) as (h & s & Hbuild & Hwf).
  exists h, s. split; [done|].
  apply (Check_bst _ _ _ Hwf). by apply bst_tinserts.
Qed.

Lemma Check_after_inserts_witness :
  ∃ (h : heap iKey Z) s, build kvs7 = Ret (h, s) ∧
    Check h (Some s) (λ _, false) = Ret [].
Proof. exact (Check_after_inserts (K:=iKey) kvs7). Defined.

(** X3.  After any run of [Insert] calls on a fresh tree the parent and child
    links agree: every non-nil child of the sentinel and of every node of
    the tree has that node as its parent. *)
Theorem Insert_keeps_links {K V : Type} `{KeyType K} (kvs : list (K * V)) :
  ∃ (h : heap K V) s, build kvs = Ret (h, s) ∧ linked h s.
Proof.
  destruct (build_wf kvs) as (h & s & Hbuild & Hwf).
  exists h, s. split; [done|]. by eapply wf_linked.
Qed.

Lemma tget_tinsert_same {K V : Type} `{KeyType K} (t : tree (K:=K) (V:=V)) k v new a w :
  tget t k = Some (a, w) → tget (tinsert t k v new) k = Some (a, v).
Proof.
  induction t as [|l IHl b x u r IHr]; simpl; [done|].
  destruct (Less k x) eqn:Hkx; simpl; [by rewrite Hkx|].
  destruct (Less x k) eqn:Hxk; simpl; rewrite Hkx, Hxk; [done|].
  by intros [= <- <-].
Qed.

(** X4.  [Insert] on a tree: the key is found afterwards with the new value, in
    the node that held it before if there was one; a node is allocated
    exactly when the key was absent; and for every other key [Get] returns
    the same node as before, with the same key and value. *)
Theorem Insert_keeps_handles {K V : Type} `{StrictOrderKey K}
    (h : heap K V) s t k v :
  wf h s t →
  ∃ h', Insert h (Some s) k v = Ret h' ∧
    (∃ a nd, Get h' (Some s) k = Ret (Some a) ∧ h' !! a = Some nd ∧
             Key nd = Some k ∧ Value nd = Some v) ∧
    (∀ a, Get h (Some s) k = Ret (Some a) → Get h' (Some s) k = Ret (Some a)) ∧
    length h' = match Get h (Some s) k with
                | Ret None => S (length h)
                | _ => length h
                end ∧
    (∀ k', k' ≠ k →
       Get h' (Some s) k' = Get h (Some s) k' ∧
       ∀ a nd, Get h (Some s) k' = Ret (Some a) → h !! a = Some nd →
         ∃ nd', h' !! a = Some nd' ∧ Key nd' = Key nd ∧ Value nd' = Value nd).
Proof.
  intros Hwf. destruct (Insert_wf h s t k v Hwf) as (h' & Hins & Hwf' & Hlen).
  exists h'. split; [done|].
  pose proof Hwf as (sn & _ & _ & _ & _ & Hrep & _).
  pose proof Hwf' as (sn' & _ & _ & _ & _ & Hrep' & _).
  rewrite !(Get_wf _ _ _ _ Hwf). split; [|split; [|split]].
  - destruct (tget_tinsert_eq t k v (length h)) as [a Hget].
    destruct (tget_repr _ _ _ _ _ _ _ Hrep' Hget) as (nd & Ha & Hk & Hv).
    exists a, nd. by rewrite (Get_wf _ _ _ _ Hwf'), Hget.
  - intros a Hget. rewrite (Get_wf _ _ _ _ Hwf').
    destruct (tget t k) as [[a' w]|] eqn:Ht; [|done].
    simpl in Hget. simplify_eq.
    by rewrite (tget_tinsert_same _ _ _ _ _ _ Ht).
  - rewrite Hlen. by destruct (tget t k).
  - intros k' Hne.
    rewrite (Get_wf _ _ _ _ Hwf'), (Get_wf _ _ _ _ Hwf), tget_tinsert_ne by done.
    split; [done|]. intros a nd Hget Ha.
    destruct (tget t k') as [[a' w]|] eqn:Ht; [|done].
    simpl in Hget. simplify_eq.
    destruct (tget_repr _ _ _ _ _ _ _ Hrep Ht) as (nd0 & Ha0 & Hk0 & Hv0).
    rewrite Ha in Ha0. simplify_eq.
    assert (tget (tinsert t k v (length h)) k' = Some (a, w)) as Ht'
      by (by rewrite tget_tinsert_ne).
    destruct (tget_repr _ _ _ _ _ _ _ Hrep' Ht') as (nd' & Ha' & Hk' & Hv').
    exists nd'. split; [done|]. split; congruence.
Qed.

Lemma Insert_keeps_handles_witness :
  ∃ (h : heap iKey Z) s h',
    build kvs7 = Ret (h, s) ∧ Insert h (Some s) 9%Z 90%Z = Ret h' ∧
    length h' = S (length h) ∧
    Get h' (Some s) 3%Z = Get h (Some s) 3%Z.
Proof.
  destruct (build_wf (K:=iKey) kvs7) as (h & s & Hbuild & Hwf).
  destruct (Insert_keeps_handles h s _ 9%Z 90%Z Hwf)
    as (h' & Hins & _ & _ & Hlen & Hother).
  destruct (Hother 3%Z) as [Hget _]; [done|].
  exists h, s, h'. split; [exact Hbuild|]. split; [exact Hins|].
  split; [|exact Hget].
  rewrite Hlen. vm_compute in Hbuild. injection Hbuild as <- <-. reflexivity.
Defined.

(** X5.  The stream of [Keys] under cancellation: when the [select] reached
    after [i] hand-offs is the first to take the [ctx.Done()] branch, the
    traversal stops there and the stream is the first [i] keys of the
    stream that runs to its end. *)
Theorem Keys_cancelled_prefix {K V : Type} `{KeyType K}
    (h : heap K V) s t done ks i :
  wf h s t → Keys h (Some s) (λ _, false) = Ret ks →
  (∀ j, j < i → done j = false) → done i = true → i < length ks →
  Keys h (Some s) done = Ret (take i ks).
Proof.
  intros Hwf Hks Hbefore Hat Hlt.
  rewrite (Keys_wf _ _ _ Hwf) in Hks. simplify_eq.
  rewrite length_fmap in Hlt.
  by rewrite (Keys_cancel _ _ _ _ _ Hwf Hbefore Hat Hlt), fmap_take.
Qed.

Lemma Keys_cancelled_prefix_witness :
  Keys crooked (Some 0) (λ n, bool_decide (n = 1)) = Ret [Some 7%Z].
Proof.
  apply (Keys_cancelled_prefix crooked 0 _ _ [Some 7; Some 5]%Z 1 crooked_wf).
  - reflexivity.
  - intros j Hj. apply bool_decide_eq_false. lia.
  - reflexivity.
  - simpl. lia.
Defined.

(** * [Prev], and [Next] on any tree *)

Section Backwards.
Context {K V : Type} `{KeyType K}.
Implicit Types t l r : tree (K:=K) (V:=V).
Implicit Types h : heap K V.

(** Length of the [lo] spine below the root. *)
Fixpoint ldepth t : nat :=
  match t with
  | Leaf => 0
  | Node Leaf _ _ _ _ => 0
  | Node l _ _ _ _ => S (ldepth l)
  end.

Lemma ldepth_lt_height l a k v r : ldepth (Node l a k v r) < height (Node l a k v r).
Proof.
  revert a k v r. induction l as [|ll IH la lk lv lr _]; intros a k v r; [simpl; lia|].
  specialize (IH la lk lv lr).
  change (ldepth (Node (Node ll la lk lv lr) a k v r))
    with (S (ldepth (Node ll la lk lv lr))).
  change (height (Node (Node ll la lk lv lr) a k v r))
    with (S (height (Node ll la lk lv lr) `max` height r)). lia.
Qed.

Lemma opposite_lo : opposite lo = hi.
Proof. reflexivity. Qed.

Lemma last_app_cons {A : Type} (xs : list A) x ys :
  last (xs ++ x :: ys) = last (x :: ys).
Proof.
  rewrite last_app. destruct (last (x :: ys)) eqn:E; [done|].
  rewrite last_cons in E. by destruct (last ys).
Qed.

(** The [hi]-ward descent ends on the last node of the in-order walk. *)
Lemma descend_hi t : ∀ fuel h par a,
  repr h par (Some a) t → height t ≤ fuel →
  descend fuel h (Some a) hi = Ret (last (addrs t)).
Proof.
  induction t as [|l _ b x w r IHr]; intros fuel h par a Hrep Hfuel; [done|].
  destruct fuel as [|fuel]; [simpl in Hfuel; lia|].
  simpl in Hrep, Hfuel. destruct Hrep as (Heq & nd & Ha & Hk & Hv & Hp & Hl & Hr).
  symmetry in Heq; simplify_eq.
  simpl. rewrite (load_Some _ _ _ Ha), bind_Ret.
  destruct r as [|rl ra rx rw rr].
  - simpl in Hr. rewrite Hr. simpl. by rewrite last_snoc.
  - pose proof Hr as Hr0. simpl in Hr. destruct Hr as (Hc & _).
    rewrite Hc in Hr0 |- *.
    erewrite IHr; [|done|lia]. f_equal.
    change (addrs (Node rl ra rx rw rr)) with (addrs rl ++ ra :: addrs rr).
    rewrite (last_app_cons (addrs l)), last_cons.
    destruct (last (addrs rl ++ ra :: addrs rr)) eqn:E; [done|].
    rewrite last_app_cons, last_cons in E. by destruct (last (addrs rr)).
Qed.

(** From the first node of the in-order walk of a subtree, the climb along
    [lo] links comes back to the root of the subtree. *)
Lemma climb_first t : ∀ h par a,
  repr h par (Some a) t → NoDup (par :: addrs t) →
  ∃ b nb, addrs t !! 0 = Some b ∧ h !! b = Some nb ∧ (Child nb).1 = None ∧
          ∀ fuel, climb (ldepth t + fuel) h (Some b) lo = climb fuel h (Some a) lo.
Proof.
  induction t as [|l IHl c x w r _]; intros h par a Hrep Hnd; [done|].
  simpl in Hrep, Hnd. destruct Hrep as (Heq & nd & Ha & Hk & Hv & Hp & Hl & Hr).
  symmetry in Heq; simplify_eq.
  apply NoDup_node in Hnd as (Hndl & Hndr & Hne & Hdisj).
  destruct l as [|ll la lx lw lr].
  - simpl in Hl. exists a, nd. by simpl.
  - pose proof Hl as Hl0. simpl in Hl.
    destruct Hl as (Hc & nl & Hla & _ & _ & Hpl & _). rewrite Hc in Hl0.
    destruct (IHl h a la Hl0 Hndl) as (b & nb & Hfirst & Hb & Hblo & Hclimb).
    exists b, nb. split; [|split; [done|split; [done|]]].
    + change (addrs (Node (Node ll la lx lw lr) a x w r))
        with (addrs (Node ll la lx lw lr) ++ a :: addrs r).
      by apply lookup_app_l_Some.
    + intros fuel.
      change (ldepth (Node (Node ll la lx lw lr) a x w r))
        with (S (ldepth (Node ll la lx lw lr))).
      replace (S (ldepth (Node ll la lx lw lr)) + fuel)
        with (ldepth (Node ll la lx lw lr) + S fuel) by lia.
      rewrite Hclimb, climb_S, (which_lo h nd a la nl), bind_Ret by done.
      change (lo =? lo)%Z with true. cbv iota.
      unfold deref. by rewrite (load_Some _ _ _ Hla), bind_Ret, Hpl.
Qed.

(** [Prev] on a node that is not the first of the in-order walk returns
    the node that precedes it. *)
Lemma Prev_pred t : ∀ h par p,
  repr h par p t → NoDup (par :: addrs t) → height t ≤ length h →
  ∀ i b c, addrs t !! i = Some b → addrs t !! S i = Some c →
  Prev h (Some c) = Ret (Some b).
Proof.
  induction t as [|l IHl a x w r IHr]; intros h par p Hrep Hnd Hfuel i b c Hb Hc;
    [done|].
  simpl in Hrep, Hnd, Hfuel, Hb, Hc.
  destruct Hrep as (-> & nd & Ha & Hk & Hv & Hp & Hl & Hr).
  pose proof (slot_children l a x w r h par nd Ha Hl Hr Hnd) as [_ Hsr].
  apply NoDup_node in Hnd as (Hndl & Hndr & Hne & Hdisj).
  destruct (decide (S i < length (addrs l))) as [Hlt|Hge];
    [|destruct (decide (S i = length (addrs l))) as [Heq|Hne'];
      [|destruct (decide (i = length (addrs l))) as [Heq|Hgt]]].
  - rewrite lookup_app_l in Hb, Hc by lia.
    eapply (IHl h a); eauto. lia.
  - (* [c] is [a], its predecessor is the last node of [l] *)
    rewrite lookup_app_l in Hb by lia.
    rewrite lookup_app_r, Heq, Nat.sub_diag in Hc by lia. simpl in Hc. simplify_eq.
    destruct l as [|ll la lx lw lr]; [done|].
    pose proof Hl as Hl0. simpl in Hl. destruct Hl as (Hcl & _). rewrite Hcl in Hl0.
    unfold Prev. rewrite (next_eq h _ nd) by done.
    rewrite getIdx_lo, bind_Ret, Hcl, opposite_lo.
    erewrite descend_hi; [|done|unfold fuelOf; lia].
    rewrite last_lookup, <-Heq. simpl in Hb |- *. by rewrite Hb.
  - (* [b] is [a], and [c] the first node of [r] *)
    subst i.
    rewrite lookup_app_r, Nat.sub_diag in Hb by lia. simpl in Hb. simplify_eq.
    rewrite lookup_app_r in Hc by lia.
    replace (S (length (addrs l)) - length (addrs l)) with 1 in Hc by lia.
    simpl in Hc.
    destruct r as [|rl ra rx rw rr]; [done|].
    pose proof Hr as Hr0. simpl in Hr.
    destruct Hr as (Hcr & nr & Hra & _ & _ & Hpr & _). rewrite Hcr in Hr0.
    destruct (climb_first _ h b ra Hr0 Hndr) as (c' & nc & Hfirst & Hnc & Hclo & Hclimb).
    assert (c' = c) as -> by (simpl in Hfirst, Hc; congruence).
    pose proof (ldepth_lt_height rl ra rx rw rr) as Hld.
    destruct (Hsr ra eq_refl) as [[Hlo' Hhi']|[Hlo' Hhi']]; [congruence|].
    unfold Prev. rewrite (next_eq h _ nc) by done.
    rewrite getIdx_lo, bind_Ret, Hclo.
    replace (fuelOf h) with
      (ldepth (Node rl ra rx rw rr) + S (length h - ldepth (Node rl ra rx rw rr)))
      by (unfold fuelOf; lia).
    rewrite Hclimb, climb_S, (which_hi h nd b ra nr), bind_Ret by done.
    change (hi =? lo)%Z with false. cbv iota. rewrite bind_Ret.
    unfold deref. rewrite (load_Some _ _ _ Hra), bind_Ret, Hpr.
    by erewrite not_sentinel by done.
  - rewrite lookup_app_r in Hb, Hc by lia.
    replace (S i - length (addrs l)) with (S (i - length (addrs l))) in Hc by lia.
    destruct (i - length (addrs l)) as [|j] eqn:Hj; [lia|].
    simpl in Hb, Hc.
    eapply (IHr h); eauto. lia.
Qed.

End Backwards.

Section Walk.
Context {K V : Type} `{KeyType K}.
Implicit Types t l r : tree (K:=K) (V:=V).
Implicit Types h : heap K V.

Lemma which_sentinel h s t : wf h s t → which h (Some s) = Ret (-1)%Z.
Proof.
  intros (sn & Hs & Hp & _ & Hhi & Hrep & Hnd & _).
  unfold which, deref. rewrite (load_Some _ _ _ Hs), !bind_Ret, Hp.
  rewrite (load_Some _ _ _ Hs), !bind_Ret.
  rewrite bool_decide_eq_false_2.
  - rewrite bool_decide_eq_false_2; [done|]. by rewrite Hhi.
  - rewrite (repr_root _ _ _ _ Hrep). intros Hroot. symmetry in Hroot.
    apply root_elem_of in Hroot. by apply NoDup_cons in Hnd as [? _].
Qed.

Lemma which_node h s t a :
  wf h s t → a ∈ addrs t → which h (Some a) = Ret lo ∨ which h (Some a) = Ret hi.
Proof.
  intros Hwf Ha.
  destruct (wf_elem _ _ _ _ Hwf Ha) as (pc & npc & l & k & v & r & Hpc & Hslot & Hrep & _).
  simpl in Hrep. destruct Hrep as (_ & na & Hna & _ & _ & Hp & _).
  destruct Hslot as [[Hlo Hhi]|[Hlo Hhi]].
  - left. by apply (which_lo h npc pc a na).
  - right. by apply (which_hi h npc pc a na).
Qed.

(** [Prev] on the first node of the in-order walk returns nil: the climb
    passes the root and stops on the sentinel, which is in no slot of
    itself. *)
Lemma Prev_wf_first h s t b :
  wf h s t → addrs t !! 0 = Some b → Prev h (Some b) = Ret None.
Proof.
  intros Hwf Hfirst. pose proof (which_sentinel _ _ _ Hwf) as Hws.
  destruct Hwf as (sn & Hs & Hp & _ & Hhi & Hrep & Hnd & Hlen).
  destruct t as [|l a x w r]; [done|].
  pose proof Hrep as Hrep0. simpl in Hrep.
  destruct Hrep as (Hc & nd & Ha & _ & _ & Hpa & _). rewrite Hc in Hrep0.
  destruct (climb_first _ h s a Hrep0 Hnd) as (b' & nb & Hfirst' & Hnb & Hblo & Hclimb).
  rewrite Hfirst in Hfirst'. simplify_eq.
  pose proof (ldepth_lt_height l a x w r) as Hld.
  pose proof (height_le_size (Node l a x w r)).
  unfold Prev. rewrite (next_eq h _ nb) by done.
  rewrite getIdx_lo, bind_Ret, Hblo.
  replace (fuelOf h) with
    (ldepth (Node l a x w r) + S (S (length h - S (ldepth (Node l a x w r)))))
    by (unfold fuelOf; lia).
  rewrite Hclimb, climb_S, (which_lo h sn s a nd), bind_Ret by done.
  change (lo =? lo)%Z with true. cbv iota.
  change (deref h (Some a)) with (load h a).
  rewrite (load_Some _ _ _ Ha), bind_Ret, Hpa.
  rewrite climb_S, Hws, bind_Ret.
  change (-1 =? lo)%Z with false. cbv iota. rewrite bind_Ret.
  unfold deref. rewrite (load_Some _ _ _ Hs), bind_Ret, Hp.
  by erewrite is_sentinel by done.
Qed.

End Walk.

(** From the node at position [i] of the in-order sequence, [Next] leads
    to position [i+1] and [Prev] to position [i-1]. *)
Lemma walk_at {K V : Type} `{KeyType K} (h : heap K V) s t i a :
  wf h s t → addrs t !! i = Some a →
  Next h (Some a) = Ret (addrs t !! S i) ∧
  Prev h (Some a) = Ret (match i with 0 => None | S j => addrs t !! j end).
Proof.
  intros Hwf Ha. split.
  - destruct (addrs t !! S i) as [c|] eqn:Hc.
    + by destruct (Next_wf_succ _ _ _ _ _ _ Hwf Ha Hc).
    + apply lookup_ge_None in Hc. pose proof (lookup_lt_Some _ _ _ Ha).
      destruct (Next_wf_last h s t a Hwf) as [HN _]; [|done].
      rewrite last_lookup. by replace (pred (length (addrs t))) with i by lia.
  - destruct i as [|j]; [by eapply Prev_wf_first|].
    pose proof (lookup_lt_Some _ _ _ Ha).
    destruct (lookup_lt_is_Some_2 (addrs t) j) as [b Hb]; [lia|].
    rewrite Hb. destruct Hwf as (sn & Hs & Hp & _ & Hhi & Hrep & Hnd & Hlen).
    eapply Prev_pred; eauto. pose proof (height_le_size t). lia.
Qed.

(** X6.  On a tree with consistent links, [Next] and [Prev] walk the in-order
    sequence of nodes (the one [Visit] passes): from the node at position
    [i], [Next] returns the node at position [i+1], or nil from the last
    node, and [Prev] returns the node at position [i-1], or nil from the
    first. *)
Theorem Next_Prev_walk {K V : Type} `{KeyType K} (h : heap K V) s t ns i a :
  wf h s t → visited h (Some s) = Ret ns → ns !! i = Some a →
  Next h (Some a) = Ret (ns !! S i) ∧
  Prev h (Some a) = Ret (match i with 0 => None | S j => ns !! j end).
Proof.
  intros Hwf Hns Ha. rewrite (visited_wf _ _ _ Hwf) in Hns. simplify_eq.
  exact (walk_at h s t i a Hwf Ha).
Qed.

Lemma Next_Prev_walk_witness :
  Next crooked (Some 2) = Ret (Some 1) ∧ Prev crooked (Some 2) = Ret None ∧
  Next crooked (Some 1) = Ret None ∧ Prev crooked (Some 1) = Ret (Some 2).
Proof.
  destruct (Next_Prev_walk crooked 0 _ [2; 1] 0 2 crooked_wf eq_refl eq_refl)
    as [HN0 HP0].
  destruct (Next_Prev_walk crooked 0 _ [2; 1] 1 1 crooked_wf eq_refl eq_refl)
    as [HN1 HP1].
  exact (conj HN0 (conj HP0 (conj HN1 HP1))).
Defined.

(** X7.  On a tree with consistent links [Prev] undoes [Next] and [Next] undoes
    [Prev]. *)
Theorem Prev_Next_inverse {K V : Type} `{KeyType K} (h : heap K V) s t ns a b :
  wf h s t → visited h (Some s) = Ret ns → a ∈ ns →
  (Next h (Some a) = Ret (Some b) → Prev h (Some b) = Ret (Some a)) ∧
  (Prev h (Some a) = Ret (Some b) → Next h (Some b) = Ret (Some a)).
Proof.
  intros Hwf Hns [i Hi]%list_elem_of_lookup.
  rewrite (visited_wf _ _ _ Hwf) in Hns. simplify_eq.
  destruct (walk_at h s t i a Hwf Hi) as [HN HP].
  split.
  - rewrite HN. intros [= Hb].
    destruct (walk_at h s t (S i) b Hwf Hb) as [_ HP'].
    by rewrite HP', Hi.
  - rewrite HP. destruct i as [|j]; [done|]. intros [= Hb].
    destruct (walk_at h s t j b Hwf Hb) as [HN' _].
    by rewrite HN', Hi.
Qed.

Lemma Prev_Next_inverse_witness :
  Next crooked (Some 2) = Ret (Some 1) ∧ Prev crooked (Some 1) = Ret (Some 2).
Proof.
  split; [reflexivity|].
  apply (Prev_Next_inverse crooked 0 _ [2; 1] 2 1 crooked_wf eq_refl).
  - by left.
  - reflexivity.
Defined.

(** X8.  On a tree with consistent links [which] finds every node of the tree
    in a slot of its parent (it returns [lo] or [hi]); on the sentinel it
    returns -1. *)
Theorem which_on_tree {K V : Type} `{KeyType K} (h : heap K V) s t ns :
  wf h s t → visited h (Some s) = Ret ns →
  which h (Some s) = Ret (-1)%Z ∧
  ∀ a, a ∈ ns → which h (Some a) = Ret lo ∨ which h (Some a) = Ret hi.
Proof.
  intros Hwf Hns. rewrite (visited_wf _ _ _ Hwf) in Hns. simplify_eq.
  split; [by eapply which_sentinel|]. intros a Ha. by eapply which_node.
Qed.

Lemma which_on_tree_witness :
  which crooked (Some 0) = Ret (-1)%Z ∧ which crooked (Some 1) = Ret lo.
Proof.
  destruct (which_on_tree crooked 0 _ [2; 1] crooked_wf eq_refl) as [Hs _].
  split; [exact Hs|reflexivity].
Defined.

(** * The tree that is left by [Delete] *)

(** [Delete] leaves the parent pointer of a promoted child as it was, so
    the heap after it is described without the parent pointers: [shape]
    asks of them only that no node is a sentinel. *)

Section Shape.
Context {K V : Type} `{KeyType K}.
Implicit Types t l r : tree (K:=K) (V:=V).
Implicit Types h : heap K V.

Fixpoint shape h (p : ptr) t : Prop :=
  match t with
  | Leaf => p = None
  | Node l a k v r =>
      p = Some a ∧
      ∃ nd, h !! a = Some nd ∧ Key nd = Some k ∧ Value nd = Some v ∧
            Parent nd ≠ Some a ∧
            shape h (Child nd).1 l ∧ shape h (Child nd).2 r
  end.

Definition holds h (s : addr) t : Prop :=
  ∃ sn, h !! s = Some sn ∧ Parent sn = Some s ∧
        shape h (Child sn).1 t ∧ height t < length h.

Lemma repr_shape t : ∀ h par p,
  repr h par p t → NoDup (par :: addrs t) → shape h p t.
Proof.
  induction t as [|l IHl a x w r IHr]; intros h par p; simpl; [done|].
  intros (-> & nd & Ha & Hk & Hv & Hp & Hl & Hr) Hnd.
  apply NoDup_node in Hnd as (Hndl & Hndr & Hne & _).
  split; [done|]. exists nd. do 3 (split; [done|]).
  split; [congruence|]. split; [by eapply IHl|by eapply IHr].
Qed.

Lemma wf_holds h s t : wf h s t → holds h s t.
Proof.
  intros (sn & Hs & Hp & _ & _ & Hrep & Hnd & Hlen).
  exists sn. do 2 (split; [done|]). split; [by eapply repr_shape|].
  pose proof (height_le_size t). lia.
Qed.

Lemma shape_not_sentinel h a nd :
  h !! a = Some nd → Parent nd ≠ Some a → IsSentinel h (Some a) = false.
Proof.
  intros Ha Hp. unfold IsSentinel. rewrite Ha. by apply bool_decide_eq_false.
Qed.

Lemma Get_shape t k : ∀ fuel h p,
  shape h p t → height t < fuel → Get_ fuel h p k = Ret (fst <$> tget t k).
Proof.
  induction t as [|l IHl a x w r IHr]; intros fuel h p Hsh Hfuel;
    (destruct fuel as [|fuel]; [lia|]); simpl in *.
  - by subst.
  - destruct Hsh as (-> & nd & Ha & Hk & Hv & Hp & Hl & Hr).
    rewrite (load_Some _ _ _ Ha), bind_Ret.
    rewrite (shape_not_sentinel _ _ _ Ha Hp), Hk. simpl.
    destruct (Less k x); simpl.
    + eapply IHl; eauto; lia.
    + destruct (Less x k); simpl; [|done]. eapply IHr; eauto; lia.
Qed.

Lemma Get_holds h s t k : holds h s t → Get h (Some s) k = Ret (fst <$> tget t k).
Proof.
  intros (sn & Hs & Hp & Hsh & Hlen).
  unfold Get, fuelOf. simpl. rewrite (load_Some _ _ _ Hs), bind_Ret.
  erewrite is_sentinel by done. simpl.
  by eapply Get_shape.
Qed.

Lemma tget_shape h p t k a v :
  shape h p t → tget t k = Some (a, v) →
  ∃ nd, h !! a = Some nd ∧ Value nd = Some v.
Proof.
  revert p. induction t as [|l IHl b x w r IHr]; intros p; simpl; [done|].
  intros (-> & nd & Hb & Hk & Hv & Hp & Hl & Hr).
  destruct (Less k x) eqn:Hkx; [by eauto|].
  destruct (Less x k) eqn:Hxk; [by eauto|].
  intros [= <- <-]. by exists nd.
Qed.

Lemma Visit_shape {S : Type} (f : addr → S → res (S * option error)) t :
  ∀ fuel h p st,
  shape h p t → height t < fuel →
  Visit_ fuel h p f st = visitAll f (addrs t) st.
Proof.
  induction t as [|l IHl a x w r IHr]; intros fuel h p st Hsh Hfuel;
    (destruct fuel as [|fuel]; [lia|]); simpl in *.
  - by subst.
  - destruct Hsh as (-> & nd & Ha & Hk & Hv & Hp & Hl & Hr).
    rewrite (load_Some _ _ _ Ha), bind_Ret.
    rewrite (shape_not_sentinel _ _ _ Ha Hp).
    rewrite visitAll_app. simpl.
    assert (Hlo : match (Child nd).1 with
                  | Some _ => Visit_ fuel h (Child nd).1 f st
                  | None => Ret (st, None)
                  end = visitAll f (addrs l) st).
    { destruct l; simpl in Hl.
      - by rewrite Hl.
      - destruct Hl as [Hc Hl']. rewrite Hc, <-Hc.
        eapply IHl; [by split|lia]. }
    rewrite Hlo.
    destruct (visitAll f (addrs l) st) as [[st1 [e|]]| |]; simpl; try done.
    destruct (f a st1) as [[st2 [e|]]| |]; simpl; try done.
    destruct r; simpl in Hr.
    + by rewrite Hr.
    + destruct Hr as [Hc Hr']. rewrite Hc, <-Hc.
      eapply IHr; [by split|lia].
Qed.

Lemma Visit_holds {S : Type} (f : addr → S → res (S * option error)) h s t st :
  holds h s t → Visit h (Some s) f st = visitAll f (addrs t) st.
Proof.
  intros (sn & Hs & Hp & Hsh & Hlen).
  unfold Visit, fuelOf. simpl. rewrite (load_Some _ _ _ Hs), bind_Ret.
  erewrite is_sentinel by done.
  by eapply Visit_shape.
Qed.

Lemma shape_nodes h p t :
  shape h p t →
  Forall2 (λ a k, ∃ nd, h !! a = Some nd ∧ Key nd = Some k) (addrs t) (keys t).
Proof.
  revert p. induction t as [|l IHl a x w r IHr]; intros p; simpl.
  - constructor.
  - intros (-> & nd & Ha & Hk & Hv & Hp & Hl & Hr).
    apply Forall2_app; [by eapply IHl|]. constructor; [by eauto|by eapply IHr].
Qed.

Lemma Keys_holds h s t :
  holds h s t → Keys h (Some s) (λ _, false) = Ret (Some <$> keys t).
Proof.
  intros Hh. unfold Keys. rewrite (Visit_holds _ _ _ _ _ Hh).
  destruct Hh as (sn & Hs & Hp & Hsh & Hlen).
  by erewrite visitAll_keys by (by eapply shape_nodes).
Qed.

Lemma shape_elem t : ∀ h p c,
  shape h p t → c ∈ addrs t →
  ∃ l k v r, shape h (Some c) (Node l c k v r) ∧ subtree (Node l c k v r) t.
Proof.
  induction t as [|l IHl a x w r IHr]; intros h p c Hsh Hin;
    [by apply elem_of_nil in Hin|].
  pose proof Hsh as Hsh0. simpl in Hsh, Hin.
  destruct Hsh as (-> & nd & Ha & Hk & Hv & Hp & Hl & Hr).
  apply elem_of_app in Hin as [Hin|[->|Hin]%elem_of_cons].
  - destruct (IHl h _ c Hl Hin) as (l' & k' & v' & r' & ? & ?).
    exists l', k', v', r'. split; [done|]. right. by left.
  - exists l, x, w, r. split; [done|]. by left.
  - destruct (IHr h _ c Hr Hin) as (l' & k' & v' & r' & ? & ?).
    exists l', k', v', r'. split; [done|]. right. by right.
Qed.

Lemma shape_root h p t : shape h p t → p = root t.
Proof. destruct t; simpl; [done | by intros [-> _]]. Qed.

Lemma badNode_shape h c l k v r :
  shape h (Some c) (Node l c k v r) → badNode h c = Ret (violates h c).
Proof.
  simpl. intros (_ & nd & Hc & Hk & _ & _ & Hl & Hr).
  unfold badNode, violates, childKey. rewrite (load_Some _ _ _ Hc), bind_Ret.
  rewrite Hc. simpl. rewrite Hk.
  destruct l as [|ll la lx lw lr]; simpl in Hl.
  - rewrite Hl. simpl. destruct r as [|rl ra rx rw rr]; simpl in Hr.
    + by rewrite Hr.
    + destruct Hr as (Hcr & nr & Hra & Hkr & _). rewrite Hcr.
      rewrite (load_Some _ _ _ Hra). simpl. by rewrite Hra; simpl; rewrite Hkr.
  - destruct Hl as (Hcl & nl & Hla & Hkl & _). rewrite Hcl.
    rewrite (load_Some _ _ _ Hla). simpl. rewrite Hla; simpl; rewrite Hkl. simpl.
    destruct r as [|rl ra rx rw rr]; simpl in Hr.
    + rewrite Hr. simpl. by rewrite orb_false_r.
    + destruct Hr as (Hcr & nr & Hra & Hkr & _). rewrite Hcr.
      rewrite (load_Some _ _ _ Hra). simpl. by rewrite Hra; simpl; rewrite Hkr.
Qed.

Lemma Check_holds h s t :
  holds h s t →
  Check h (Some s) (λ _, false) = Ret (filter (λ a, violates h a) (addrs t)).
Proof.
  intros Hh. unfold Check. rewrite (Visit_holds _ _ _ _ _ Hh).
  rewrite visitAll_check; [done|].
  intros a Ha. destruct Hh as (sn & Hs & Hp & Hsh & Hlen).
  destruct (shape_elem _ _ _ _ Hsh Ha) as (l & k & v & r & Hsub & _).
  by eapply badNode_shape.
Qed.

End Shape.

Section Removal.
Context {K V : Type} `{KeyType K}.
Implicit Types t l r : tree (K:=K) (V:=V).
Implicit Types h : heap K V.

(** What [relink] does to a child slot: the slot that holds [a] takes
    [x]. *)
Definition redirect (a : addr) (x c : ptr) : ptr :=
  if decide (c = Some a) then x else c.

(** The tree without the node at [a], when that node has at most one
    child: the child subtree takes its place. *)
Fixpoint tremove t (a : addr) : tree :=
  match t with
  | Leaf => Leaf
  | Node l b k v r =>
      if decide (b = a) then match r with Leaf => l | _ => r end
      else Node (tremove l a) b k v (tremove r a)
  end.

(** The tree with another key and value in the node at [a]. *)
Fixpoint tsetkv t (a : addr) (k' : K) (v' : V) : tree :=
  match t with
  | Leaf => Leaf
  | Node l b k v r =>
      if decide (b = a) then Node l b k' v' r
      else Node (tsetkv l a k' v') b k v (tsetkv r a k' v')
  end.

(** The nodes in order, each with its key and value. *)
Fixpoint nodes t : list (addr * (K * V)) :=
  match t with
  | Leaf => []
  | Node l a k v r => nodes l ++ (a, (k, v)) :: nodes r
  end.

Lemma nodes_addrs t : (nodes t).*1 = addrs t.
Proof.
  induction t as [|l IHl a k v r IHr]; simpl; [done|].
  by rewrite fmap_app, fmap_cons, IHl, IHr.
Qed.

Lemma nodes_keys t : (nodes t).*2.*1 = keys t.
Proof.
  induction t as [|l IHl a k v r IHr]; simpl; [done|].
  by rewrite !fmap_app, !fmap_cons, IHl, IHr.
Qed.

Lemma tremove_notin t a : a ∉ addrs t → tremove t a = t.
Proof.
  induction t as [|l IHl b k v r IHr]; simpl; [done|].
  rewrite elem_of_app, elem_of_cons. intros Hnotin.
  destruct (decide (b = a)) as [->|Hne]; [by destruct Hnotin; auto|].
  rewrite IHl, IHr by auto. done.
Qed.

Lemma tsetkv_notin t a k' v' : a ∉ addrs t → tsetkv t a k' v' = t.
Proof.
  induction t as [|l IHl b k v r IHr]; simpl; [done|].
  rewrite elem_of_app, elem_of_cons. intros Hnotin.
  destruct (decide (b = a)) as [->|Hne]; [by destruct Hnotin; auto|].
  rewrite IHl, IHr by auto. done.
Qed.

Lemma addrs_tsetkv t a k' v' : addrs (tsetkv t a k' v') = addrs t.
Proof.
  induction t as [|l IHl b k v r IHr]; simpl; [done|].
  destruct (decide (b = a)); simpl; [done|]. by rewrite IHl, IHr.
Qed.

Lemma height_tsetkv t a k' v' : height (tsetkv t a k' v') = height t.
Proof.
  induction t as [|l IHl b k v r IHr]; simpl; [done|].
  destruct (decide (b = a)); simpl; [done|]. by rewrite IHl, IHr.
Qed.

Lemma height_tremove t a : height (tremove t a) ≤ height t.
Proof.
  induction t as [|l IHl b k v r IHr]; simpl; [done|].
  destruct (decide (b = a)); simpl; [|lia].
  destruct r; simpl; lia.
Qed.

Lemma redirect_root t a x : a ∉ addrs t → redirect a x (root t) = root t.
Proof.
  intros Hnotin. unfold redirect. destruct (decide (root t = Some a)) as [Heq|]; [|done].
  by apply root_elem_of in Heq.
Qed.

(** The surgery: when every node of the tree is in [h'] what it is in [h]
    but for its child slots, redirected, the pointer that led to [t] leads,
    redirected, to the tree without the node. *)
Lemma shape_tremove t : ∀ h h' par p a x,
  repr h par p t → NoDup (par :: addrs t) →
  (∀ b nb, b ∈ addrs t → h !! b = Some nb →
     ∃ nb', h' !! b = Some nb' ∧ Key nb' = Key nb ∧ Value nb' = Value nb ∧
            Parent nb' = Parent nb ∧
            Child nb' = (redirect a x (Child nb).1, redirect a x (Child nb).2)) →
  (∀ na, h !! a = Some na →
     x = match (Child na).2 with None => (Child na).1 | Some _ => (Child na).2 end) →
  shape h' (redirect a x p) (tremove t a).
Proof.
  induction t as [|l IHl b k v r IHr]; intros h h' par p a x Hrep Hnd Hsame Hx.
  - simpl in *. subst. done.
  - pose proof Hnd as Hnd0. simpl in Hrep, Hnd.
    destruct Hrep as (-> & nd & Hb & Hk & Hv & Hp & Hl & Hr).
    apply NoDup_node in Hnd as (Hndl & Hndr & Hne & Hdisj).
    assert (Hsl : ∀ c nc, c ∈ addrs l → h !! c = Some nc →
       ∃ nc', h' !! c = Some nc' ∧ Key nc' = Key nc ∧ Value nc' = Value nc ∧
              Parent nc' = Parent nc ∧
              Child nc' = (redirect a x (Child nc).1, redirect a x (Child nc).2)).
    { intros c nc Hc. apply Hsame. simpl. apply elem_of_app. by left. }
    assert (Hsr : ∀ c nc, c ∈ addrs r → h !! c = Some nc →
       ∃ nc', h' !! c = Some nc' ∧ Key nc' = Key nc ∧ Value nc' = Value nc ∧
              Parent nc' = Parent nc ∧
              Child nc' = (redirect a x (Child nc).1, redirect a x (Child nc).2)).
    { intros c nc Hc. apply Hsame. simpl. apply elem_of_app. right. by right. }
    pose proof (IHl h h' b _ a x Hl Hndl Hsl Hx) as IHl'.
    pose proof (IHr h h' b _ a x Hr Hndr Hsr Hx) as IHr'.
    simpl. destruct (decide (b = a)) as [->|Hba].
    + apply NoDup_cons in Hndl as [Hal _]. apply NoDup_cons in Hndr as [Har _].
      rewrite (tremove_notin _ _ Hal) in IHl'. rewrite (tremove_notin _ _ Har) in IHr'.
      rewrite (repr_root _ _ _ _ Hl), redirect_root in IHl' by done.
      rewrite (repr_root _ _ _ _ Hr), redirect_root in IHr' by done.
      unfold redirect at 1. rewrite decide_True by done.
      rewrite (Hx nd Hb), (repr_root _ _ _ _ Hl), (repr_root _ _ _ _ Hr).
      by destruct r.
    + unfold redirect at 1. rewrite decide_False by congruence.
      destruct (Hsame b nd) as (nb' & Hb' & Hk' & Hv' & Hp' & Hc').
      { simpl. apply elem_of_app. right. by left. } { done. }
      simpl. split; [done|]. exists nb'. split; [done|].
      split; [congruence|]. split; [congruence|].
      split; [rewrite Hp', Hp; congruence|]. by rewrite Hc'.
Qed.

(** [relink] on a node that sits in one slot of its parent. *)
Lemma relink_redirect h c nc pc npc x :
  h !! c = Some nc → Parent nc = Some pc → h !! pc = Some npc →
  slot npc (Some c) →
  relink h (Some c) x =
    Ret (<[pc := setChild npc (redirect c x (Child npc).1,
                               redirect c x (Child npc).2)]> h).
Proof.
  intros Hc Hp Hpc Hslot. unfold relink, which, deref.
  rewrite (load_Some _ _ _ Hc), !bind_Ret, Hp. simpl.
  rewrite (load_Some _ _ _ Hpc), !bind_Ret. unfold redirect.
  destruct Hslot as [[Hlo Hhi]|[Hlo Hhi]].
  - rewrite bool_decide_eq_true_2 by done. rewrite bind_Ret.
    rewrite decide_True, decide_False by done. done.
  - rewrite bool_decide_eq_false_2 by done.
    rewrite bool_decide_eq_true_2 by done. rewrite bind_Ret.
    rewrite decide_False, decide_True by done. done.
Qed.

(** In a tree with consistent links a node has one parent: whoever holds
    it in a slot is the node its parent pointer leads to. *)
Lemma child_parent h s t b nb a na :
  wf h s t → b = s ∨ b ∈ addrs t → h !! b = Some nb →
  (Child nb).1 = Some a ∨ (Child nb).2 = Some a →
  h !! a = Some na → Parent na = Some b.
Proof.
  intros Hwf Hb Hnb Hchild Hna.
  destruct (wf_linked _ _ _ Hwf) as [Hs (ns & Hns & Hall)].
  rewrite (visited_wf _ _ _ Hwf) in Hns. simplify_eq.
  assert (linkedAt h b = true) as Hlinked by (destruct Hb as [->|?]; auto).
  unfold linkedAt in Hlinked. rewrite Hnb in Hlinked.
  apply andb_true_iff in Hlinked as [H1 H2].
  destruct Hchild as [Hc|Hc]; [rewrite Hc in H1|rewrite Hc in H2]; simpl in *.
  - rewrite Hna in H1. by apply bool_decide_eq_true in H1.
  - rewrite Hna in H2. by apply bool_decide_eq_true in H2.
Qed.

End Removal.

Section DeleteShape.
Context {K V : Type} `{KeyType K}.
Implicit Types t l r : tree (K:=K) (V:=V).
Implicit Types h : heap K V.

(** [Delete] on a node of the tree with at most one child. *)
Lemma Delete_single fuel h s t a na :
  wf h s t → a ∈ addrs t → h !! a = Some na →
  (Child na).1 = None ∨ (Child na).2 = None →
  ∃ h', Delete_ (S fuel) h (Some a) = Ret h' ∧ holds h' s (tremove t a).
Proof.
  intros Hwf Hin Ha Hchild.
  destruct (wf_elem _ _ _ _ Hwf Hin)
    as (pc & npc & l & k & v & r & Hpc & Hslot & Hrep & Hnd & _).
  simpl in Hrep. destruct Hrep as (_ & nd & Ha' & _ & _ & Hp & _).
  rewrite Ha in Ha'. symmetry in Ha'. simplify_eq.
  apply NoDup_cons in Hnd as [Hne _].
  assert (pc ≠ a) as Hpca.
  { intros ->. apply Hne. simpl. apply elem_of_app. right. by left. }
  pose proof (not_sentinel h pc a na Ha Hp Hpca) as Hsent.
  pose proof (lookup_lt_Some _ _ _ Hpc) as Hpclt.
  set (x := match (Child na).2 with None => (Child na).1 | Some _ => (Child na).2 end).
  assert (Delete_ (S fuel) h (Some a) = relink h (Some a) x) as Hdel.
  { rewrite (Delete_eq fuel h a na Hsent Ha). unfold x.
    destruct (Child na).2 as [c2|] eqn:E2; [|done].
    destruct Hchild as [E1|?]; [|done]. by rewrite E1. }
  rewrite Hdel, (relink_redirect h a na pc npc x Ha Hp Hpc Hslot).
  eexists. split; [done|].
  set (h' := <[pc := setChild npc (redirect a x (Child npc).1,
                                   redirect a x (Child npc).2)]> h).
  assert (Hsame : ∀ b nb, b = s ∨ b ∈ addrs t → h !! b = Some nb →
     ∃ nb', h' !! b = Some nb' ∧ Key nb' = Key nb ∧ Value nb' = Value nb ∧
            Parent nb' = Parent nb ∧
            Child nb' = (redirect a x (Child nb).1, redirect a x (Child nb).2)).
  { intros b nb Hb Hnb. destruct (decide (b = pc)) as [->|Hbpc].
    - rewrite Hpc in Hnb. simplify_eq. eexists. split.
      + unfold h'. by apply list_lookup_insert_eq.
      + done.
    - exists nb. split; [unfold h'; by rewrite list_lookup_insert_ne|].
      do 3 (split; [done|]).
      assert (∀ c, (c = (Child nb).1 ∨ c = (Child nb).2) → redirect a x c = c) as Hid.
      { intros c Hc. unfold redirect. destruct (decide (c = Some a)) as [->|]; [|done].
        destruct Hbpc. assert (Parent na = Some b) as Hpb.
        { eapply (child_parent h s t b nb a na); eauto.
          destruct Hc as [<-|<-]; auto. }
        congruence. }
      rewrite !Hid by auto. by destruct (Child nb). }
  destruct Hwf as (sn & Hs & Hps & _ & Hhi & Hrep & Hnds & Hlen).
  destruct (Hsame s sn) as (sn' & Hs' & _ & _ & Hps' & Hcs'); [by left|done|].
  exists sn'. split; [done|]. split; [congruence|]. split.
  - rewrite Hcs'. simpl. eapply shape_tremove; eauto.
    intros na' Hna'. rewrite Ha in Hna'. by simplify_eq.
  - unfold h'. rewrite length_insert.
    pose proof (height_tremove t a). pose proof (height_le_size t). lia.
Qed.

Lemma repr_setkv t a na k' v' : ∀ h par p,
  repr h par p t → NoDup (par :: addrs t) → h !! a = Some na →
  repr (<[a := setKeyValue na (Some k') (Some v')]> h) par p (tsetkv t a k' v').
Proof.
  induction t as [|l IHl b k v r IHr]; intros h par p Hrep Hnd Ha; [done|].
  simpl in Hrep, Hnd. destruct Hrep as (-> & nd & Hb & Hk & Hv & Hp & Hl & Hr).
  apply NoDup_node in Hnd as (Hndl & Hndr & Hne & _).
  pose proof (IHl h b _ Hl Hndl Ha) as IHl'.
  pose proof (IHr h b _ Hr Hndr Ha) as IHr'.
  simpl. destruct (decide (b = a)) as [->|Hba].
  - apply NoDup_cons in Hndl as [Hal _]. apply NoDup_cons in Hndr as [Har _].
    rewrite Ha in Hb. simplify_eq.
    rewrite tsetkv_notin in IHl', IHr' by done.
    simpl. split; [done|]. eexists. split.
    { apply list_lookup_insert_eq. by eapply lookup_lt_Some. }
    done.
  - simpl. split; [done|]. exists nd. by rewrite list_lookup_insert_ne.
Qed.

Lemma wf_setkv h s t a na k' v' :
  wf h s t → a ∈ addrs t → h !! a = Some na →
  wf (<[a := setKeyValue na (Some k') (Some v')]> h) s (tsetkv t a k' v').
Proof.
  intros (sn & Hs & Hp & Hkey & Hhi & Hrep & Hnd & Hlen) Hin Ha.
  exists sn. split.
  { rewrite list_lookup_insert_ne; [done|].
    intros ->. by apply NoDup_cons in Hnd as [? _]. }
  do 3 (split; [done|]). split; [by apply repr_setkv|].
  by rewrite addrs_tsetkv, length_insert.
Qed.

Lemma subtree_addrs t' t a : subtree t' t → a ∈ addrs t' → a ∈ addrs t.
Proof.
  induction t as [|l IHl b k v r IHr]; simpl.
  - by intros [->|[]].
  - intros [->|[Hs|Hs]] Ha; [done| |].
    + apply elem_of_app. left. auto.
    + apply elem_of_app. right. right. auto.
Qed.

(** The nodes of a represented tree hold the keys and values of the
    description. *)
Lemma repr_nodes_full h par p t :
  repr h par p t →
  Forall (λ n, ∃ nd, h !! n.1 = Some nd ∧ Key nd = Some n.2.1 ∧
                     Value nd = Some n.2.2) (nodes t).
Proof.
  revert par p. induction t as [|l IHl a x w r IHr]; intros par p; simpl.
  - constructor.
  - intros (-> & nd & Ha & Hk & Hv & Hp & Hl & Hr).
    apply Forall_app. split; [by eapply IHl|].
    constructor; [by exists nd|by eapply IHr].
Qed.

(** [Delete] on a node of the tree with two children: the node takes the
    key and value of the first node [c] of its [hi] subtree, and [c] is
    removed. *)
Lemma Delete_two h s t a na c1 c2 :
  wf h s t → a ∈ addrs t → h !! a = Some na →
  (Child na).1 = Some c1 → (Child na).2 = Some c2 →
  ∃ h' c kc vc la ka va ra rest,
    Delete h (Some a) = Ret h' ∧
    holds h' s (tremove (tsetkv t a kc vc) c) ∧
    subtree (Node la a ka va ra) t ∧ nodes ra = (c, (kc, vc)) :: rest.
Proof.
  intros Hwf Hin Ha E1 E2.
  destruct (wf_elem _ _ _ _ Hwf Hin)
    as (pc & npc & l & k & v & r & Hpc & Hslot & Hrep & Hnd & Hsub).
  simpl in Hrep. destruct Hrep as (_ & nd & Ha' & _ & _ & Hp & Hl & Hr).
  rewrite Ha in Ha'. symmetry in Ha'. simplify_eq.
  simpl in Hnd. apply NoDup_node in Hnd as (Hndl & Hndr & Hne & _).
  pose proof (not_sentinel h pc a na Ha Hp Hne) as Hsent.
  rewrite E2 in Hr.
  assert (Hheight : height r < length h).
  { destruct Hwf as (sn & _ & _ & _ & _ & _ & _ & Hlen).
    pose proof (subtree_height _ _ Hsub). pose proof (height_le_size t).
    simpl in *. lia. }
  destruct (descend_lo_node r (length h) h a c2 Hr) as (c & nc & Hd & Hc & Hnc & Hlo);
    [lia|].
  assert (addrs r !! 0 = Some c) as Hfirst.
  { pose proof (descend_lo r (length h) h a c2 Hr) as Hd'.
    rewrite Hd in Hd' by lia. by injection Hd'; [|lia]. }
  assert (∃ kc vc rest, nodes r = (c, (kc, vc)) :: rest ∧
            Key nc = Some kc ∧ Value nc = Some vc) as (kc & vc & rest & Hnodes & Hkc & Hvc).
  { pose proof (repr_nodes_full _ _ _ _ Hr) as Hall.
    rewrite <-nodes_addrs in Hfirst.
    destruct (nodes r) as [|[c' [kc vc]] rest]; [done|].
    simpl in Hfirst. simplify_eq.
    apply Forall_cons in Hall as [(nd' & Hnd' & Hk' & Hv') _]. simpl in *.
    rewrite Hnc in Hnd'. simplify_eq. by exists kc, vc, rest. }
  assert (c ≠ a) as Hca.
  { intros ->. by apply NoDup_cons in Hndr as [? _]. }
  assert (c ∈ addrs t) as Hct.
  { eapply subtree_addrs; [exact Hsub|]. simpl. apply elem_of_app. right. by right. }
  pose proof (wf_setkv h s t a na kc vc Hwf Hin Ha) as Hwf1.
  set (h1 := <[a := setKeyValue na (Some kc) (Some vc)]> h) in *.
  assert (h1 !! c = Some nc) as Hc1 by (unfold h1; by rewrite list_lookup_insert_ne).
  unfold Delete, fuelOf. rewrite (Delete_eq _ h a na Hsent Ha), E1, E2.
  rewrite Hd, bind_Ret. unfold deref. rewrite (load_Some _ _ _ Hnc), bind_Ret.
  rewrite Hkc, Hvc. fold h1.
  destruct (length h) as [|n] eqn:Hlen; [lia|].
  destruct (Delete_single n h1 s (tsetkv t a kc vc) c nc Hwf1) as (h' & Hdel & Hholds);
    [by rewrite addrs_tsetkv|done|by left|].
  exists h', c, kc, vc, l, k, v, r, rest. done.
Qed.

End DeleteShape.

Section DeleteNodes.
Context {K V : Type} `{KeyType K}.
Implicit Types t l r : tree (K:=K) (V:=V).
Implicit Types h : heap K V.

Lemma subtree_root t l a k v r : subtree (Node l a k v r) t → a ∈ addrs t.
Proof.
  intros Hsub. eapply subtree_addrs; [exact Hsub|].
  simpl. apply elem_of_app. right. by left.
Qed.

(** Removing the first node of the in-order walk. *)
Lemma remove_first r : ∀ par c e rest,
  nodes r = (c, e) :: rest → NoDup (par :: addrs r) →
  nodes (tremove r c) = rest.
Proof.
  induction r as [|l IHl b k v r' _]; intros par c e rest Hnodes Hnd; [done|].
  simpl in Hnodes, Hnd. apply NoDup_node in Hnd as (Hndl & Hndr & Hne & Hdisj).
  simpl. destruct (nodes l) as [|n ns] eqn:Hl.
  - simpl in Hnodes. simplify_eq. rewrite decide_True by done.
    destruct l as [|l1 ? ? ? l2]; [|simpl in Hl; by destruct (nodes l1)].
    by destruct r'.
  - simpl in Hnodes. simplify_eq.
    assert (c ∈ addrs l) as Hcl.
    { rewrite <-nodes_addrs, Hl. simpl. by left. }
    assert (b ≠ c) as Hbc.
    { intros ->. by apply NoDup_cons in Hndl as [? _]. }
    rewrite decide_False by done. simpl.
    rewrite (IHl b c e ns) by done.
    by rewrite (tremove_notin r') by (by apply Hdisj).
Qed.

(** The nodes of the tree without a node that has at most one child. *)
Lemma single_split t : ∀ par la a ka va ra,
  subtree (Node la a ka va ra) t → NoDup (par :: addrs t) →
  la = Leaf ∨ ra = Leaf →
  ∃ n1 n2, nodes t = n1 ++ (a, (ka, va)) :: n2 ∧ nodes (tremove t a) = n1 ++ n2.
Proof.
  induction t as [|l IHl b k v r IHr]; intros par la a ka va ra Hsub Hnd Hone.
  - by destruct Hsub as [?|[]].
  - pose proof Hnd as Hnd0. simpl in Hnd.
    apply NoDup_node in Hnd as (Hndl & Hndr & Hne & Hdisj).
    apply NoDup_cons in Hndl as Hbl. destruct Hbl as [Hbl _].
    apply NoDup_cons in Hndr as Hbr. destruct Hbr as [Hbr _].
    destruct Hsub as [Heq|[Hsub|Hsub]].
    + simplify_eq. exists (nodes l), (nodes r). split; [done|].
      simpl. rewrite decide_True by done.
      destruct r; [by rewrite app_nil_r|]. by destruct Hone as [->|?].
    + pose proof (subtree_root _ _ _ _ _ _ Hsub) as Hal.
      assert (b ≠ a) as Hba by (intros ->; done).
      destruct (IHl b la a ka va ra Hsub Hndl Hone) as (n1 & n2 & Hn & Hn').
      exists n1, (n2 ++ (b, (k, v)) :: nodes r). simpl.
      rewrite decide_False by done. simpl.
      rewrite (tremove_notin r) by (by apply Hdisj).
      rewrite Hn, Hn'. by rewrite <-!app_assoc.
    + pose proof (subtree_root _ _ _ _ _ _ Hsub) as Har.
      assert (b ≠ a) as Hba by (intros ->; done).
      assert (a ∉ addrs l) as Hal by (intros ?; by eapply Hdisj).
      destruct (IHr b la a ka va ra Hsub Hndr Hone) as (n1 & n2 & Hn & Hn').
      exists (nodes l ++ (b, (k, v)) :: n1), n2. simpl.
      rewrite decide_False by done. simpl.
      rewrite (tremove_notin l) by done.
      rewrite Hn, Hn'. by rewrite <-!app_assoc.
Qed.

(** The keys and values of the tree in which a node with two children has
    taken the key and value of the first node of its [hi] subtree, that
    node being removed. *)
Lemma two_split t : ∀ par la a ka va ra c kc vc rest,
  subtree (Node la a ka va ra) t → NoDup (par :: addrs t) →
  nodes ra = (c, (kc, vc)) :: rest →
  ∃ n1 n2, nodes t = n1 ++ (a, (ka, va)) :: n2 ∧
           (nodes (tremove (tsetkv t a kc vc) c)).*2 = (n1 ++ n2).*2.
Proof.
  induction t as [|l IHl b k v r IHr];
    intros par la a ka va ra c kc vc rest Hsub Hnd Hnodes.
  - by destruct Hsub as [?|[]].
  - pose proof Hnd as Hnd0. simpl in Hnd.
    apply NoDup_node in Hnd as (Hndl & Hndr & Hne & Hdisj).
    apply NoDup_cons in Hndl as Hbl. destruct Hbl as [Hbl _].
    apply NoDup_cons in Hndr as Hbr. destruct Hbr as [Hbr _].
    assert (c ∈ addrs ra) as Hcra.
    { rewrite <-nodes_addrs, Hnodes. simpl. by left. }
    assert (c ∈ addrs (Node la a ka va ra)) as Hcsub.
    { simpl. apply elem_of_app. right. by right. }
    destruct Hsub as [Heq|[Hsub|Hsub]].
    + simplify_eq. exists (nodes l), (nodes r). split; [done|].
      assert (b ≠ c) as Hbc by (intros ->; done).
      simpl. rewrite decide_True by done. simpl. rewrite decide_False by done.
      simpl. rewrite (tremove_notin l) by (intros ?; by eapply Hdisj).
      rewrite (remove_first r b c (kc, vc) rest Hnodes Hndr).
      rewrite Hnodes. by rewrite !fmap_app, !fmap_cons.
    + pose proof (subtree_root _ _ _ _ _ _ Hsub) as Hal.
      pose proof (subtree_addrs _ _ _ Hsub Hcsub) as Hcl.
      assert (b ≠ a) as Hba by (intros ->; done).
      assert (b ≠ c) as Hbc by (intros ->; done).
      destruct (IHl b la a ka va ra c kc vc rest Hsub Hndl Hnodes) as (n1 & n2 & Hn & Hn').
      exists n1, (n2 ++ (b, (k, v)) :: nodes r). simpl.
      rewrite decide_False by done. simpl. rewrite decide_False by done. simpl.
      rewrite (tsetkv_notin r), (tremove_notin r) by (by apply Hdisj).
      rewrite Hn. split; [by rewrite <-!app_assoc|].
      rewrite fmap_app, Hn'. by rewrite !fmap_app, <-!app_assoc, !fmap_cons.
    + pose proof (subtree_root _ _ _ _ _ _ Hsub) as Har.
      pose proof (subtree_addrs _ _ _ Hsub Hcsub) as Hcr.
      assert (b ≠ a) as Hba by (intros ->; done).
      assert (b ≠ c) as Hbc by (intros ->; done).
      assert (a ∉ addrs l) as Hal by (intros ?; by eapply Hdisj).
      assert (c ∉ addrs l) as Hcl by (intros ?; by eapply Hdisj).
      destruct (IHr b la a ka va ra c kc vc rest Hsub Hndr Hnodes) as (n1 & n2 & Hn & Hn').
      exists (nodes l ++ (b, (k, v)) :: n1), n2. simpl.
      rewrite decide_False by done. simpl. rewrite decide_False by done. simpl.
      rewrite (tsetkv_notin l), (tremove_notin l) by done.
      rewrite Hn. split; [by rewrite <-!app_assoc|].
      rewrite fmap_app, fmap_cons, Hn'.
      by rewrite !fmap_app, <-!app_assoc, !fmap_cons.
Qed.

(** [Delete] on a node of a tree with consistent links returns, and leaves
    a tree that holds, in order, the keys and values of the tree before
    but for those of the node. *)
Lemma Delete_nodes h s t a :
  wf h s t → a ∈ addrs t →
  ∃ h' t' n1 e n2,
    Delete h (Some a) = Ret h' ∧ holds h' s t' ∧
    nodes t = n1 ++ (a, e) :: n2 ∧ (nodes t').*2 = (n1 ++ n2).*2.
Proof.
  intros Hwf Hin.
  destruct (wf_elem _ _ _ _ Hwf Hin)
    as (pc & npc & l & k & v & r & Hpc & Hslot & Hrep & Hnd & Hsub).
  simpl in Hrep. destruct Hrep as (_ & na & Ha & _ & _ & Hp & Hl & Hr).
  pose proof Hwf as (sn & _ & _ & _ & _ & _ & Hnds & _).
  destruct (Child na).1 as [c1|] eqn:E1; [destruct (Child na).2 as [c2|] eqn:E2|].
  - destruct (Delete_two h s t a na c1 c2 Hwf Hin Ha E1 E2)
      as (h' & c & kc & vc & la & ka & va & ra & rest & Hdel & Hholds & Hsub' & Hnodes).
    destruct (two_split t s la a ka va ra c kc vc rest Hsub' Hnds Hnodes)
      as (n1 & n2 & Hn & Hn').
    by exists h', (tremove (tsetkv t a kc vc) c), n1, (ka, va), n2.
  - destruct (Delete_single (length h) h s t a na Hwf Hin Ha) as (h' & Hdel & Hholds);
      [by rewrite E2; right|].
    destruct (single_split t s l a k v r Hsub Hnds) as (n1 & n2 & Hn & Hn').
    { right. apply repr_root in Hr. by destruct r. }
    exists h', (tremove t a), n1, (k, v), n2. by rewrite Hn'.
  - destruct (Delete_single (length h) h s t a na Hwf Hin Ha) as (h' & Hdel & Hholds);
      [by rewrite E1; left|].
    destruct (single_split t s l a k v r Hsub Hnds) as (n1 & n2 & Hn & Hn').
    { left. apply repr_root in Hl. by destruct l. }
    exists h', (tremove t a), n1, (k, v), n2. by rewrite Hn'.
Qed.

End DeleteNodes.

Section DeleteOrdered.
Context {K V : Type} `{StrictOrderKey K}.
Implicit Types t l r : tree (K:=K) (V:=V).
Implicit Types h : heap K V.

(** A tree whose in-order walk is strictly increasing is a search tree. *)
Lemma sorted_bst t : StronglySorted lt (keys t) → bst t.
Proof.
  induction t as [|l IHl a x w r IHr]; simpl; [done|].
  intros (Hlr & Hl & Hr)%StronglySorted_app.
  apply StronglySorted_cons in Hr as [Hx Hr]. rewrite Forall_forall in Hx.
  split; [auto|]. split; [auto|]. split.
  - intros y Hy. apply (Hlr y x Hy). by left.
  - intros y Hy. by apply Hx.
Qed.

Lemma sorted_app_del (xs ys : list K) x :
  StronglySorted lt (xs ++ x :: ys) → StronglySorted lt (xs ++ ys).
Proof.
  intros (Hlr & Hl & Hr)%StronglySorted_app.
  apply StronglySorted_cons in Hr as [_ Hr].
  apply StronglySorted_app_2; [|done|done].
  intros x1 x2 H1 H2. apply Hlr; [done|]. by right.
Qed.

Lemma tget_nodes t k a v : tget t k = Some (a, v) → (a, (k, v)) ∈ nodes t.
Proof.
  induction t as [|l IHl b x w r IHr]; simpl; [done|].
  rewrite elem_of_app, elem_of_cons.
  destruct (Less k x) eqn:Hkx; [by auto|].
  destruct (Less x k) eqn:Hxk; [by auto|].
  intros [= <- <-]. right. left. do 2 f_equal. by apply Less_connex.
Qed.

Lemma nodes_key_elem_of t a k v : (a, (k, v)) ∈ nodes t → k ∈ keys t.
Proof.
  intros Hin. rewrite <-nodes_keys.
  apply list_elem_of_fmap. exists (k, v). split; [done|].
  apply list_elem_of_fmap. by exists (a, (k, v)).
Qed.

Lemma bst_nodes_tget t a k v :
  bst t → (a, (k, v)) ∈ nodes t → tget t k = Some (a, v).
Proof.
  induction t as [|l IHl b x w r IHr]; simpl; [by intros _ ?%elem_of_nil|].
  intros (Hl & Hr & Hlt & Hgt). rewrite elem_of_app, elem_of_cons.
  intros [Hin|[Heq|Hin]].
  - rewrite (Hlt k) by (by eapply nodes_key_elem_of). auto.
  - simplify_eq. by rewrite Less_irrefl.
  - pose proof (Hgt k (nodes_key_elem_of _ _ _ _ Hin)) as Hxk.
    rewrite (bst_asym _ _ Hxk), Hxk. auto.
Qed.

Lemma shape_root_key h p t a nd k :
  shape h p t → root t = Some a → h !! a = Some nd → Key nd = Some k →
  k ∈ keys t.
Proof.
  destruct t as [|l b x w r]; simpl; [done|].
  intros (_ & nd' & Hb & Hk & _) [= ->] Ha Hk'.
  rewrite Ha in Hb. simplify_eq.
  apply elem_of_app. right. by left.
Qed.

Lemma violates_shape_bst h c l k v r :
  shape h (Some c) (Node l c k v r) → bst (Node l c k v r) →
  violates h c = false.
Proof.
  simpl. intros (_ & nd & Hc & Hk & _ & _ & Hl & Hr) (_ & _ & Hlt & Hgt).
  unfold violates, childKey. rewrite Hc. simpl. rewrite Hk.
  apply orb_false_iff. split.
  - destruct (Child nd).1 as [la|] eqn:Hcl; simpl; [|done].
    destruct (h !! la) as [nl|] eqn:Hla; simpl; [|done].
    destruct (Key nl) as [kl|] eqn:Hkl; [|done].
    rewrite (Hlt kl); [done|].
    eapply shape_root_key; eauto. symmetry. by eapply shape_root.
  - destruct (Child nd).2 as [ra|] eqn:Hcr; simpl; [|done].
    destruct (h !! ra) as [nr|] eqn:Hra; simpl; [|done].
    destruct (Key nr) as [kr|] eqn:Hkr; [|done].
    rewrite (Hgt kr); [done|].
    eapply shape_root_key; eauto. symmetry. by eapply shape_root.
Qed.

Lemma Check_holds_bst h s t :
  holds h s t → bst t → Check h (Some s) (λ _, false) = Ret [].
Proof.
  intros Hh Hbst. rewrite (Check_holds _ _ _ Hh). f_equal.
  apply filter_none. intros a Ha. destruct Hh as (sn & Hs & Hp & Hsh & Hlen).
  destruct (shape_elem _ _ _ _ Hsh Ha) as (l & k & v & r & Hsub & Hst).
  eapply violates_shape_bst; [done|]. by eapply bst_subtree.
Qed.

(** [Delete] on a node of a search tree with consistent links leaves a
    search tree with the same keys and values but for those of the
    node. *)
Lemma Delete_tree h s t a :
  wf h s t → bst t → a ∈ addrs t →
  ∃ h' t' ks1 k ks2 na,
    Delete h (Some a) = Ret h' ∧ holds h' s t' ∧ bst t' ∧
    h !! a = Some na ∧ Key na = Some k ∧
    keys t = ks1 ++ k :: ks2 ∧ keys t' = ks1 ++ ks2 ∧
    ∀ k' v', k' ≠ k → (k', v') ∈ (nodes t).*2 → (k', v') ∈ (nodes t').*2.
Proof.
  intros Hwf Hbst Hin.
  destruct (Delete_nodes h s t a Hwf Hin)
    as (h' & t' & n1 & [k v] & n2 & Hdel & Hholds & Hn & Hn').
  pose proof Hwf as (sn & _ & _ & _ & _ & Hrep & _).
  pose proof (repr_nodes_full _ _ _ _ Hrep) as Hall.
  rewrite Hn, Forall_app, Forall_cons in Hall.
  destruct Hall as (_ & (na & Hna & Hk & _) & _). simpl in Hna, Hk.
  assert (keys t = n1.*2.*1 ++ k :: n2.*2.*1) as Hkeys.
  { by rewrite <-nodes_keys, Hn, !fmap_app, !fmap_cons. }
  assert (keys t' = n1.*2.*1 ++ n2.*2.*1) as Hkeys'.
  { by rewrite <-nodes_keys, Hn', !fmap_app. }
  exists h', t', (n1.*2.*1), k, (n2.*2.*1), na.
  do 2 (split; [done|]). split.
  { apply sorted_bst. rewrite Hkeys'. eapply sorted_app_del.
    rewrite <-Hkeys. by apply bst_sorted. }
  do 4 (split; [done|]).
  intros k' v' Hne. rewrite Hn, Hn', !fmap_app, fmap_cons, !elem_of_app, elem_of_cons.
  simpl. intros [?|[?|?]]; [by left|by simplify_eq|by right].
Qed.

End DeleteOrdered.

(** * [Delete] on a search tree *)

(** X9.  On a tree with consistent links whose key stream is strictly
    ascending, [Delete] on a node of the tree returns; afterwards the key
    stream is the one before without the key of the node, and [Check]
    emits nothing. *)
Theorem Delete_then_Keys {K V : Type} `{StrictOrderKey K}
    (h : heap K V) s t ns ks a :
  wf h s t → Keys h (Some s) (λ _, false) = Ret (Some <$> ks) →
  StronglySorted lt ks → visited h (Some s) = Ret ns → a ∈ ns →
  ∃ h' na k ks1 ks2,
    Delete h (Some a) = Ret h' ∧ h !! a = Some na ∧ Key na = Some k ∧
    ks = ks1 ++ k :: ks2 ∧
    Keys h' (Some s) (λ _, false) = Ret (Some <$> (ks1 ++ ks2)) ∧
    Check h' (Some s) (λ _, false) = Ret [].
Proof.
  intros Hwf Hks Hsorted Hns Ha.
  rewrite (visited_wf _ _ _ Hwf) in Hns. simplify_eq.
  rewrite (Keys_wf _ _ _ Hwf) in Hks. injection Hks as Hks.
  apply (inj (fmap Some)) in Hks. subst ks.
  destruct (Delete_tree h s t a Hwf (sorted_bst _ Hsorted) Ha)
    as (h' & t' & ks1 & k & ks2 & na & Hdel & Hholds & Hbst' & Hna & Hk & Hkeys & Hkeys' & _).
  exists h', na, k, ks1, ks2. do 4 (split; [done|]). split.
  - by rewrite (Keys_holds _ _ _ Hholds), Hkeys'.
  - by apply (Check_holds_bst _ _ _ Hholds).
Qed.

(** X10.  On a tree with consistent links whose key stream is strictly
    ascending, after [Delete] on a node of the tree [Get] returns nil
    for the key of the node, and for every other key that [Get] found
    before it returns a node that holds the value found before. *)
Theorem Delete_then_Get {K V : Type} `{StrictOrderKey K}
    (h : heap K V) s t ns ks a :
  wf h s t → Keys h (Some s) (λ _, false) = Ret (Some <$> ks) →
  StronglySorted lt ks → visited h (Some s) = Ret ns → a ∈ ns →
  ∃ h' na k,
    Delete h (Some a) = Ret h' ∧ h !! a = Some na ∧ Key na = Some k ∧
    Get h' (Some s) k = Ret None ∧
    ∀ k' b nb, k' ≠ k → Get h (Some s) k' = Ret (Some b) → h !! b = Some nb →
      ∃ b' nb', Get h' (Some s) k' = Ret (Some b') ∧ h' !! b' = Some nb' ∧
                Value nb' = Value nb.
Proof.
  intros Hwf Hks Hsorted Hns Ha.
  rewrite (visited_wf _ _ _ Hwf) in Hns. simplify_eq.
  rewrite (Keys_wf _ _ _ Hwf) in Hks. injection Hks as Hks.
  apply (inj (fmap Some)) in Hks. subst ks.
  pose proof (sorted_bst _ Hsorted) as Hbst.
  destruct (Delete_tree h s t a Hwf Hbst Ha)
    as (h' & t' & ks1 & k & ks2 & na & Hdel & Hholds & Hbst' & Hna & Hk & Hkeys & Hkeys' & Hrest).
  exists h', na, k. do 3 (split; [done|]). split.
  - rewrite (Get_holds _ _ _ _ Hholds).
    destruct (tget t' k) as [[b w]|] eqn:Hget; [|done].
    apply tget_Some_key in Hget. rewrite Hkeys' in Hget.
    apply sorted_NoDup in Hsorted. rewrite Hkeys in Hsorted.
    apply NoDup_app in Hsorted as (_ & Hd & [Hk2 _]%NoDup_cons).
    apply elem_of_app in Hget as [Hin|Hin]; [|done].
    destruct (Hd k Hin). by left.
  - intros k' b nb Hne Hget Hb. rewrite (Get_wf _ _ _ _ Hwf) in Hget.
    destruct (tget t k') as [[b0 w]|] eqn:Ht; [|done].
    simpl in Hget. simplify_eq.
    pose proof Hwf as (sn & _ & _ & _ & _ & Hrep & _).
    destruct (tget_repr _ _ _ _ _ _ _ Hrep Ht) as (nb0 & Hb0 & _ & Hv0).
    rewrite Hb in Hb0. simplify_eq.
    assert ((k', w) ∈ (nodes t').*2) as Hin.
    { apply Hrest; [done|]. apply list_elem_of_fmap.
      exists (b, (k', w)). split; [done|]. by apply tget_nodes. }
    apply list_elem_of_fmap in Hin as ([b' [k'' w']] & Heq & Hin).
    simpl in Heq. simplify_eq.
    pose proof (bst_nodes_tget _ _ _ _ Hbst' Hin) as Ht'.
    destruct Hholds as (sn' & Hs' & Hp' & Hsh' & Hlen').
    destruct (tget_shape _ _ _ _ _ _ Hsh' Ht') as (nb' & Hnb' & Hv').
    exists b', nb'. split; [|split; [done|congruence]].
    rewrite (Get_holds h' s t'); [by rewrite Ht'|]. by exists sn'.
Qed.

(** A tree built from the key/value pairs [3 1 5 0 2 4 6 ↦ -k]. *)
Definition ordered7 : heap iKey Z :=
  Eval vm_compute in
    match build kvs7 with Ret (h, _) => h | _ => [] end.

Lemma ordered7_wf : wf ordered7 0 (tinserts Leaf 1 kvs7).
Proof.
  destruct (build_wf kvs7) as (h & s & Hb & Hwf).
  vm_compute in Hb. injection Hb as <- <-. exact Hwf.
Qed.

Lemma Delete_then_Keys_witness :
  ∃ h' na k ks1 ks2,
    Delete ordered7 (Some 1) = Ret h' ∧ ordered7 !! 1 = Some na ∧
    Key na = Some k ∧ seqZ 0 7 = ks1 ++ k :: ks2 ∧
    Keys h' (Some 0) (λ _, false) = Ret (Some <$> (ks1 ++ ks2)) ∧
    Check h' (Some 0) (λ _, false) = Ret [].
Proof.
  apply (Delete_then_Keys ordered7 0 _ [4; 2; 5; 1; 6; 3; 7] (seqZ 0 7) 1
           ordered7_wf).
  - reflexivity.
  - apply (seqZ_sorted 7 0).
  - reflexivity.
  - do 3 apply list_elem_of_further. apply list_elem_of_here.
Defined.

Lemma Delete_then_Get_witness :
  ∃ h' na k,
    Delete ordered7 (Some 2) = Ret h' ∧ ordered7 !! 2 = Some na ∧
    Key na = Some k ∧ Get h' (Some 0) k = Ret None ∧
    ∀ k' b nb, k' ≠ k → Get ordered7 (Some 0) k' = Ret (Some b) →
      ordered7 !! b = Some nb →
      ∃ b' nb', Get h' (Some 0) k' = Ret (Some b') ∧ h' !! b' = Some nb' ∧
                Value nb' = Value nb.
Proof.
  apply (Delete_then_Get ordered7 0 _ [4; 2; 5; 1; 6; 3; 7] (seqZ 0 7) 2
           ordered7_wf).
  - reflexivity.
  - apply (seqZ_sorted 7 0).
  - reflexivity.
  - apply list_elem_of_further, list_elem_of_here.
Defined.

(** X11.  Build a tree by [Insert]ing any list of key/value pairs, look up one
    of the inserted keys with [Get] and [Delete] the node found.  Every
    step returns; afterwards [Get] returns nil for the key, [Keys] emits in
    strictly ascending order exactly the other inserted keys, [Check]
    emits nothing, and each other key is still found with the value it
    was last inserted with. *)
Theorem Delete_after_inserts {K V : Type} `{StrictOrderKey K}
    (kvs : list (K * V)) (k : K) :
  k ∈ kvs.*1 →
  ∃ (h : heap K V) s d h' ks,
    build kvs = Ret (h, s) ∧ Get h (Some s) k = Ret (Some d) ∧
    Delete h (Some d) = Ret h' ∧
    Get h' (Some s) k = Ret None ∧
    Keys h' (Some s) (λ _, false) = Ret (Some <$> ks) ∧
    StronglySorted lt ks ∧ (∀ x, x ∈ ks ↔ x ∈ kvs.*1 ∧ x ≠ k) ∧
    Check h' (Some s) (λ _, false) = Ret [] ∧
    ∀ kvs1 k' v' kvs2, kvs = kvs1 ++ (k', v') :: kvs2 → k' ∉ kvs2.*1 → k' ≠ k →
      ∃ b nb, Get h' (Some s) k' = Ret (Some b) ∧ h' !! b = Some nb ∧
              Value nb = Some v'.
Proof.
  intros Hin. destruct (build_wf kvs) as (h & s & Hbuild & Hwf).
  set (t := tinserts Leaf 1 kvs) in *.
  assert (bst t) as Hbst by (by apply bst_tinserts).
  destruct (keys_built kvs) as (Hsorted & Hnodup & Hkeys). fold t in Hsorted, Hnodup, Hkeys.
  destruct (tget_elem_of t k Hbst) as [[d v] Hget]; [by apply Hkeys|].
  destruct (tget_Some _ _ _ _ Hget) as (i & Hi & _).
  apply list_elem_of_lookup_2 in Hi.
  pose proof Hwf as (sn & _ & _ & _ & _ & Hrep & _).
  destruct (tget_repr _ _ _ _ _ _ _ Hrep Hget) as (nd & Hd & Hdk & _).
  destruct (Delete_tree h s t d Hwf Hbst Hi)
    as (h' & t' & ks1 & k0 & ks2 & na & Hdel & Hholds & Hbst' & Hna & Hk & Hks & Hks' & Hrest).
  assert (k0 = k) as -> by congruence.
  exists h, s, d, h', (ks1 ++ ks2).
  split; [done|]. split; [by rewrite (Get_wf _ _ _ _ Hwf), Hget|].
  split; [done|].
  rewrite Hks in Hsorted, Hnodup.
  assert (k ∉ ks1 ++ ks2) as Hnotin.
  { apply NoDup_app in Hnodup as (_ & Hd1 & [Hk2 _]%NoDup_cons).
    intros [Hx|Hx]%elem_of_app; [|done]. destruct (Hd1 k Hx). by left. }
  split.
  { rewrite (Get_holds _ _ _ _ Hholds).
    destruct (tget t' k) as [[b w]|] eqn:Hget'; [|done].
    apply tget_Some_key in Hget'. by rewrite Hks' in Hget'. }
  split; [by rewrite (Keys_holds _ _ _ Hholds), Hks'|].
  split; [by eapply sorted_app_del|].
  split.
  { intros x. rewrite <- Hkeys, Hks, !elem_of_app, elem_of_cons. split.
    - intros Hx. split; [tauto|]. intros ->. apply Hnotin.
      by apply elem_of_app.
    - intros [[?|[?|?]] ?]; tauto. }
  split; [by apply (Check_holds_bst _ _ _ Hholds)|].
  intros kvs1 k' v' kvs2 -> Hk' Hne.
  destruct (tget_tinserts_last Leaf 1 kvs1 k' v' kvs2 Hk') as (b0 & Hb0).
  fold t in Hb0.
  assert ((k', v') ∈ (nodes t').*2) as Hin'.
  { apply Hrest; [done|]. apply list_elem_of_fmap.
    exists (b0, (k', v')). split; [done|]. by apply tget_nodes. }
  apply list_elem_of_fmap in Hin' as ([b [k'' w']] & Heq & Hin').
  simpl in Heq. simplify_eq.
  pose proof (bst_nodes_tget _ _ _ _ Hbst' Hin') as Ht'.
  rewrite (Get_holds _ _ _ _ Hholds), Ht'.
  destruct Hholds as (sn' & Hs' & Hp' & Hsh' & Hlen').
  destruct (tget_shape _ _ _ _ _ _ Hsh' Ht') as (nb & Hnb & Hv').
  by exists b, nb.
Qed.

Lemma Delete_after_inserts_witness :
  ∃ (h : heap iKey Z) s d h' ks,
    build kvs7 = Ret (h, s) ∧ Get h (Some s) 5%Z = Ret (Some d) ∧
    Delete h (Some d) = Ret h' ∧
    Get h' (Some s) 5%Z = Ret None ∧
    Keys h' (Some s) (λ _, false) = Ret (Some <$> ks) ∧
    StronglySorted lt ks ∧ (∀ x, x ∈ ks ↔ x ∈ kvs7.*1 ∧ x ≠ 5%Z) ∧
    Check h' (Some s) (λ _, false) = Ret [] ∧
    ∀ kvs1 k' v' kvs2, kvs7 = kvs1 ++ (k', v') :: kvs2 → k' ∉ kvs2.*1 →
      k' ≠ 5%Z →
      ∃ b nb, Get h' (Some s) k' = Ret (Some b) ∧ h' !! b = Some nb ∧
              Value nb = Some v'.
Proof.
  apply (Delete_after_inserts kvs7 5%Z).
  apply list_elem_of_further, list_elem_of_further, list_elem_of_here.
Defined.

(** * [Delete] on a node with two children *)

Section DeleteHandle.
Context {K V : Type} `{KeyType K}.
Implicit Types t l r : tree (K:=K) (V:=V).
Implicit Types h : heap K V.

(** The node after [a] in the walk is the first node of the [hi] subtree
    of [a]; replacing the key and value of [a] by those of that node and
    removing that node leaves the other nodes in place. *)
Lemma two_split_full t : ∀ par la a ka va ra c kc vc rest,
  subtree (Node la a ka va ra) t → NoDup (par :: addrs t) →
  nodes ra = (c, (kc, vc)) :: rest →
  ∃ n1 n2, nodes t = n1 ++ (a, (ka, va)) :: (c, (kc, vc)) :: n2 ∧
           nodes (tremove (tsetkv t a kc vc) c) = n1 ++ (a, (kc, vc)) :: n2.
Proof.
  induction t as [|l IHl b k v r IHr];
    intros par la a ka va ra c kc vc rest Hsub Hnd Hnodes.
  - by destruct Hsub as [?|[]].
  - pose proof Hnd as Hnd0. simpl in Hnd.
    apply NoDup_node in Hnd as (Hndl & Hndr & Hne & Hdisj).
    apply NoDup_cons in Hndl as Hbl. destruct Hbl as [Hbl _].
    apply NoDup_cons in Hndr as Hbr. destruct Hbr as [Hbr _].
    assert (c ∈ addrs ra) as Hcra.
    { rewrite <-nodes_addrs, Hnodes. simpl. by left. }
    assert (c ∈ addrs (Node la a ka va ra)) as Hcsub.
    { simpl. apply elem_of_app. right. by right. }
    destruct Hsub as [Heq|[Hsub|Hsub]].
    + simplify_eq. exists (nodes l), rest. split; [simpl; by rewrite Hnodes|].
      assert (b ≠ c) as Hbc by (intros ->; done).
      simpl. rewrite decide_True by done. simpl. rewrite decide_False by done.
      simpl. rewrite (tremove_notin l) by (intros ?; by eapply Hdisj).
      by rewrite (remove_first r b c (kc, vc) rest Hnodes Hndr).
    + pose proof (subtree_root _ _ _ _ _ _ Hsub) as Hal.
      pose proof (subtree_addrs _ _ _ Hsub Hcsub) as Hcl.
      assert (b ≠ a) as Hba by (intros ->; done).
      assert (b ≠ c) as Hbc by (intros ->; done).
      destruct (IHl b la a ka va ra c kc vc rest Hsub Hndl Hnodes) as (n1 & n2 & Hn & Hn').
      exists n1, (n2 ++ (b, (k, v)) :: nodes r). simpl.
      rewrite decide_False by done. simpl. rewrite decide_False by done. simpl.
      rewrite (tsetkv_notin r), (tremove_notin r) by (by apply Hdisj).
      rewrite Hn, Hn'. by rewrite <-!app_assoc.
    + pose proof (subtree_root _ _ _ _ _ _ Hsub) as Har.
      pose proof (subtree_addrs _ _ _ Hsub Hcsub) as Hcr.
      assert (b ≠ a) as Hba by (intros ->; done).
      assert (b ≠ c) as Hbc by (intros ->; done).
      assert (a ∉ addrs l) as Hal by (intros ?; by eapply Hdisj).
      assert (c ∉ addrs l) as Hcl by (intros ?; by eapply Hdisj).
      destruct (IHr b la a ka va ra c kc vc rest Hsub Hndr Hnodes) as (n1 & n2 & Hn & Hn').
      exists (nodes l ++ (b, (k, v)) :: n1), n2. simpl.
      rewrite decide_False by done. simpl. rewrite decide_False by done. simpl.
      rewrite (tsetkv_notin l), (tremove_notin l) by done.
      rewrite Hn, Hn'. by rewrite <-!app_assoc.
Qed.

(** The nodes of a tree laid out with any parent pointers hold the keys
    and values of the tree. *)
Lemma shape_nodes_full h p t :
  shape h p t →
  Forall (λ n, ∃ nd, h !! n.1 = Some nd ∧ Key nd = Some n.2.1 ∧
                     Value nd = Some n.2.2) (nodes t).
Proof.
  revert p. induction t as [|l IHl a x w r IHr]; intros p; simpl.
  - constructor.
  - intros (-> & nd & Ha & Hk & Hv & Hp & Hl & Hr).
    apply Forall_app. split; [by eapply IHl|].
    constructor; [by exists nd|by eapply IHr].
Qed.

End DeleteHandle.

(** X12.  On a tree with consistent links whose key stream is strictly
    ascending, [Delete] on a node that has two children does not take
    that node out of the tree: the node keeps its place and receives the
    key and value of the node that [Next] returns for it, and it is that
    next node which no lookup returns afterwards. *)
Theorem Delete_two_children {K V : Type} `{StrictOrderKey K}
    (h : heap K V) s t ns ks a na c1 c2 :
  wf h s t → Keys h (Some s) (λ _, false) = Ret (Some <$> ks) →
  StronglySorted lt ks → visited h (Some s) = Ret ns → a ∈ ns →
  h !! a = Some na → (Child na).1 = Some c1 → (Child na).2 = Some c2 →
  ∃ h' c nc kc na',
    Next h (Some a) = Ret (Some c) ∧ h !! c = Some nc ∧ Key nc = Some kc ∧
    Delete h (Some a) = Ret h' ∧
    h' !! a = Some na' ∧ Key na' = Key nc ∧ Value na' = Value nc ∧
    Get h' (Some s) kc = Ret (Some a) ∧
    ∀ k', Get h' (Some s) k' ≠ Ret (Some c).
Proof.
  intros Hwf Hks Hsorted Hns Hin Ha E1 E2.
  rewrite (visited_wf _ _ _ Hwf) in Hns. simplify_eq.
  rewrite (Keys_wf _ _ _ Hwf) in Hks. injection Hks as Hks.
  apply (inj (fmap Some)) in Hks. subst ks.
  destruct (Delete_two h s t a na c1 c2 Hwf Hin Ha E1 E2)
    as (h' & c & kc & vc & la & ka & va & ra & rest & Hdel & Hholds & Hsub & Hnodes).
  pose proof Hwf as (sn & _ & _ & _ & _ & Hrep & Hnd & _).
  destruct (two_split_full t s la a ka va ra c kc vc rest Hsub Hnd Hnodes)
    as (n1 & n2 & Hn & Hn').
  set (t' := tremove (tsetkv t a kc vc) c) in *.
  assert (addrs t = n1.*1 ++ a :: c :: n2.*1) as Haddrs.
  { by rewrite <-nodes_addrs, Hn, fmap_app, !fmap_cons. }
  assert (addrs t' = n1.*1 ++ a :: n2.*1) as Haddrs'.
  { by rewrite <-nodes_addrs, Hn', fmap_app, !fmap_cons. }
  assert (keys t = n1.*2.*1 ++ ka :: kc :: n2.*2.*1) as Hkeys.
  { by rewrite <-nodes_keys, Hn, !fmap_app, !fmap_cons. }
  assert (keys t' = n1.*2.*1 ++ kc :: n2.*2.*1) as Hkeys'.
  { by rewrite <-nodes_keys, Hn', !fmap_app, !fmap_cons. }
  assert (bst t') as Hbst'.
  { apply sorted_bst. rewrite Hkeys'. eapply sorted_app_del.
    rewrite <-Hkeys. exact Hsorted. }
  pose proof (repr_nodes_full _ _ _ _ Hrep) as Hall.
  rewrite Hn, Forall_app, !Forall_cons in Hall.
  destruct Hall as (_ & _ & (nc & Hc & Hkc & Hvc) & _). simpl in Hc, Hkc, Hvc.
  pose proof Hholds as (sn' & Hs' & Hp' & Hsh' & Hlen').
  pose proof (shape_nodes_full _ _ _ Hsh') as Hall'.
  rewrite Hn', Forall_app, Forall_cons in Hall'.
  destruct Hall' as (_ & (na' & Ha' & Hka' & Hva') & _). simpl in Ha', Hka', Hva'.
  exists h', c, nc, kc, na'. split.
  { apply (Next_wf_succ h s t (length n1.*1) a c Hwf).
    - rewrite Haddrs. by apply list_lookup_middle.
    - rewrite Haddrs.
      change (n1.*1 ++ a :: c :: n2.*1) with (n1.*1 ++ [a] ++ c :: n2.*1).
      rewrite app_assoc.
      replace (S (length n1.*1)) with (length (n1.*1 ++ [a]))
        by (rewrite length_app; simpl; lia).
      by apply list_lookup_middle. }
  do 4 (split; [done|]). split; [congruence|]. split; [congruence|]. split.
  { rewrite (Get_holds _ _ _ _ Hholds).
    rewrite (bst_nodes_tget t' a kc vc Hbst'); [done|].
    rewrite Hn'. apply elem_of_app. right. by left. }
  intros k'. rewrite (Get_holds _ _ _ _ Hholds).
  destruct (tget t' k') as [[b w]|] eqn:Hget; [|done].
  simpl. intros [= ->].
  destruct (tget_Some _ _ _ _ Hget) as (i & Hi & _).
  apply list_elem_of_lookup_2 in Hi. rewrite Haddrs' in Hi.
  apply NoDup_cons in Hnd as [_ Hnd]. rewrite Haddrs in Hnd.
  apply NoDup_app in Hnd as (_ & Hd1 & Hnd).
  apply NoDup_cons in Hnd as [Hac Hnd]. apply NoDup_cons in Hnd as [Hc2 _].
  apply elem_of_app in Hi as [Hi|Hi].
  - destruct (Hd1 c Hi). right. by left.
  - apply elem_of_cons in Hi as [->|Hi]; [|done]. apply Hac. by left.
Qed.

Lemma Delete_two_children_witness :
  ∃ h' c nc kc na',
    Next ordered7 (Some 1) = Ret (Some c) ∧ ordered7 !! c = Some nc ∧
    Key nc = Some kc ∧ Delete ordered7 (Some 1) = Ret h' ∧
    h' !! 1 = Some na' ∧ Key na' = Key nc ∧ Value na' = Value nc ∧
    Get h' (Some 0) kc = Ret (Some 1) ∧
    ∀ k', Get h' (Some 0) k' ≠ Ret (Some c).
Proof.
  eapply (Delete_two_children ordered7 0 _ [4; 2; 5; 1; 6; 3; 7] (seqZ 0 7) 1
            _ 2 3 ordered7_wf).
  - reflexivity.
  - apply (seqZ_sorted 7 0).
  - reflexivity.
  - do 3 apply list_elem_of_further. apply list_elem_of_here.
  - reflexivity.
  - reflexivity.
  - reflexivity.
Defined.

(** * The height bookkeeping *)

(** Go's [int], taken at 64 bits: the value of an arithmetic result after
    wrap-around. *)
Definition wrap (z : Z) : Z := ((z + 2 ^ 63) `mod` 2 ^ 64 - 2 ^ 63)%Z.

Lemma wrap_small z : (- 2 ^ 63 ≤ z < 2 ^ 63)%Z → wrap z = z.
Proof. intros Hz. unfold wrap. rewrite Z.mod_small; lia. Qed.

(** [height], [calcHeight] and [imax] of [BasicBST].  (The parameter list
    of [imax] reads [a b int] in the source; it is taken as [a, b int].) *)
Module Bookkeeping.
Section Bookkeeping.
Context {K V : Type} `{KeyType K}.
Local Open Scope Z_scope.

Definition imax (a b : Z) : Z := if a <? b then b else a.

Definition setHeight (n : BasicBST K V) (x : Z) : BasicBST K V :=
  mkBasicBST (Key n) (Value n) (Parent n) (Child n) x.

Definition height (h : heap K V) (n : ptr) : res Z :=
  match n with
  | None => Ret (-1)
  | Some a =>
      if IsSentinel h n then Ret (-1)
      else nd ← load h a; Ret (Height nd)
  end.

Definition calcHeight (h : heap K V) (n : ptr) : res (heap K V * Z) :=
  match n with
  | None => r ← height h n; Ret (h, r)
  | Some a =>
      nd ← load h a;
      hl ← height h (Child nd).1;
      hr ← height h (Child nd).2;
      let h' := <[a := setHeight nd (wrap (1 + imax hl hr))]> h in
      r ← height h' n; Ret (h', r)
  end.

End Bookkeeping.
End Bookkeeping.

(** [updateHeight], [imax] and [iabs] of the [AVL] type, whose fields are
    those of [BasicBST]. *)
Module AVL.
Section AVL.
Context {K V : Type} `{KeyType K}.
Local Open Scope Z_scope.

Definition imax (a b : Z) : Z := if b >? a then b else a.

Definition iabs (k : Z) : Z := if k <? 0 then wrap (- k) else k.

Definition updateHeight (h : heap K V) (n : ptr) : res (heap K V * Z) :=
  match n with
  | None => r ← Bookkeeping.height h n; Ret (h, r)
  | Some a =>
      if IsSentinel h n then r ← Bookkeeping.height h n; Ret (h, r)
      else
        nd ← load h a;
        hl ← Bookkeeping.height h (Child nd).1;
        hr ← Bookkeeping.height h (Child nd).2;
        let h' := <[a := Bookkeeping.setHeight nd (wrap (1 + imax hl hr))]> h in
        r ← Bookkeeping.height h' n; Ret (h', r)
  end.

End AVL.
End AVL.

Section Heights.
Context {K V : Type} `{KeyType K}.
Implicit Types t l r : tree (K:=K) (V:=V).
Implicit Types h : heap K V.

(** The height of a tree as the code counts it: -1 for the empty tree, 0
    for a single node. *)
Definition hgt t : Z := (Z.of_nat (height t) - 1)%Z.

Lemma hgt_node l a k v r :
  hgt (Node l a k v r) = (1 + Bookkeeping.imax (hgt l) (hgt r))%Z.
Proof.
  unfold hgt, Bookkeeping.imax. simpl height.
  destruct (Z.ltb_spec (Z.of_nat (height l) - 1) (Z.of_nat (height r) - 1)); lia.
Qed.

Lemma imax_same a b : AVL.imax a b = Bookkeeping.imax a b.
Proof.
  unfold AVL.imax, Bookkeeping.imax.
  destruct (Z.gtb_spec b a), (Z.ltb_spec a b); lia.
Qed.

Lemma bind_Ret_inv {A B : Type} (m : res A) (f : A → res B) y :
  m ≫= f = Ret y → ∃ x, m = Ret x ∧ f x = Ret y.
Proof. destruct m as [x| |]; [|done..]. intros Hf. by exists x. Qed.

(** [Insert] writes no [Height] field: a node made by it has [Height] 0
    and keeps it. *)
Lemma Insert_Height fuel : ∀ h n k v h',
  Insert_ fuel h n k v = Ret h' →
  Forall (λ nd, Height nd = 0%Z) h → Forall (λ nd, Height nd = 0%Z) h'.
Proof.
  induction fuel as [|fuel IH]; intros h n k v h' Hins Hall; [done|].
  simpl in Hins. destruct n as [a|]; [|done].
  unfold load in Hins. destruct (h !! a) as [nd|] eqn:Ha; [|done].
  simpl in Hins.
  assert (Height nd = 0%Z) as Hnd.
  { rewrite Forall_forall in Hall. apply Hall. by eapply list_elem_of_lookup_2. }
  assert (∀ c, Forall (λ nd, Height nd = 0%Z)
                 (<[a := setChild nd c]> h ++ [newNode k v a])) as Hnew.
  { intros c. apply Forall_app. split; [|by repeat constructor].
    by apply Forall_insert. }
  apply bind_Ret_inv in Hins as ([] & _ & Hins).
  - destruct (Child nd).1; [by eapply IH|]. simplify_eq. apply Hnew.
  - apply bind_Ret_inv in Hins as ([] & _ & Hins).
    + destruct (Child nd).2; [by eapply IH|]. simplify_eq. apply Hnew.
    + simplify_eq. by apply Forall_insert.
Qed.

Lemma Inserts_Height kvs : ∀ h s h',
  Inserts h s kvs = Ret h' →
  Forall (λ nd, Height nd = 0%Z) h → Forall (λ nd, Height nd = 0%Z) h'.
Proof.
  induction kvs as [|[k v] kvs IH]; intros h s h' Hins Hall; simpl in Hins.
  - by simplify_eq.
  - destruct (Insert h (Some s) k v) as [h1| |] eqn:H1; [|done..].
    simpl in Hins. eapply IH; [done|]. by eapply Insert_Height.
Qed.

(** Writing a [Height] field leaves the links as they are. *)
Lemma repr_setHeight t a na x : ∀ h par p,
  repr h par p t → h !! a = Some na →
  repr (<[a := Bookkeeping.setHeight na x]> h) par p t.
Proof.
  induction t as [|l IHl b k v r IHr]; intros h par p Hrep Ha; [done|].
  simpl in Hrep. destruct Hrep as (-> & nd & Hb & Hk & Hv & Hp & Hl & Hr).
  simpl. split; [done|]. destruct (decide (b = a)) as [->|Hba].
  - assert (Some nd = Some na) as [= ->]
      by (etrans; [symmetry; exact Hb|exact Ha]).
    eexists. split.
    { apply list_lookup_insert_eq. by eapply lookup_lt_Some. }
    simpl. do 3 (split; [done|]). split; [by apply IHl|by apply IHr].
  - exists nd. rewrite list_lookup_insert_ne by done.
    do 4 (split; [done|]). split; [by apply IHl|by apply IHr].
Qed.

Lemma wf_setHeight h s t a na x :
  wf h s t → a ≠ s → h !! a = Some na →
  wf (<[a := Bookkeeping.setHeight na x]> h) s t.
Proof.
  intros (sn & Hs & Hp & Hkey & Hhi & Hrep & Hnd & Hlen) Hne Ha.
  exists sn. rewrite list_lookup_insert_ne by done.
  do 4 (split; [done|]). split; [by apply repr_setHeight|].
  by rewrite length_insert.
Qed.

(** A subtree of a represented tree is represented, below a parent that
    is not one of its nodes. *)
Lemma subtree_repr t : ∀ h par p l a k v r,
  repr h par p t → NoDup (par :: addrs t) → subtree (Node l a k v r) t →
  ∃ pc, repr h pc (Some a) (Node l a k v r) ∧ pc ≠ a.
Proof.
  induction t as [|tl IHl b x w tr IHr]; intros h par p l a k v r Hrep Hnd Hsub.
  - by destruct Hsub as [?|[]].
  - pose proof Hrep as Hrep0. simpl in Hrep.
    destruct Hrep as (-> & nd & Hb & Hk & Hv & Hp & Hl & Hr).
    pose proof Hnd as Hnd0. simpl in Hnd.
    apply NoDup_node in Hnd as (Hndl & Hndr & Hne & _).
    destruct Hsub as [Heq|[Hsub|Hsub]].
    + simplify_eq. by exists par.
    + by eapply IHl.
    + by eapply IHr.
Qed.

End Heights.

(** X13.  [Insert] never writes a [Height] field and never calls [calcHeight]:
    in a tree built by any sequence of [Insert] calls every node has
    [Height] 0, whatever its depth, so [height] returns 0 for every node
    of the tree and -1 for the sentinel. *)
Theorem Insert_leaves_Height {K V : Type} `{KeyType K} (kvs : list (K * V)) :
  ∃ (h : heap K V) s ns,
    build kvs = Ret (h, s) ∧ visited h (Some s) = Ret ns ∧
    Forall (λ nd, Height nd = 0%Z) h ∧
    Bookkeeping.height h (Some s) = Ret (-1)%Z ∧
    Forall (λ a, Bookkeeping.height h (Some a) = Ret 0%Z) ns.
Proof.
  destruct (build_wf kvs) as (h & s & Hbuild & Hwf).
  exists h, s, (addrs (tinserts Leaf 1 kvs)).
  split; [done|]. split; [by apply visited_wf|].
  assert (Forall (λ nd, Height nd = 0%Z) h) as Hall.
  { unfold build in Hbuild. apply bind_Ret_inv in Hbuild as (h0 & Hins & Hret).
    simplify_eq. eapply Inserts_Height; [exact Hins|].
    by repeat constructor. }
  split; [done|]. split.
  { destruct Hwf as (sn & Hs & Hp & _). unfold Bookkeeping.height.
    by rewrite (is_sentinel _ _ _ Hs Hp). }
  apply Forall_forall. intros a Ha.
  destruct (wf_elem _ _ _ _ Hwf Ha)
    as (pc & npc & l & k & v & r & Hpc & Hslot & Hrep & Hnd & _).
  simpl in Hrep. destruct Hrep as (_ & nd & Hnda & _ & _ & Hp & _).
  apply NoDup_cons in Hnd as [Hne _].
  unfold Bookkeeping.height.
  rewrite (not_sentinel h pc a nd Hnda Hp), (load_Some _ _ _ Hnda), bind_Ret.
  - f_equal. rewrite Forall_forall in Hall. apply Hall.
    by eapply list_elem_of_lookup_2.
  - intros ->. apply Hne. simpl. apply elem_of_app. right. by left.
Qed.

(** X14.  On a node of a tree with consistent links whose children hold their
    heights, [calcHeight] stores the height of the node's subtree in the
    node and returns it, and leaves the links of the tree as they are.
    (Heights count edges: -1 for nil, 0 for a node without children.) *)
Theorem calcHeight_step {K V : Type} `{KeyType K}
    (h : heap K V) s t l a k v r na :
  wf h s t → subtree (Node l a k v r) t → h !! a = Some na →
  (Z.of_nat (length h) < 2 ^ 63)%Z →
  Bookkeeping.height h (Child na).1 = Ret (hgt l) →
  Bookkeeping.height h (Child na).2 = Ret (hgt r) →
  let x := hgt (Node l a k v r) in
  let h' := <[a := Bookkeeping.setHeight na x]> h in
  Bookkeeping.calcHeight h (Some a) = Ret (h', x) ∧
  Bookkeeping.height h' (Some a) = Ret x ∧ wf h' s t.
Proof.
  intros Hwf Hsub Ha Hlen Hl Hr x h'.
  pose proof Hwf as (sn & Hs & Hp & _ & _ & Hrep & Hnd & Hsize).
  destruct (subtree_repr _ _ _ _ _ _ _ _ _ Hrep Hnd Hsub) as (pc & Hrepa & Hpc).
  simpl in Hrepa. destruct Hrepa as (_ & nd & Hnda & _ & _ & Hpar & _).
  assert (Some nd = Some na) as [= ->]
    by (etrans; [symmetry; exact Hnda|exact Ha]).
  assert (a ≠ s) as Has.
  { intros ->. apply NoDup_cons in Hnd as [Hnotin _]. apply Hnotin.
    eapply subtree_root. exact Hsub. }
  assert (wrap (1 + Bookkeeping.imax (hgt l) (hgt r)) = x) as Hx.
  { rewrite <-(hgt_node l a k v r). apply wrap_small. fold x. unfold x, hgt.
    pose proof (subtree_height _ _ Hsub) as Hh.
    pose proof (height_le_size t). lia. }
  assert (h' !! a = Some (Bookkeeping.setHeight na x)) as Ha'.
  { apply list_lookup_insert_eq. by eapply lookup_lt_Some. }
  assert (Bookkeeping.height h' (Some a) = Ret x) as Hh'.
  { unfold Bookkeeping.height.
    rewrite (not_sentinel h' pc a _ Ha' Hpar Hpc), (load_Some _ _ _ Ha').
    done. }
  split; [|split; [done|by apply wf_setHeight]].
  unfold Bookkeeping.calcHeight.
  rewrite (load_Some _ _ _ Ha), bind_Ret, Hl, bind_Ret, Hr, bind_Ret.
  cbv zeta. rewrite Hx. fold h'. by rewrite Hh'.
Qed.

Lemma calcHeight_step_witness :
  ∃ na,
    ordered7 !! 2 = Some na ∧
    Bookkeeping.calcHeight ordered7 (Some 2) =
      Ret (<[2 := Bookkeeping.setHeight na 1%Z]> ordered7, 1%Z) ∧
    Bookkeeping.height (<[2 := Bookkeeping.setHeight na 1%Z]> ordered7)
      (Some 2) = Ret 1%Z ∧
    wf (<[2 := Bookkeeping.setHeight na 1%Z]> ordered7) 0
      (tinserts Leaf 1 kvs7).
Proof.
  eexists. split; [reflexivity|].
  apply (calcHeight_step ordered7 0 (tinserts Leaf 1 kvs7)
           (Node Leaf 4 0%Z 0%Z Leaf) 2 1%Z (-1)%Z
           (Node Leaf 5 2%Z (-2)%Z Leaf) _ ordered7_wf).
  - right. left. left. reflexivity.
  - reflexivity.
  - reflexivity.
  - reflexivity.
  - reflexivity.
Defined.

(** X15.  [updateHeight] of the [AVL] type and [calcHeight] differ on the
    sentinel only: on nil and on every node of a tree with consistent
    links they do the same; on the sentinel both return -1, but
    [calcHeight] first overwrites the sentinel's [Height] field while
    [updateHeight] leaves the heap as it is. *)
Theorem calcHeight_vs_updateHeight {K V : Type} `{KeyType K}
    (h : heap K V) s t ns :
  wf h s t → visited h (Some s) = Ret ns →
  AVL.updateHeight h None = Bookkeeping.calcHeight h None ∧
  Forall (λ a, AVL.updateHeight h (Some a) = Bookkeeping.calcHeight h (Some a)) ns ∧
  AVL.updateHeight h (Some s) = Ret (h, (-1)%Z) ∧
  ∃ sn hr,
    h !! s = Some sn ∧ Bookkeeping.height h (Child sn).1 = Ret hr ∧
    Bookkeeping.calcHeight h (Some s) =
      Ret (<[s := Bookkeeping.setHeight sn
                    (wrap (1 + Bookkeeping.imax hr (-1)))]> h, (-1)%Z).
Proof.
  intros Hwf Hns. rewrite (visited_wf _ _ _ Hwf) in Hns. simplify_eq.
  split; [done|]. split.
  { apply Forall_forall. intros a Ha.
    destruct (wf_elem _ _ _ _ Hwf Ha)
      as (pc & npc & l & k & v & r & Hpc & Hslot & Hrep & Hnd & _).
    simpl in Hrep. destruct Hrep as (_ & nd & Hnda & _ & _ & Hp & _).
    apply NoDup_cons in Hnd as [Hne _].
    unfold AVL.updateHeight, Bookkeeping.calcHeight.
    rewrite (not_sentinel h pc a nd Hnda Hp).
    - rewrite (load_Some _ _ _ Hnda), !bind_Ret.
      destruct (Bookkeeping.height h (Child nd).1) as [hl| |]; [|done..].
      destruct (Bookkeeping.height h (Child nd).2) as [hr| |]; [|done..].
      rewrite !bind_Ret. cbv zeta. by rewrite imax_same.
    - intros ->. apply Hne. simpl. apply elem_of_app. right. by left. }
  destruct Hwf as (sn & Hs & Hp & Hkey & Hhi & Hrep & Hnd & Hlen).
  pose proof (is_sentinel _ _ _ Hs Hp) as Hsent.
  split.
  { unfold AVL.updateHeight, Bookkeeping.height. by rewrite Hsent. }
  assert (∃ hr, Bookkeeping.height h (Child sn).1 = Ret hr) as (hr & Hhr).
  { destruct t as [|l a k v r]; simpl in Hrep.
    - rewrite Hrep. by eexists.
    - destruct Hrep as (Hc & nd & Hnda & _ & _ & Hpa & _). rewrite Hc.
      unfold Bookkeeping.height. rewrite (not_sentinel h s a nd Hnda Hpa).
      + rewrite (load_Some _ _ _ Hnda). by eexists.
      + apply NoDup_cons in Hnd as [Hne _]. intros ->. apply Hne.
        simpl. apply elem_of_app. right. by left. }
  exists sn, hr. do 2 (split; [done|]).
  unfold Bookkeeping.calcHeight.
  rewrite (load_Some _ _ _ Hs), bind_Ret, Hhr, bind_Ret, Hhi.
  change (Bookkeeping.height h None) with (Ret (-1)%Z : res Z).
  rewrite bind_Ret. cbv zeta.
  unfold Bookkeeping.height at 1. rewrite (is_sentinel _ s (Bookkeeping.setHeight sn (wrap (1 + Bookkeeping.imax hr (-1))))); [done| |done].
  apply list_lookup_insert_eq. by eapply lookup_lt_Some.
Qed.

Lemma calcHeight_vs_updateHeight_witness :
  AVL.updateHeight crooked None = Bookkeeping.calcHeight crooked None ∧
  Forall (λ a, AVL.updateHeight crooked (Some a) =
               Bookkeeping.calcHeight crooked (Some a)) [2; 1] ∧
  AVL.updateHeight crooked (Some 0) = Ret (crooked, (-1)%Z) ∧
  ∃ sn hr,
    crooked !! 0 = Some sn ∧ Bookkeeping.height crooked (Child sn).1 = Ret hr ∧
    Bookkeeping.calcHeight crooked (Some 0) =
      Ret (<[0 := Bookkeeping.setHeight sn
                    (wrap (1 + Bookkeeping.imax hr (-1)))]> crooked, (-1)%Z).
Proof.
  apply (calcHeight_vs_updateHeight crooked 0 _ [2; 1] crooked_wf).
  reflexivity.
Defined.

(** X16.  [iabs] returns the absolute value of every [int] but the least one,
    which it returns unchanged: negating it wraps around. *)
Theorem iabs_range (k : Z) :
  (- 2 ^ 63 ≤ k < 2 ^ 63)%Z →
  AVL.iabs k = (if k =? - 2 ^ 63 then - 2 ^ 63 else Z.abs k)%Z.
Proof.
  intros Hk. unfold AVL.iabs.
  destruct (Z.ltb_spec k 0) as [Hneg|Hpos], (Z.eqb_spec k (- 2 ^ 63)) as [->|Hne];
    try lia.
  - reflexivity.
  - rewrite wrap_small by lia. lia.
Qed.

Lemma iabs_range_witness : AVL.iabs (- 2 ^ 63) = (- 2 ^ 63)%Z.
Proof. apply (iabs_range (- 2 ^ 63)). lia. Defined.

(** * [Viz] *)

(** The characters [\n] and the double quote. *)
Definition nl : string := String (Ascii.ascii_of_nat 10) EmptyString.
Definition dq : string := String (Ascii.ascii_of_nat 34) EmptyString.

(** The [String] method of [KeyType]. *)
Class Stringer (K : Type) := String : K → string.

(** [strconv.Itoa(int(a))] *)
#[global] Instance iKey_Stringer : Stringer iKey := λ a, pretty (a : Z).

Section Viz.
Context {K V : Type} `{KeyType K} `{Stringer K}.
Implicit Types t l r : tree (K:=K) (V:=V).
Implicit Types h : heap K V.

(** [k.String()] on an interface value. *)
Definition StringI (k : option K) : res string :=
  match k with
  | Some x => Ret (String x)
  | None => Panic
  end.

(** [fmt.Sprintf] with the two formats of [Viz]. *)
Definition fmtLo (a b : string) : string :=
  "  " +:+ a +:+ ":w -> " +:+ b +:+ ":n [label=" +:+ dq +:+ "lo" +:+ dq +:+ "];" +:+ nl.
Definition fmtHi (a b : string) : string :=
  "  " +:+ a +:+ ":e -> " +:+ b +:+ ":n [label=" +:+ dq +:+ "hi" +:+ dq +:+ "];" +:+ nl.

(** The callback of [Viz]; the state is the list of the texts written to
    the [io.Writer] so far (the results of [Write] are not looked at). *)
Definition vizNode h (a : addr) (out : list string)
    : res (list string * option error) :=
  nd ← load h a;
  out ← match (Child nd).1 with
        | Some c =>
            x ← StringI (Key nd);
            cn ← load h c;
            y ← StringI (Key cn);
            Ret (out ++ [fmtLo x y])
        | None => Ret out
        end;
  out ← match (Child nd).2 with
        | Some c =>
            x ← StringI (Key nd);
            cn ← load h c;
            y ← StringI (Key cn);
            Ret (out ++ [fmtHi x y])
        | None => Ret out
        end;
  Ret (out, None).

(** [Viz] writes a DOT visualisation of the graph; the result is the list
    of the texts written when it returns (the closing line is written by
    a deferred call; what has been written when [Viz] panics is not
    kept). *)
Definition Viz h (n : ptr) : res (list string) :=
  let out := ["digraph treemap {" +:+ nl] in
  nd ← deref h n;
  r ← Visit h (Child nd).1 (vizNode h) out;
  Ret (r.1 ++ ["}" +:+ nl]).

(** The edge lines of a tree: for each node in order, the line to its
    [lo] child and the line to its [hi] child. *)
Definition rootKey t : option K :=
  match t with
  | Leaf => None
  | Node _ _ k _ _ => Some k
  end.

Definition edgesAt (k : K) l r : list string :=
  (if rootKey l is Some kl then [fmtLo (String k) (String kl)] else []) ++
  (if rootKey r is Some kr then [fmtHi (String k) (String kr)] else []).

Fixpoint edges t : list string :=
  match t with
  | Leaf => []
  | Node l _ k _ r => edges l ++ edgesAt k l r ++ edges r
  end.

(** A tree has one edge less than it has nodes. *)
Lemma length_edges t : length (edges t) = pred (length (addrs t)).
Proof.
  assert (∀ t, S (length (edges t)) = length (addrs t) ∨ t = Leaf) as Haux.
  { clear t. induction t as [|l IHl a k v r IHr]; [by right|left].
    simpl. unfold edgesAt. rewrite !length_app. simpl.
    destruct IHl as [IHl| ->], IHr as [IHr| ->]; simpl;
      try (destruct l; [done|]); try (destruct r; [done|]); simpl in *; lia. }
  destruct (Haux t) as [Ht| ->]; [|done]. lia.
Qed.

Lemma shape_rootKey h p t :
  shape h p t →
  match p with
  | Some c => ∃ cn k, h !! c = Some cn ∧ Key cn = Some k ∧ rootKey t = Some k
  | None => rootKey t = None
  end.
Proof.
  destruct t as [|l a k v r]; simpl; [by intros ->|].
  intros (-> & nd & Ha & Hk & _). by exists nd, k.
Qed.

Lemma vizNode_shape h l a k v r out :
  shape h (Some a) (Node l a k v r) →
  vizNode h a out = Ret (out ++ edgesAt k l r, None).
Proof.
  simpl. intros (_ & nd & Ha & Hk & _ & _ & Hl%shape_rootKey & Hr%shape_rootKey).
  unfold vizNode, edgesAt. rewrite (load_Some _ _ _ Ha), bind_Ret, Hk.
  destruct (Child nd).1 as [c1|], (Child nd).2 as [c2|].
  - destruct Hl as (n1 & k1 & Hc1 & Hk1 & ->), Hr as (n2 & k2 & Hc2 & Hk2 & ->).
    rewrite (load_Some _ _ _ Hc1), (load_Some _ _ _ Hc2).
    cbn [mbind res_bind StringI]. rewrite Hk1, Hk2.
    cbn [mbind res_bind StringI]. by rewrite <-app_assoc.
  - destruct Hl as (n1 & k1 & Hc1 & Hk1 & ->). rewrite Hr.
    rewrite (load_Some _ _ _ Hc1). cbn [mbind res_bind StringI]. rewrite Hk1.
    by cbn [mbind res_bind StringI app].
  - destruct Hr as (n2 & k2 & Hc2 & Hk2 & ->). rewrite Hl.
    rewrite (load_Some _ _ _ Hc2). cbn [mbind res_bind StringI]. rewrite Hk2.
    by cbn [mbind res_bind StringI app].
  - rewrite Hl, Hr. cbn [mbind res_bind app]. by rewrite app_nil_r.
Qed.

Lemma visitAll_viz t : ∀ h p out,
  shape h p t →
  visitAll (vizNode h) (addrs t) out = Ret (out ++ edges t, None).
Proof.
  induction t as [|l IHl a k v r IHr]; intros h p out Hsh; simpl.
  - by rewrite app_nil_r.
  - pose proof Hsh as (-> & nd & Ha & Hk & Hv & Hp & Hl & Hr).
    rewrite visitAll_app, (IHl h _ out Hl), bind_Ret. simpl.
    rewrite (vizNode_shape h l a k v r _ Hsh), bind_Ret. simpl.
    rewrite (IHr h _ _ Hr). by rewrite <-!app_assoc.
Qed.

Lemma Viz_shape h n nd t :
  h !! n = Some nd → shape h (Child nd).1 t → height t ≤ length h →
  Viz h (Some n) = Ret (("digraph treemap {" +:+ nl) :: edges t ++ ["}" +:+ nl]).
Proof.
  intros Hn Hsh Hlen. unfold Viz. simpl deref.
  rewrite (load_Some _ _ _ Hn), bind_Ret. unfold Visit, fuelOf.
  rewrite (Visit_shape _ t (S (length h)) h _ _ Hsh) by lia.
  by rewrite (visitAll_viz t h _ _ Hsh).
Qed.

Lemma subtree_NoDup t' t : subtree t' t → NoDup (addrs t) → NoDup (addrs t').
Proof.
  induction t as [|tl IHl b x w tr IHr]; simpl.
  - by intros [->|[]].
  - intros [->|[Hs|Hs]] Hnd; [done| |].
    + apply NoDup_app in Hnd as (? & _ & _). auto.
    + apply NoDup_app in Hnd as (_ & _ & [_ ?]%NoDup_cons). auto.
Qed.

End Viz.

(** X17.  On the sentinel of a tree with consistent links, [Viz] writes the
    opening line, then for each node in tree order the edge line to its
    [lo] child and the edge line to its [hi] child, where the node has
    them, and then the closing line: one edge line less than [Keys]
    emits keys. *)
Theorem Viz_tree {K V : Type} `{KeyType K} `{Stringer K}
    (h : heap K V) s t ks :
  wf h s t → Keys h (Some s) (λ _, false) = Ret ks →
  Viz h (Some s) =
    Ret (("digraph treemap {" +:+ nl) :: edges t ++ ["}" +:+ nl]) ∧
  length (edges t) = pred (length ks).
Proof.
  intros Hwf Hks. rewrite (Keys_wf _ _ _ Hwf) in Hks. simplify_eq.
  rewrite length_edges, length_fmap, (addrs_keys_length t). split; [|done].
  destruct (wf_holds _ _ _ Hwf) as (sn & Hs & _ & Hsh & Hlen).
  apply (Viz_shape h s sn t Hs Hsh). lia.
Qed.

Lemma Viz_tree_witness :
  Viz crooked (Some 0) =
    Ret ["digraph treemap {" +:+ nl; fmtLo "5" "7"; "}" +:+ nl] ∧
  length (edges (Node (Node Leaf 2 7%Z 0%Z Leaf) 1 5%Z 0%Z Leaf)) = 1.
Proof.
  exact (Viz_tree crooked 0 _ [Some 7; Some 5]%Z crooked_wf eq_refl).
Defined.

(** X18.  [Viz] draws what is below the [lo] slot of its receiver: on a node of
    the tree that is not the sentinel it writes the edges of the node's
    [lo] subtree only, and neither the edges from the node itself nor
    those of its [hi] subtree. *)
Theorem Viz_lo_subtree {K V : Type} `{KeyType K} `{Stringer K}
    (h : heap K V) s t l a k v r :
  wf h s t → subtree (Node l a k v r) t →
  Viz h (Some a) =
    Ret (("digraph treemap {" +:+ nl) :: edges l ++ ["}" +:+ nl]).
Proof.
  intros Hwf Hsub.
  pose proof Hwf as (sn & Hs & Hp & _ & _ & Hrep & Hnd & Hsize).
  destruct (subtree_repr _ _ _ _ _ _ _ _ _ Hrep Hnd Hsub) as (pc & Hrepa & Hpc).
  assert (NoDup (a :: addrs l)) as Hndl.
  { apply NoDup_cons in Hnd as [_ Hnd].
    pose proof (subtree_NoDup _ _ Hsub Hnd) as Hsubnd. simpl in Hsubnd.
    apply NoDup_app in Hsubnd as (Hl & Hdisj & [Ha _]%NoDup_cons).
    apply NoDup_cons. split; [|done]. intros Hin. destruct (Hdisj a Hin). by left. }
  simpl in Hrepa. destruct Hrepa as (_ & na & Ha & _ & _ & _ & Hl & _).
  apply (Viz_shape h a na l Ha).
  - by eapply repr_shape.
  - pose proof (subtree_height _ _ Hsub) as Hh. simpl in Hh.
    pose proof (height_le_size t). lia.
Qed.

Lemma Viz_lo_subtree_witness :
  Viz crooked (Some 1) = Ret ["digraph treemap {" +:+ nl; "}" +:+ nl].
Proof.
  apply (Viz_lo_subtree crooked 0 _ (Node Leaf 2 7%Z 0%Z Leaf) 1 5%Z 0%Z Leaf
           crooked_wf).
  left. reflexivity.
Defined.
